(** * lilcom: the integer stream coder of [int_stream.h]

    A shallow embedding of [UintStream] / [ReverseUintStream] and of the
    signed wrappers [IntStream] / [ReverseIntStream], followed by the
    properties of the coder that the specification states. *)

From Stdlib Require Import ZArith List Lia Bool.
Import ListNotations.
Open Scope Z_scope.

(** ** Machine integers

    C++ [int] and [uint32_t] values are integers of [Z]; every arithmetic
    operation of the source is followed by the wrap-around of its type. *)

Module Int32.
Definition modulus : Z := 2 ^ 32.
Definition half : Z := 2 ^ 31.

(** conversion to [uint32_t] *)
Definition to_uint (x : Z) : Z := x mod modulus.
(** conversion to [int] / [int32_t] (two's complement) *)
Definition to_int (x : Z) : Z := (x + half) mod modulus - half.

(** [int] arithmetic *)
Definition add (a b : Z) : Z := to_int (a + b).
Definition sub (a b : Z) : Z := to_int (a - b).
Definition mul (a b : Z) : Z := to_int (a * b).
Definition neg (a : Z) : Z := to_int (- a).
(** [1 << n] on [int] *)
Definition shl1 (n : Z) : Z := to_int (Z.shiftl 1 n).

(** [uint32_t] arithmetic *)
Definition uadd (a b : Z) : Z := to_uint (a + b).

Definition is_uint (x : Z) : Prop := 0 <= x < modulus.
Definition is_int (x : Z) : Prop := - half <= x < half.
End Int32.

(** ** [int_math_utils.h] *)

Module int_math.
(** Modelled from the spec: [int_math::num_bits] lives in
    [int_math_utils.h], which is not part of the sources; the spec gives
    [nb(x)] = position of the highest set bit + 1, with [nb(0) = 0]. *)
Definition num_bits (x : Z) : Z :=
  if 0 <? x then Z.log2 x + 1 else 0.

(** Modelled from the spec: [int_math::int_math_max] is the maximum of two
    [int]s (the spec writes it [max]). *)
Definition int_math_max (a b : Z) : Z := Z.max a b.
End int_math.

(** ** [bit_stream.h] *)

(** The [n] low bits of [v], least significant first. *)
Definition field_bits (n : Z) (v : Z) : list bool :=
  map (fun i => Z.testbit v (Z.of_nat i)) (seq 0 (Z.to_nat n)).

(** The value of a field given least significant bit first. *)
Fixpoint bits_value (bs : list bool) : Z :=
  match bs with
  | [] => 0
  | b :: r => Z.b2z b + 2 * bits_value r
  end.

(** Cut a bit sequence into groups of eight; [fuel] bounds the number of
    groups and the driver below passes the length of the sequence. *)
Fixpoint chunk8 (fuel : nat) (bs : list bool) : list (list bool) :=
  match fuel with
  | O => []
  | S f =>
      match bs with
      | [] => []
      | _ => firstn 8 bs :: chunk8 f (skipn 8 bs)
      end
  end.

Module BitStream.
(** Modelled from the spec: class [BitStream] lives in [bit_stream.h],
    which is not part of the sources.  The spec gives its contract: fields
    are appended least significant bit first, in call order; [Flush] pads
    the last partial byte with zeros; [Code] is the byte sequence, the first
    bit written being bit 0 of the first byte.  The state is the sequence
    of bits written so far. *)
Definition t : Type := list bool.

Definition empty : t := [].

Definition Write (nbits : Z) (value : Z) (s : t) : t :=
  s ++ field_bits nbits value.

Definition padding (s : t) : nat := (8 - length s mod 8) mod 8.

Definition Flush (s : t) : t := s ++ repeat false (padding s).

(** a byte of the code, as the [int8_t] the vector holds *)
Definition to_int8 (x : Z) : Z := (x + 128) mod 256 - 128.

Definition Code (s : t) : list Z :=
  map (fun g => to_int8 (bits_value g)) (chunk8 (length s) s).
End BitStream.

Module ReverseBitStream.
(** Modelled from the spec: class [ReverseBitStream] lives in
    [bit_stream.h], which is not part of the sources.  The spec gives its
    contract: it consumes the bytes least significant bit first and
    [Read(nbits, &out)] returns [false] if the remaining buffer cannot
    supply [nbits].  The state is the sequence of bits not yet consumed of
    the byte range given to the constructor. *)
Definition t : Type := list bool.

(** the bits of one [int8_t], read as [unsigned char] *)
Definition byte_bits (b : Z) : list bool := field_bits 8 (b mod 256).

Definition make (code : list Z) : t := flat_map byte_bits code.

(** [None] is the [false] return; otherwise the field read and the reader
    after it. *)
Definition Read (nbits : Z) (r : t) : option (Z * t) :=
  if (Z.to_nat nbits <=? length r)%nat
  then Some (bits_value (firstn (Z.to_nat nbits) r), skipn (Z.to_nat nbits) r)
  else None.
End ReverseBitStream.

(** ** class [UintStream] *)

(** The ways a run of the encoder can stop: the [assert]s of the source, and
    the read outside [num_bits] that [FlushSome(0)] makes on a nonempty
    buffer. *)
Inductive failure : Type :=
| AssertNotFlushed        (* assert(!flushed_) *)
| AssertBufferNonempty    (* assert(!buffer_.empty()) *)
| AssertPendingZeros      (* assert(num_pending_zeros_ >= 1) *)
| AssertFlushed           (* assert(flushed_) *)
| AssertNumBitsFit        (* assert(int_math::num_bits(i) <= cur_num_bits) *)
| AssertDeltaZero         (* assert(delta_num_bits == 0) *)
| AssertTopBitSet         (* assert((i & (1 << (cur_num_bits - 1))) != 0) *)
| AssertNumToFlush        (* assert(num_to_flush <= size) *)
| OutOfRange.             (* num_bits[num_to_flush - 1] with num_to_flush = 0 *)

Inductive result (A : Type) : Type :=
| Ok (a : A)
| Fail (f : failure).
Arguments Ok {A} a.
Arguments Fail {A} f.

Definition bind {A B : Type} (m : result A) (k : A -> result B) : result B :=
  match m with
  | Ok a => k a
  | Fail f => Fail f
  end.

Definition assert (b : bool) (f : failure) : result unit :=
  if b then Ok tt else Fail f.

Declare Scope result_scope.
Delimit Scope result_scope with result.
Notation "x <- m ;; k" := (bind m (fun x => k))
  (at level 61, m at next level, right associativity) : result_scope.
Notation "m ;;; k" := (bind m (fun _ => k))
  (at level 61, right associativity) : result_scope.

(** One call of [WriteCode]: [(prev_num_bits, cur_num_bits, next_num_bits, i)]. *)
Definition call : Type := (Z * Z * Z * Z)%type.

Definition call_prev (c : call) : Z := fst (fst (fst c)).
Definition call_cur (c : call) : Z := snd (fst (fst c)).
Definition call_next (c : call) : Z := snd (fst c).
Definition call_value (c : call) : Z := snd c.

Definition top_bit_redundant (prev_num_bits cur_num_bits next_num_bits : Z) : bool :=
  (prev_num_bits <=? cur_num_bits) && (next_num_bits <=? cur_num_bits)
  && (0 <? cur_num_bits).

Module UintStream.
Import int_math.
Local Open Scope result_scope.

Record t : Type := mk {
  buffer_ : list Z;               (* std::vector<uint32_t> *)
  most_recent_num_bits_ : Z;      (* int *)
  bit_stream_ : BitStream.t;
  started_ : bool;
  flushed_ : bool;
  num_pending_zeros_ : Z          (* uint32_t *)
}.

(** the constructor *)
Definition init : t :=
  mk [] 0 BitStream.empty false false 0.

Definition with_bit_stream (s : t) (b : BitStream.t) : t :=
  mk (buffer_ s) (most_recent_num_bits_ s) b (started_ s) (flushed_ s)
     (num_pending_zeros_ s).

Definition FlushPendingZeros (s : t) : result t :=
  assert (1 <=? num_pending_zeros_ s) AssertPendingZeros ;;;
  let num_bits_written := Int32.sub (num_bits (num_pending_zeros_ s)) 1 in
  let b1 := BitStream.Write (Int32.add num_bits_written 1)
              (Int32.to_uint (Int32.shl1 num_bits_written)) (bit_stream_ s) in
  let b2 := BitStream.Write num_bits_written
              (Z.land (num_pending_zeros_ s)
                 (Int32.to_uint (Int32.sub (Int32.shl1 num_bits_written) 1)))
              b1 in
  Ok (mk (buffer_ s) (most_recent_num_bits_ s) b2 (started_ s) (flushed_ s) 0).

(** the first loop of [ComputeNumBits] *)
Fixpoint forward_loop (prev_num_bits : Z) (buffer : list Z) : list Z :=
  match buffer with
  | [] => []
  | x :: rest =>
      let p := int_math_max (num_bits x) (Int32.sub prev_num_bits 1) in
      p :: forward_loop p rest
  end.

(** the second loop of [ComputeNumBits]: it walks the array from its last
    element ([rev_bits] is the part still to visit, last element first) and
    [done] is the part already rewritten. *)
Fixpoint backward_loop (next_num_bits : Z) (rev_bits : list Z) (done : list Z)
  : list Z :=
  match rev_bits with
  | [] => done
  | this_num_bits :: rest =>
      let n := int_math_max this_num_bits (Int32.sub next_num_bits 1) in
      backward_loop n rest (n :: done)
  end.

Definition ComputeNumBits (s : t) : list Z :=
  backward_loop 0 (rev (forward_loop (most_recent_num_bits_ s) (buffer_ s))) [].

Definition WriteCode (prev_num_bits cur_num_bits next_num_bits i : Z) (s : t)
  : result t :=
  if cur_num_bits =? 0 then
    Ok (mk (buffer_ s) (most_recent_num_bits_ s) (bit_stream_ s) (started_ s)
          (flushed_ s) (Int32.uadd (num_pending_zeros_ s) 1))
  else
    s <- (if num_pending_zeros_ s =? 0 then Ok s else FlushPendingZeros s) ;;
    assert (num_bits i <=? cur_num_bits) AssertNumBitsFit ;;;
    let delta_num_bits := Int32.sub next_num_bits cur_num_bits in
    b <- (if delta_num_bits =? 1 then
            Ok (BitStream.Write 2 3 (bit_stream_ s))
          else if delta_num_bits =? -1 then
            Ok (BitStream.Write 2 1 (bit_stream_ s))
          else
            assert (delta_num_bits =? 0) AssertDeltaZero ;;;
            Ok (BitStream.Write 1 0 (bit_stream_ s))) ;;
    let top := Int32.to_uint (Int32.shl1 (Int32.sub cur_num_bits 1)) in
    if negb (top_bit_redundant prev_num_bits cur_num_bits next_num_bits) then
      Ok (with_bit_stream s (BitStream.Write cur_num_bits i b))
    else
      assert (negb (Z.land i top =? 0)) AssertTopBitSet ;;;
      Ok (with_bit_stream s
            (BitStream.Write (Int32.sub cur_num_bits 1) (Z.lxor i top) b)).

(** the loop of [FlushSome]: [left] iterations remain, [i] is the index *)
Fixpoint flush_loop (left : nat) (i : nat) (num_bits : list Z)
    (prev_num_bits cur_num_bits : Z) (s : t) : result t :=
  match left with
  | O => Ok s
  | S left' =>
      let next_num_bits := nth (i + 1) num_bits 0 in
      s <- WriteCode prev_num_bits cur_num_bits next_num_bits
             (nth i (buffer_ s) 0) s ;;
      flush_loop left' (i + 1) num_bits cur_num_bits next_num_bits s
  end.

(** [num_to_flush] is a [uint32_t] in the source; its callers pass 32 or the
    size of the buffer, which stays below 64, so it is a [nat] here.  With
    [num_to_flush = 0] on a nonempty buffer the index [num_to_flush - 1]
    wraps to [2^32 - 1], outside [num_bits]. *)
Definition FlushSome (num_to_flush : nat) (s : t) : result t :=
  let size := length (buffer_ s) in
  assert (num_to_flush <=? size)%nat AssertNumToFlush ;;;
  if (size =? 0)%nat then Ok s else
  let num_bits := ComputeNumBits s in
  let num_bits :=
    if (num_to_flush =? size)%nat then num_bits ++ [last num_bits 0]
    else num_bits in
  let s :=
    if started_ s then s else
      let first_num_bits := nth 0 num_bits 0 in
      let b := BitStream.Write 5
                 (if first_num_bits =? 32 then 31 else first_num_bits)
                 (bit_stream_ s) in
      let b := if 31 <=? first_num_bits
               then BitStream.Write 1 (Int32.sub first_num_bits 31) b
               else b in
      mk (buffer_ s) first_num_bits b true (flushed_ s) (num_pending_zeros_ s) in
  s <- flush_loop num_to_flush 0 num_bits
         (most_recent_num_bits_ s) (nth 0 num_bits 0) s ;;
  match num_to_flush with
  | O => Fail OutOfRange
  | S m =>
      Ok (mk (skipn num_to_flush (buffer_ s)) (nth m num_bits 0)
            (bit_stream_ s) (started_ s) (flushed_ s) (num_pending_zeros_ s))
  end.

Definition Write (value : Z) (s : t) : result t :=
  let s := mk (buffer_ s ++ [value]) (most_recent_num_bits_ s) (bit_stream_ s)
             (started_ s) (flushed_ s) (num_pending_zeros_ s) in
  if (64 <=? length (buffer_ s))%nat then FlushSome 32 s else Ok s.

Definition Flush (s : t) : result t :=
  assert (negb (flushed_ s)) AssertNotFlushed ;;;
  assert (negb (length (buffer_ s) =? 0)%nat) AssertBufferNonempty ;;;
  let s := mk (buffer_ s) (most_recent_num_bits_ s) (bit_stream_ s)
             (started_ s) true (num_pending_zeros_ s) in
  s <- FlushSome (length (buffer_ s)) s ;;
  s <- (if num_pending_zeros_ s =? 0 then Ok s else FlushPendingZeros s) ;;
  Ok (with_bit_stream s (BitStream.Flush (bit_stream_ s))).

Definition Code (s : t) : result (list Z) :=
  assert (flushed_ s) AssertFlushed ;;;
  Ok (BitStream.Code (bit_stream_ s)).
End UintStream.

(** The lifecycle of the encoder: [Write] every value in order, then [Flush]
    once, then take [Code()]. *)
Fixpoint write_all (vs : list Z) (s : UintStream.t) : result UintStream.t :=
  match vs with
  | [] => Ok s
  | v :: rest => bind (UintStream.Write v s) (write_all rest)
  end.

Definition encode_state (vs : list Z) : result UintStream.t :=
  bind (write_all vs UintStream.init) UintStream.Flush.

Definition encode (vs : list Z) : result (list Z) :=
  bind (encode_state vs) UintStream.Code.

(** ** class [ReverseUintStream] *)

(** The ways the constructor of the decoder can stop: its [assert]s. *)
Inductive ctor_failure : Type :=
| AssertCodeNonempty      (* assert(code_memory_end > code) *)
| AssertPreludeRead.      (* assert(ans) *)

Module ReverseUintStream.
Record t : Type := mk {
  bit_reader_ : ReverseBitStream.t;
  prev_num_bits_ : Z;             (* int *)
  cur_num_bits_ : Z;              (* int *)
  zero_runlength_ : Z             (* int *)
}.

(** the constructor, on the byte range [code, code_memory_end) *)
Definition make (code : list Z) : ctor_failure + t :=
  match code with
  | [] => inl AssertCodeNonempty
  | _ =>
      match ReverseBitStream.Read 5 (ReverseBitStream.make code) with
      | None => inl AssertPreludeRead
      | Some (num_bits, r) =>
          if 31 <=? num_bits then
            match ReverseBitStream.Read 1 r with
            | None => inl AssertPreludeRead
            | Some (extra_bit, r) =>
                let num_bits := Int32.uadd num_bits extra_bit in
                inr (mk r (Int32.to_int num_bits) (Int32.to_int num_bits) (-1))
            end
          else inr (mk r (Int32.to_int num_bits) (Int32.to_int num_bits) (-1))
      end
  end.

(** the [while (1)] loop of [Read] that counts the zero bits before the
    first one bit.  It leaves by [return false] as soon as
    [num_zeros_read > 31], so it makes at most 33 turns; [fuel] is the
    number of turns allowed and [Read] passes 33. *)
Fixpoint read_zeros (fuel : nat) (num_zeros_read : Z) (r : ReverseBitStream.t)
  : option (Z * ReverseBitStream.t) :=
  match fuel with
  | O => None
  | S fuel' =>
      match ReverseBitStream.Read 1 r with
      | None => None
      | Some (bit, r) =>
          if 31 <? num_zeros_read then None
          else if bit =? 0 then read_zeros fuel' (Int32.add num_zeros_read 1) r
          else Some (num_zeros_read, r)
      end
  end.

(** the big if/else of [Read] that sets [next_num_bits]; it returns
    [next_num_bits], the reader and [zero_runlength_].  [x_uninit] is the
    indeterminate content of the local [x], which is what [x] holds when
    the read of the run-length field fails: the source ignores the value
    that read returns. *)
Definition read_next_num_bits (x_uninit : Z) (s : t)
  : option (Z * ReverseBitStream.t * Z) :=
  let cur_num_bits := cur_num_bits_ s in
  if negb (cur_num_bits =? 0) then
    match ReverseBitStream.Read 1 (bit_reader_ s) with
    | None => None
    | Some (bit1, r) =>
        if bit1 =? 0 then Some (cur_num_bits, r, zero_runlength_ s)
        else
          match ReverseBitStream.Read 1 r with
          | None => None
          | Some (bit2, r) =>
              if negb (bit2 =? 0) then
                let next_num_bits := Int32.add cur_num_bits 1 in
                if 32 <? next_num_bits then None
                else Some (next_num_bits, r, zero_runlength_ s)
              else
                let next_num_bits := Int32.sub cur_num_bits 1 in
                if next_num_bits <? 0 then None
                else Some (next_num_bits, r, zero_runlength_ s)
          end
    end
  else if 0 <=? zero_runlength_ s then
    let next_num_bits := if zero_runlength_ s =? 0 then 1 else 0 in
    Some (next_num_bits, bit_reader_ s, Int32.sub (zero_runlength_ s) 1)
  else
    match read_zeros 33 0 (bit_reader_ s) with
    | None => None
    | Some (num_zeros_read, r) =>
        let '(x, r) :=
          match ReverseBitStream.Read num_zeros_read r with
          | Some (x, r') => (x, r')
          | None => (x_uninit, r)
          end in
        let num_zeros_in_run :=
          Int32.to_int (Int32.uadd (Int32.to_uint (Int32.shl1 num_zeros_read)) x) in
        let zero_runlength := Int32.sub num_zeros_in_run 2 in
        let next_num_bits := if num_zeros_in_run =? 1 then 1 else 0 in
        Some (next_num_bits, r, zero_runlength)
    end.

(** [None] is the [false] return; otherwise [*int_out] and the decoder
    after the call. *)
Definition Read (x_uninit : Z) (s : t) : option (Z * t) :=
  let prev_num_bits := prev_num_bits_ s in
  let cur_num_bits := cur_num_bits_ s in
  match read_next_num_bits x_uninit s with
  | None => None
  | Some (next_num_bits, r, zero_runlength) =>
      if top_bit_redundant prev_num_bits cur_num_bits next_num_bits then
        match ReverseBitStream.Read (Int32.sub cur_num_bits 1) r with
        | None => None
        | Some (int_out, r) =>
            let int_out :=
              Z.lor int_out
                (Int32.to_uint (Int32.shl1 (Int32.sub cur_num_bits 1))) in
            Some (int_out, mk r cur_num_bits next_num_bits zero_runlength)
        end
      else
        match ReverseBitStream.Read cur_num_bits r with
        | None => None
        | Some (int_out, r) =>
            Some (int_out, mk r cur_num_bits next_num_bits zero_runlength)
        end
  end.
End ReverseUintStream.

(** [n] successive calls of [Read]; [None] as soon as one returns [false],
    otherwise the values read and the decoder after the last call.
    [x_uninit k] is the indeterminate local of the [k]-th call. *)
Fixpoint read_n (n : nat) (x_uninit : nat -> Z) (s : ReverseUintStream.t)
  : option (list Z * ReverseUintStream.t) :=
  match n with
  | O => Some ([], s)
  | S n' =>
      match ReverseUintStream.Read (x_uninit O) s with
      | None => None
      | Some (v, s') =>
          match read_n n' (fun k => x_uninit (S k)) s' with
          | None => None
          | Some (vs, s'') => Some (v :: vs, s'')
          end
      end
  end.

Definition read_all (n : nat) (x_uninit : nat -> Z) (s : ReverseUintStream.t)
  : option (list Z) :=
  option_map fst (read_n n x_uninit s).

(** Construct a [ReverseUintStream] on [code] and call [Read] [n] times. *)
Definition decode (n : nat) (x_uninit : nat -> Z) (code : list Z)
  : option (list Z) :=
  match ReverseUintStream.make code with
  | inl _ => None
  | inr s => read_all n x_uninit s
  end.

(** ** classes [IntStream] and [ReverseIntStream] *)

Module IntStream.
(** the argument of [UintStream::Write] in [IntStream::Write]:
    [value >= 0 ? 2 * value : -(2 * value) - 1], computed on [int32_t] and
    converted to [uint32_t] *)
Definition zigzag (value : Z) : Z :=
  Int32.to_uint
    (if 0 <=? value then Int32.mul 2 value
     else Int32.sub (Int32.neg (Int32.mul 2 value)) 1).

Definition Write (value : Z) (s : UintStream.t) : result UintStream.t :=
  UintStream.Write (zigzag value) s.
End IntStream.

Module ReverseIntStream.
(** the constructor only calls the constructor of [ReverseUintStream] *)
Definition make (code : list Z) : ctor_failure + ReverseUintStream.t :=
  ReverseUintStream.make code.

(** [i % 2 == 0 ? (int32_t)(i/2) : -(int32_t)(i/2) - 1] *)
Definition unzigzag (i : Z) : Z :=
  if i mod 2 =? 0 then Int32.to_int (i / 2)
  else Int32.sub (Int32.neg (Int32.to_int (i / 2))) 1.

Definition Read (x_uninit : Z) (s : ReverseUintStream.t)
  : option (Z * ReverseUintStream.t) :=
  match ReverseUintStream.Read x_uninit s with
  | None => None
  | Some (i, s') => Some (unzigzag i, s')
  end.
End ReverseIntStream.

(** ** The planned widths, as functions of the sequence of [num_bits]

    [ComputeNumBits] is a forward loop followed by a backward loop; the two
    functions below are the same passes on unbounded integers, written by
    structural recursion.  [ComputeNumBits_plan] proves that the loops of the
    source compute them. *)

Fixpoint fwd (prev : Z) (nbs : list Z) : list Z :=
  match nbs with
  | [] => []
  | x :: rest => let w := Z.max x (prev - 1) in w :: fwd w rest
  end.

Fixpoint bwd (seed : Z) (ws : list Z) : list Z :=
  match ws with
  | [] => []
  | x :: rest => let t := bwd seed rest in Z.max x (hd seed t - 1) :: t
  end.

Definition plan (most_recent_num_bits : Z) (buffer : list Z) : list Z :=
  bwd 0 (fwd most_recent_num_bits (map int_math.num_bits buffer)).

(** The constraints of the spec on a width sequence [w] for the values [vs]
    after a symbol of width [most_recent_num_bits]: enough bits for every
    value, slope at most one between neighbours, and the first width no less
    than [most_recent_num_bits - 1]. *)
Definition admissible (most_recent_num_bits : Z) (vs w : list Z) : Prop :=
  length w = length vs /\
  (forall i, (i < length vs)%nat -> int_math.num_bits (nth i vs 0) <= nth i w 0) /\
  (forall i, (S i < length vs)%nat -> Z.abs (nth (S i) w 0 - nth i w 0) <= 1) /\
  ((0 < length vs)%nat -> most_recent_num_bits - 1 <= nth 0 w 0).

(** The two passes in the words of the spec, by index:
    forward [w[i] = max(nb(v[i]), w[i-1] - 1)] with [w[-1]] the seed width,
    then backward [w[i] = max(w[i], w[i+1] - 1)] with 0 past the end. *)
Fixpoint spec_forward (most_recent_num_bits : Z) (vs : list Z) (i : nat) : Z :=
  match i with
  | O => Z.max (int_math.num_bits (nth 0 vs 0)) (most_recent_num_bits - 1)
  | S j =>
      Z.max (int_math.num_bits (nth i vs 0))
            (spec_forward most_recent_num_bits vs j - 1)
  end.

(** [spec_backward f d i] is the backward pass at index [i], where [d] is the
    number of elements from [i] to the end. *)
Fixpoint spec_backward (f : nat -> Z) (d : nat) (i : nat) : Z :=
  match d with
  | O => 0
  | S d' => Z.max (f i) (spec_backward f d' (S i) - 1)
  end.

Definition spec_widths (most_recent_num_bits : Z) (vs : list Z) : list Z :=
  map (fun i =>
         spec_backward (spec_forward most_recent_num_bits vs) (length vs - i) i)
      (seq 0 (length vs)).

(** ** The calls of [WriteCode] that a run makes

    The arguments of [WriteCode] do not depend on what earlier calls wrote,
    so the sequence of calls of a [FlushSome] can be listed apart from their
    effect; [flush_loop_calls] proves that the loop of [FlushSome] is the
    calls of [loop_calls] made in order. *)

Fixpoint loop_calls (left : nat) (i : nat) (num_bits buffer : list Z)
    (prev_num_bits cur_num_bits : Z) : list call :=
  match left with
  | O => []
  | S left' =>
      let next_num_bits := nth (i + 1) num_bits 0 in
      (prev_num_bits, cur_num_bits, next_num_bits, nth i buffer 0)
        :: loop_calls left' (i + 1) num_bits buffer cur_num_bits next_num_bits
  end.

(** [num_bits] as [FlushSome] uses it: with the last width repeated when the
    whole buffer is flushed. *)
Definition FlushSome_num_bits (num_to_flush : nat) (s : UintStream.t) : list Z :=
  let num_bits := UintStream.ComputeNumBits s in
  if (num_to_flush =? length (UintStream.buffer_ s))%nat
  then num_bits ++ [last num_bits 0] else num_bits.

Definition FlushSome_calls (num_to_flush : nat) (s : UintStream.t) : list call :=
  let size := length (UintStream.buffer_ s) in
  if (num_to_flush <=? size)%nat && negb (size =? 0)%nat then
    let num_bits := FlushSome_num_bits num_to_flush s in
    let prev := if UintStream.started_ s then UintStream.most_recent_num_bits_ s
                else nth 0 num_bits 0 in
    loop_calls num_to_flush 0 num_bits (UintStream.buffer_ s) prev (nth 0 num_bits 0)
  else [].

Definition Write_calls (value : Z) (s : UintStream.t) : list call :=
  let s := UintStream.mk (UintStream.buffer_ s ++ [value])
             (UintStream.most_recent_num_bits_ s) (UintStream.bit_stream_ s)
             (UintStream.started_ s) (UintStream.flushed_ s)
             (UintStream.num_pending_zeros_ s) in
  if (64 <=? length (UintStream.buffer_ s))%nat then FlushSome_calls 32 s else [].

Definition Flush_calls (s : UintStream.t) : list call :=
  FlushSome_calls (length (UintStream.buffer_ s)) s.

(** the calls of [Write v1; ...; Write vn; Flush] from the state [s] *)
Fixpoint run_calls (vs : list Z) (s : UintStream.t) : list call :=
  match vs with
  | [] => Flush_calls s
  | v :: rest =>
      Write_calls v s ++
      match UintStream.Write v s with
      | Ok s' => run_calls rest s'
      | Fail _ => []
      end
  end.

Definition encode_calls (vs : list Z) : list call :=
  run_calls vs UintStream.init.

Fixpoint write_codes (cs : list call) (s : UintStream.t) : result UintStream.t :=
  match cs with
  | [] => Ok s
  | (prev_num_bits, cur_num_bits, next_num_bits, i) :: rest =>
      bind (UintStream.WriteCode prev_num_bits cur_num_bits next_num_bits i s)
           (write_codes rest)
  end.

(** ** The bits of a run, as a function of its calls *)

(** the zero-run code of a run of [k] zero-width symbols, in the words of
    the spec: with [h = nb(k) - 1], a field of [h + 1] bits holding
    [1 << h], then [h] bits holding [k mod 2^h] *)
Definition zero_run_bits (k : Z) : list bool :=
  let h := int_math.num_bits k - 1 in
  field_bits (h + 1) (2 ^ h) ++ field_bits h (k mod 2 ^ h).

Definition pending_bits (pending : Z) : list bool :=
  if pending =? 0 then [] else zero_run_bits pending.

(** the width-delta code that announces [next] after [cur] *)
Definition delta_bits (cur next : Z) : list bool :=
  if next - cur =? 1 then field_bits 2 3
  else if next - cur =? -1 then field_bits 2 1
  else field_bits 1 0.

(** the value bits of a symbol: all [cur] bits, or the low [cur - 1] bits
    when the top bit is redundant *)
Definition value_bits (prev cur next i : Z) : list bool :=
  if top_bit_redundant prev cur next then field_bits (cur - 1) i
  else field_bits cur i.

(** [emit pending cs] is what the calls [cs] append to the bit stream when
    [num_pending_zeros_] is [pending] before them, and [num_pending_zeros_]
    after them. *)
Fixpoint emit (pending : Z) (cs : list call) : list bool * Z :=
  match cs with
  | [] => ([], pending)
  | (prev, cur, next, i) :: rest =>
      if cur =? 0 then emit (Int32.uadd pending 1) rest
      else
        let '(bs, p) := emit 0 rest in
        (pending_bits pending ++ delta_bits cur next
           ++ value_bits prev cur next i ++ bs, p)
  end.

(** the prelude that announces the first width *)
Definition prelude_bits (first_num_bits : Z) : list bool :=
  if first_num_bits <? 31 then field_bits 5 first_num_bits
  else field_bits 5 31 ++ field_bits 1 (first_num_bits - 31).

(** A call whose arguments meet what [WriteCode] expects of them: widths in
    [0, 32], next width within one of the current one, a value that fits,
    and the top bit of the value at position [cur - 1] whenever it is
    elided. *)
Definition good_call (c : call) : Prop :=
  let '(prev, cur, next, i) := c in
  0 <= cur <= 32 /\ 0 <= next <= 32 /\ -1 <= next - cur <= 1 /\
  0 <= i /\ int_math.num_bits i <= cur /\
  (top_bit_redundant prev cur next = true -> int_math.num_bits i = cur).

(** the state with its bit stream and counter of pending zeros replaced *)
Definition set_output (s : UintStream.t) (bits : BitStream.t) (pending : Z)
  : UintStream.t :=
  UintStream.mk (UintStream.buffer_ s) (UintStream.most_recent_num_bits_ s) bits
    (UintStream.started_ s) (UintStream.flushed_ s) pending.

(** the width before index [k] in a flush that starts after a symbol of
    width [prev] *)
Definition width_before (prev : Z) (num_bits : list Z) (k : nat) : Z :=
  match k with
  | O => prev
  | S j => nth j num_bits 0
  end.

(** the first width of the backward pass over [ws] seeded with [seed] *)
Fixpoint bwd_head (seed : Z) (ws : list Z) : Z :=
  match ws with
  | [] => seed
  | x :: rest => Z.max x (bwd_head seed rest - 1)
  end.

(** ** Chains of calls

    The decoder keeps the pair [(prev_num_bits_, cur_num_bits_)]; a sequence
    of calls is a chain from such a pair when every call has it as its first
    two arguments and hands [(cur, next)] to the call after it. *)

Fixpoint chain (st : Z * Z) (cs : list call) : Prop :=
  match cs with
  | [] => True
  | (prev, cur, next, i) :: rest => st = (prev, cur) /\ chain (cur, next) rest
  end.

Fixpoint chain_end (st : Z * Z) (cs : list call) : Z * Z :=
  match cs with
  | [] => st
  | (prev, cur, next, i) :: rest => chain_end (cur, next) rest
  end.

(** What holds of the encoder between two calls of [Write], where [cs] are
    the calls of [WriteCode] made so far and [written] the values written so
    far: the calls are a chain of good calls from the first width, the bit
    stream is the prelude followed by what the calls emit, the first width is
    the first planned width of the first 64 values (of all of them when they
    are fewer), and the width announced by the last call is the first width
    that every later plan gives to the buffer. *)
Definition encoder_inv (written : list Z) (cs : list call) (s : UintStream.t)
  : Prop :=
  Forall Int32.is_uint (UintStream.buffer_ s) /\
  Forall good_call cs /\
  written = map call_value cs ++ UintStream.buffer_ s /\
  if UintStream.started_ s then
    exists w0 ann,
      (0 <= w0 <= 32 /\ w0 = hd 0 (plan 0 (firstn 64 written)) /\
       (64 <= length written)%nat) /\
      cs <> [] /\ chain (w0, w0) cs /\
      chain_end (w0, w0) cs = (UintStream.most_recent_num_bits_ s, ann) /\
      0 <= UintStream.most_recent_num_bits_ s <= 32 /\
      UintStream.bit_stream_ s = prelude_bits w0 ++ fst (emit 0 cs) /\
      UintStream.num_pending_zeros_ s = snd (emit 0 cs) /\
      (32 <= length (UintStream.buffer_ s))%nat /\
      (forall ext, Forall Int32.is_uint ext ->
         hd 0 (plan (UintStream.most_recent_num_bits_ s)
                    (UintStream.buffer_ s ++ ext)) = ann)
  else
    cs = [] /\ UintStream.bit_stream_ s = [] /\
    UintStream.num_pending_zeros_ s = 0 /\
    UintStream.most_recent_num_bits_ s = 0.

(** What holds of the encoder after [Flush], where [cs] are all the calls of
    the run and [written] all the values. *)
Definition encoder_final (written : list Z) (cs : list call) (s : UintStream.t)
  : Prop :=
  UintStream.flushed_ s = true /\
  Forall good_call cs /\
  written = map call_value cs /\
  exists w0 last_num_bits,
    (0 <= w0 <= 32 /\ w0 = hd 0 (plan 0 (firstn 64 written))) /\
    chain (w0, w0) cs /\
    chain_end (w0, w0) cs = (last_num_bits, last_num_bits) /\
    UintStream.bit_stream_ s =
      BitStream.Flush
        (prelude_bits w0 ++ fst (emit 0 cs) ++ pending_bits (snd (emit 0 cs))).

(** the widths that [FlushSome] reads: the planned widths [ws], with the last
    one repeated when the whole buffer is flushed *)
Definition flush_widths (whole : bool) (ws : list Z) : list Z :=
  if whole then ws ++ [last ws 0] else ws.

(** the bits that the calls [cs] leave in the stream when no zero is pending
    before them, the closing zero-run code included *)
Definition chain_bits (cs : list call) : list bool :=
  fst (emit 0 cs) ++ pending_bits (snd (emit 0 cs)).

(** the calls of zero width at the head of [cs], and the calls after them *)
Fixpoint zero_calls (cs : list call) : list call :=
  match cs with
  | (prev, cur, next, i) :: rest =>
      if cur =? 0 then (prev, cur, next, i) :: zero_calls rest else []
  | [] => []
  end.

Fixpoint after_zero_calls (cs : list call) : list call :=
  match cs with
  | (prev, cur, next, i) :: rest =>
      if cur =? 0 then after_zero_calls rest else cs
  | [] => []
  end.

(** a decidable form of [Forall Int32.is_uint] *)
Definition all_uint (vs : list Z) : bool :=
  forallb (fun v => (0 <=? v) && (v <? Int32.modulus)) vs.

(** the number of values that the encoder holds in [buffer_] after [n]
    calls of [Write]: all of them up to the 63rd, then between 32 and 63,
    since [Write] calls [FlushSome(32)] whenever the buffer reaches 64 *)
Definition held_back (n : Z) : Z :=
  if n <? 64 then n else 32 + n mod 32.

(** ** Runs of the signed coder *)

(** [IntStream::Write] of every value in order; [Flush] and [Code] are the
    ones [IntStream] inherits from [UintStream]. *)
Fixpoint write_all_int (vs : list Z) (s : UintStream.t) : result UintStream.t :=
  match vs with
  | [] => Ok s
  | v :: rest => bind (IntStream.Write v s) (write_all_int rest)
  end.

Definition encode_int (vs : list Z) : result (list Z) :=
  bind (bind (write_all_int vs UintStream.init) UintStream.Flush) UintStream.Code.

(** [n] successive calls of [ReverseIntStream::Read] *)
Fixpoint read_n_int (n : nat) (x_uninit : nat -> Z) (s : ReverseUintStream.t)
  : option (list Z * ReverseUintStream.t) :=
  match n with
  | O => Some ([], s)
  | S n' =>
      match ReverseIntStream.Read (x_uninit O) s with
      | None => None
      | Some (v, s') =>
          match read_n_int n' (fun k => x_uninit (S k)) s' with
          | None => None
          | Some (vs, s'') => Some (v :: vs, s'')
          end
      end
  end.

(** Construct a [ReverseIntStream] on [code] and call [Read] [n] times. *)
Definition decode_int (n : nat) (x_uninit : nat -> Z) (code : list Z)
  : option (list Z) :=
  match ReverseIntStream.make code with
  | inl _ => None
  | inr s => option_map fst (read_n_int n x_uninit s)
  end.

(** * Properties *)

(** ** Machine arithmetic *)

Lemma to_int_id x : Int32.is_int x -> Int32.to_int x = x.
Proof.
  unfold Int32.is_int, Int32.to_int, Int32.half, Int32.modulus. intros H.
  rewrite Z.mod_small; lia.
Qed.

Lemma to_uint_id x : Int32.is_uint x -> Int32.to_uint x = x.
Proof.
  unfold Int32.is_uint, Int32.to_uint, Int32.modulus. intros H.
  apply Z.mod_small; lia.
Qed.

Lemma sub_exact a b : Int32.is_int (a - b) -> Int32.sub a b = a - b.
Proof. apply to_int_id. Qed.

Lemma add_exact a b : Int32.is_int (a + b) -> Int32.add a b = a + b.
Proof. apply to_int_id. Qed.

Lemma half_eq : Int32.half = 2147483648.
Proof. reflexivity. Qed.

Lemma modulus_eq : Int32.modulus = 4294967296.
Proof. reflexivity. Qed.

Ltac int_range :=
  unfold Int32.is_int, Int32.is_uint in *;
  rewrite ?half_eq, ?modulus_eq in *; lia.

(** ** [num_bits] *)

Lemma num_bits_nonneg x : 0 <= int_math.num_bits x.
Proof.
  unfold int_math.num_bits. destruct (0 <? x) eqn:E; [|lia].
  pose proof (Z.log2_nonneg x). lia.
Qed.

Lemma num_bits_le x n : 0 <= n -> x < 2 ^ n -> int_math.num_bits x <= n.
Proof.
  intros Hn Hx. unfold int_math.num_bits. destruct (0 <? x) eqn:E; [|lia].
  apply Z.ltb_lt in E.
  assert (Z.log2 x < n) by (apply Z.log2_lt_pow2; lia). lia.
Qed.

Lemma num_bits_uint x : Int32.is_uint x -> 0 <= int_math.num_bits x <= 32.
Proof.
  intros H. split; [apply num_bits_nonneg|].
  apply num_bits_le; [lia|]. unfold Int32.is_uint, Int32.modulus in H. lia.
Qed.

Lemma num_bits_spec x : 0 < x ->
  2 ^ (int_math.num_bits x - 1) <= x < 2 ^ int_math.num_bits x.
Proof.
  intros H. unfold int_math.num_bits.
  destruct (0 <? x) eqn:E; [|apply Z.ltb_ge in E; lia].
  replace (Z.log2 x + 1 - 1) with (Z.log2 x) by lia.
  replace (Z.log2 x + 1) with (Z.succ (Z.log2 x)) by lia.
  apply Z.log2_spec; lia.
Qed.

Lemma num_bits_top_bit x : 0 < x -> Z.testbit x (int_math.num_bits x - 1) = true.
Proof.
  intros H. unfold int_math.num_bits.
  destruct (0 <? x) eqn:E; [|apply Z.ltb_ge in E; lia].
  replace (Z.log2 x + 1 - 1) with (Z.log2 x) by lia.
  apply Z.bit_log2; lia.
Qed.

(** ** The loops of [ComputeNumBits] compute [plan] *)

Lemma fwd_length p l : length (fwd p l) = length l.
Proof. revert p. induction l as [|x r IH]; intros p; simpl; [reflexivity|]. now rewrite IH. Qed.

Lemma bwd_length s l : length (bwd s l) = length l.
Proof. induction l as [|x r IH]; simpl; [reflexivity|]. now rewrite IH. Qed.

Lemma plan_length mr vs : length (plan mr vs) = length vs.
Proof. unfold plan. now rewrite bwd_length, fwd_length, length_map. Qed.

Lemma fwd_bounds B l : Forall (fun x => 0 <= x <= B) l ->
  forall p, p - 1 <= B -> Forall (fun x => 0 <= x <= B) (fwd p l).
Proof.
  induction 1 as [|x r Hx Hr IH]; intros p Hp; simpl; constructor.
  - lia.
  - apply IH. lia.
Qed.

Lemma hd_bwd_bounds B s l : Forall (fun x => 0 <= x <= B) l -> 0 <= s <= B ->
  Forall (fun x => 0 <= x <= B) (bwd s l) /\ 0 <= hd s (bwd s l) <= B.
Proof.
  intros Hl Hs. induction Hl as [|x r Hx Hr [IH1 IH2]]; simpl.
  - split; [constructor | lia].
  - split; [constructor|]; try assumption; lia.
Qed.

Lemma forward_loop_fwd vs : Forall Int32.is_uint vs ->
  forall mr, - Int32.half < mr < Int32.half ->
  UintStream.forward_loop mr vs = fwd mr (map int_math.num_bits vs).
Proof.
  induction 1 as [|x r Hx Hr IH]; intros mr Hmr; simpl; [reflexivity|].
  unfold int_math.int_math_max. rewrite sub_exact by int_range.
  f_equal. apply IH. pose proof (num_bits_uint x Hx). int_range.
Qed.

Lemma backward_loop_bwd s l1 : forall l2,
  Forall (fun x => 0 <= x < Int32.half) (l1 ++ l2) -> 0 <= s < Int32.half ->
  UintStream.backward_loop (hd s (bwd s l2)) (rev l1) (bwd s l2) = bwd s (l1 ++ l2).
Proof.
  induction l1 as [|x l1 IH] using rev_ind; intros l2 Hall Hs; [reflexivity|].
  rewrite rev_app_distr. simpl. rewrite <- app_assoc in *. simpl in *.
  assert (Hl2 : Forall (fun x => 0 <= x <= Int32.half - 1) l2).
  { apply Forall_app in Hall as [_ Hall]. inversion Hall; subst.
    eapply Forall_impl; [|eassumption]. cbv beta. intros; lia. }
  destruct (hd_bwd_bounds (Int32.half - 1) s l2 Hl2 ltac:(lia)) as [_ Hhd].
  unfold int_math.int_math_max. rewrite sub_exact by int_range.
  apply (IH (x :: l2)); assumption.
Qed.

Lemma ComputeNumBits_plan s :
  Forall Int32.is_uint (UintStream.buffer_ s) ->
  - Int32.half < UintStream.most_recent_num_bits_ s < Int32.half ->
  UintStream.ComputeNumBits s =
  plan (UintStream.most_recent_num_bits_ s) (UintStream.buffer_ s).
Proof.
  intros Hb Hmr. unfold UintStream.ComputeNumBits, plan.
  rewrite forward_loop_fwd by assumption.
  set (F := fwd _ _).
  assert (HF : Forall (fun x => 0 <= x < Int32.half) F).
  { subst F.
    eapply Forall_impl;
      [| apply (fwd_bounds (Z.max 32 (UintStream.most_recent_num_bits_ s - 1)))].
    - simpl. intros a Ha. int_range.
    - apply Forall_map. eapply Forall_impl; [|exact Hb].
      intros a Ha. pose proof (num_bits_uint a Ha). simpl. lia.
    - lia. }
  pose proof (backward_loop_bwd 0 F [] ) as H. simpl in H.
  rewrite app_nil_r in H. apply H; [assumption | int_range].
Qed.

(** ** The passes by index *)

Lemma fwd_nth_0 p l : (0 < length l)%nat ->
  nth 0 (fwd p l) 0 = Z.max (nth 0 l 0) (p - 1).
Proof. destruct l; simpl; [lia | reflexivity]. Qed.

Lemma fwd_nth_S l : forall p i, (S i < length l)%nat ->
  nth (S i) (fwd p l) 0 = Z.max (nth (S i) l 0) (nth i (fwd p l) 0 - 1).
Proof.
  induction l as [|x r IH]; intros p i Hi; simpl in *; [lia|].
  destruct i as [|j].
  - rewrite fwd_nth_0 by lia. reflexivity.
  - rewrite IH by lia. reflexivity.
Qed.

Lemma bwd_nth s l : forall i, (i < length l)%nat ->
  nth i (bwd s l) 0 =
  Z.max (nth i l 0)
        ((if (S i <? length l)%nat then nth (S i) (bwd s l) 0 else s) - 1).
Proof.
  induction l as [|x r IH]; intros i Hi; simpl in *; [lia|].
  destruct i as [|j].
  - destruct r; simpl; reflexivity.
  - rewrite IH by lia. simpl. reflexivity.
Qed.

Lemma nth_map_num_bits vs i :
  nth i (map int_math.num_bits vs) 0 = int_math.num_bits (nth i vs 0).
Proof. change 0 with (int_math.num_bits 0) at 1. apply map_nth. Qed.

(** ** The planned widths are the least admissible ones *)

Lemma plan_nth_ge_fwd mr vs i : (i < length vs)%nat ->
  nth i (fwd mr (map int_math.num_bits vs)) 0 <= nth i (plan mr vs) 0.
Proof.
  intros Hi. unfold plan. rewrite bwd_nth by (now rewrite fwd_length, length_map). lia.
Qed.

Lemma fwd_nth_ge mr vs i : (i < length vs)%nat ->
  int_math.num_bits (nth i vs 0) <= nth i (fwd mr (map int_math.num_bits vs)) 0.
Proof.
  intros Hi. destruct i.
  - rewrite fwd_nth_0, nth_map_num_bits by (rewrite length_map; lia). lia.
  - rewrite fwd_nth_S, nth_map_num_bits by (rewrite length_map; lia). lia.
Qed.

Lemma fwd_nth_slope mr vs i : (S i < length vs)%nat ->
  nth i (fwd mr (map int_math.num_bits vs)) 0 - 1
  <= nth (S i) (fwd mr (map int_math.num_bits vs)) 0.
Proof. intros Hi. rewrite fwd_nth_S by (rewrite length_map; lia). lia. Qed.

Lemma plan_nth_step mr vs i : (S i < length vs)%nat ->
  nth i (plan mr vs) 0 =
  Z.max (nth i (fwd mr (map int_math.num_bits vs)) 0) (nth (S i) (plan mr vs) 0 - 1).
Proof.
  intros Hi. unfold plan at 1. rewrite bwd_nth by (rewrite fwd_length, length_map; lia).
  rewrite fwd_length, length_map.
  destruct (S i <? length vs)%nat eqn:E; [reflexivity|].
  apply Nat.ltb_ge in E. lia.
Qed.

Lemma plan_nth_last mr vs i : S i = length vs ->
  nth i (plan mr vs) 0 = nth i (fwd mr (map int_math.num_bits vs)) 0.
Proof.
  intros Hi. unfold plan at 1. rewrite bwd_nth by (rewrite fwd_length, length_map; lia).
  rewrite fwd_length, length_map.
  destruct (S i <? length vs)%nat eqn:E; [apply Nat.ltb_lt in E; lia|].
  pose proof (fwd_nth_ge mr vs i ltac:(lia)).
  pose proof (num_bits_nonneg (nth i vs 0)). lia.
Qed.

Lemma plan_admissible mr vs : admissible mr vs (plan mr vs).
Proof.
  unfold admissible. split; [apply plan_length|]. split; [|split].
  - intros i Hi. pose proof (plan_nth_ge_fwd mr vs i Hi).
    pose proof (fwd_nth_ge mr vs i Hi). lia.
  - intros i Hi. rewrite (plan_nth_step mr vs i Hi).
    pose proof (plan_nth_ge_fwd mr vs (S i) Hi).
    pose proof (fwd_nth_slope mr vs i Hi). lia.
  - intros Hlen. pose proof (plan_nth_ge_fwd mr vs 0%nat Hlen).
    rewrite fwd_nth_0 in H by (now rewrite length_map). lia.
Qed.

Lemma fwd_least mr vs u : admissible mr vs u ->
  forall i, (i < length vs)%nat ->
  nth i (fwd mr (map int_math.num_bits vs)) 0 <= nth i u 0.
Proof.
  intros (Hlen & Hnb & Hslope & H0). induction i as [|i IH]; intros Hi.
  - rewrite fwd_nth_0, nth_map_num_bits by (now rewrite length_map).
    specialize (Hnb 0%nat Hi). specialize (H0 Hi). lia.
  - rewrite fwd_nth_S, nth_map_num_bits by (now rewrite length_map).
    specialize (Hnb (S i) Hi). specialize (Hslope i Hi).
    specialize (IH ltac:(lia)). lia.
Qed.

Lemma plan_least mr vs u : admissible mr vs u ->
  forall i, (i < length vs)%nat -> nth i (plan mr vs) 0 <= nth i u 0.
Proof.
  intros Hadm.
  assert (H : forall d i, (i + d = length vs)%nat -> (0 < d)%nat ->
                          nth i (plan mr vs) 0 <= nth i u 0).
  { induction d as [|d IH]; intros i Hi Hd; [lia|].
    pose proof (fwd_least mr vs u Hadm i ltac:(lia)) as Hf.
    destruct d as [|d].
    - rewrite plan_nth_last by lia. exact Hf.
    - rewrite plan_nth_step by lia.
      specialize (IH (S i) ltac:(lia) ltac:(lia)).
      destruct Hadm as (_ & _ & Hslope & _).
      specialize (Hslope i ltac:(lia)). lia. }
  intros i Hi. apply (H (length vs - i)%nat); lia.
Qed.

Lemma spec_forward_fwd mr vs i : (i < length vs)%nat ->
  spec_forward mr vs i = nth i (fwd mr (map int_math.num_bits vs)) 0.
Proof.
  induction i as [|i IH]; intros Hi.
  - simpl. rewrite fwd_nth_0, nth_map_num_bits by (now rewrite length_map). reflexivity.
  - cbn [spec_forward]. rewrite IH by lia.
    rewrite fwd_nth_S, nth_map_num_bits by (now rewrite length_map). reflexivity.
Qed.

Lemma spec_backward_plan mr vs : forall d i, (i + d = length vs)%nat -> (0 < d)%nat ->
  spec_backward (spec_forward mr vs) d i = nth i (plan mr vs) 0.
Proof.
  induction d as [|d IH]; intros i Hi Hd; [lia|].
  cbn [spec_backward]. rewrite spec_forward_fwd by lia.
  destruct d as [|d].
  - rewrite plan_nth_last by lia. simpl.
    pose proof (fwd_nth_ge mr vs i ltac:(lia)).
    pose proof (num_bits_nonneg (nth i vs 0)). lia.
  - rewrite IH by lia. rewrite (plan_nth_step mr vs i) by lia. reflexivity.
Qed.

Lemma plan_spec_widths mr vs : plan mr vs = spec_widths mr vs.
Proof.
  apply (nth_ext _ _ 0 0).
  - unfold spec_widths. now rewrite plan_length, length_map, length_seq.
  - intros i Hi. rewrite plan_length in Hi. unfold spec_widths.
    set (g := fun i => spec_backward (spec_forward mr vs) (length vs - i) i).
    rewrite (nth_indep (map g (seq 0 (length vs))) 0 (g 0%nat))
      by (rewrite length_map, length_seq; exact Hi).
    rewrite map_nth, seq_nth by assumption. subst g. simpl.
    symmetry. apply spec_backward_plan; lia.
Qed.

(** C2: for every buffer of 32-bit values and every seed width, the widths
    that [ComputeNumBits] produces satisfy the three constraints (enough bits
    for each value, neighbours differing by at most one, first width at least
    the seed minus one), are pointwise below every integer sequence that
    satisfies them, and are the result of the forward pass followed by the
    backward pass as the spec words them. *)
Theorem ComputeNumBits_least_admissible (s : UintStream.t) :
  Forall Int32.is_uint (UintStream.buffer_ s) ->
  - Int32.half < UintStream.most_recent_num_bits_ s < Int32.half ->
  let mr := UintStream.most_recent_num_bits_ s in
  let vs := UintStream.buffer_ s in
  let w := UintStream.ComputeNumBits s in
  admissible mr vs w /\
  (forall u, admissible mr vs u ->
             forall i, (i < length vs)%nat -> nth i w 0 <= nth i u 0) /\
  w = spec_widths mr vs.
Proof.
  intros Hb Hmr mr vs w. subst w. rewrite ComputeNumBits_plan by assumption.
  fold mr vs. split; [apply plan_admissible|]. split.
  - intros u Hu. apply plan_least, Hu.
  - apply plan_spec_widths.
Qed.

Lemma ComputeNumBits_least_admissible_witness :
  let s := UintStream.mk [7; 0; 0; 7] 3 BitStream.empty true false 0 in
  UintStream.ComputeNumBits s = [3; 2; 2; 3] /\
  admissible 3 [7; 0; 0; 7] (UintStream.ComputeNumBits s).
Proof.
  split; [reflexivity|].
  apply (ComputeNumBits_least_admissible
           (UintStream.mk [7; 0; 0; 7] 3 BitStream.empty true false 0)).
  - repeat constructor; vm_compute; intuition discriminate.
  - vm_compute. split; reflexivity.
Defined.

(** ** The signed wrappers *)

Ltac unfold_int32 :=
  unfold Int32.sub, Int32.add, Int32.neg, Int32.mul, Int32.uadd,
         Int32.to_int, Int32.to_uint, Int32.is_int, Int32.is_uint in *;
  rewrite ?half_eq, ?modulus_eq in *.

Lemma zigzag_value s : Int32.is_int s ->
  IntStream.zigzag s = if 0 <=? s then 2 * s else - (2 * s) - 1.
Proof.
  intros H. unfold IntStream.zigzag.
  destruct (0 <=? s) eqn:E; [apply Z.leb_le in E | apply Z.leb_gt in E];
    unfold_int32; Z.div_mod_to_equations; lia.
Qed.

Lemma zigzag_is_uint s : Int32.is_int s -> Int32.is_uint (IntStream.zigzag s).
Proof.
  intros H. rewrite zigzag_value by assumption.
  destruct (0 <=? s) eqn:E; [apply Z.leb_le in E | apply Z.leb_gt in E]; int_range.
Qed.

Lemma unzigzag_zigzag s : Int32.is_int s ->
  ReverseIntStream.unzigzag (IntStream.zigzag s) = s.
Proof.
  intros H. rewrite zigzag_value by assumption. unfold ReverseIntStream.unzigzag.
  destruct (0 <=? s) eqn:E; [apply Z.leb_le in E | apply Z.leb_gt in E].
  - replace (2 * s) with (s * 2) by lia.
    rewrite Z.mod_mul, Z.div_mul by lia. simpl. now apply to_int_id.
  - replace (- (2 * s) - 1) with (1 + (- s - 1) * 2) by lia.
    rewrite Z.mod_add, Z.div_add by lia. simpl.
    unfold_int32. Z.div_mod_to_equations. lia.
Qed.

(** ** The scenarios of the spec on concrete inputs *)

(** C9, as the spec states it, fails: the byte that encodes [5] is not 0x0B. *)
Lemma encode_5_not_0x0B : encode [5] <> Ok [11].
Proof. vm_compute. discriminate. Qed.

(** C9, amended: encoding the single value [5] makes one call of [WriteCode],
    with widths 3, 3, 3, and produces exactly 8 bits: the 5-bit prelude
    holding 3, the 1-bit stay code, and 2 value bits holding the low 2 bits
    of 5 (the top bit is elided); with the first bit written at bit position
    0 the output is the single byte 0b01000011 = 0x43. *)
Theorem encode_5 :
  encode_calls [5] = [(3, 3, 3, 5)] /\
  top_bit_redundant 3 3 3 = true /\
  exists s, encode_state [5] = Ok s /\
            UintStream.bit_stream_ s =
              field_bits 5 3 ++ field_bits 1 0 ++ field_bits 2 (5 mod 4) /\
            length (UintStream.bit_stream_ s) = 8%nat /\
            UintStream.Code s = Ok [67] /\
            bits_value (UintStream.bit_stream_ s) = 67 /\
            67 = 0x43.
Proof.
  split; [vm_compute; reflexivity|]. split; [reflexivity|].
  eexists. split; [vm_compute; reflexivity|]. repeat split.
Qed.

(** C5, as the spec states it, fails: the widths planned for [1, 0, 1] are
    not [1, 1, 1]. *)
Lemma plan_1_0_1_not_1_1_1 :
  exists s, write_all [1; 0; 1] UintStream.init = Ok s /\
            UintStream.ComputeNumBits s <> [1; 1; 1].
Proof. eexists. split; [vm_compute; reflexivity|]. vm_compute. discriminate. Qed.

(** C5, amended: for the input [1, 0, 1] the planner produces [1, 0, 1] (a
    drop from 1 to 0 and back is within the slope bound); the middle symbol
    has width 0, so [WriteCode] writes no bit for it and counts one pending
    zero; the run of length 1 is written as the one-bit zero-run code before
    the codes of the third symbol.  The stream is: prelude 1 in 5 bits, the
    down code, the zero-run code, the stay code, and zero padding. *)
Theorem encode_1_0_1 :
  (exists s, write_all [1; 0; 1] UintStream.init = Ok s /\
             UintStream.ComputeNumBits s = [1; 0; 1]) /\
  encode_calls [1; 0; 1] = [(1, 1, 0, 1); (1, 0, 1, 0); (0, 1, 1, 1)] /\
  (forall s, UintStream.WriteCode 1 0 1 0 s =
             Ok (UintStream.mk (UintStream.buffer_ s)
                   (UintStream.most_recent_num_bits_ s) (UintStream.bit_stream_ s)
                   (UintStream.started_ s) (UintStream.flushed_ s)
                   (Int32.uadd (UintStream.num_pending_zeros_ s) 1))) /\
  exists s, encode_state [1; 0; 1] = Ok s /\
            UintStream.bit_stream_ s =
              BitStream.Flush
                (field_bits 5 1 ++ field_bits 2 1
                 ++ (field_bits 1 1 ++ field_bits 0 0)
                 ++ field_bits 1 0).
Proof.
  split.
  { eexists. split; [vm_compute; reflexivity|]. vm_compute. reflexivity. }
  split; [vm_compute; reflexivity|].
  split; [intros s; unfold UintStream.WriteCode; reflexivity|].
  eexists. split; [vm_compute; reflexivity|]. vm_compute. reflexivity.
Qed.

(** C4 fails on the byte range [0x80]: after the prelude (width 0) the three
    remaining bits are the unary part 0, 0, 1 of a zero-run code that
    announces a 2-bit field, and the buffer ends there.  The read of the
    field fails, [Read] does not look at what it returns, and the call
    returns [true] with the value 0 whatever the local [x] holds. *)
Theorem Read_ignores_truncated_run_field :
  exists s, ReverseUintStream.make [-128] = inr s /\
    (exists r, ReverseUintStream.read_zeros 33 0 (ReverseUintStream.bit_reader_ s)
               = Some (2, r) /\
               ReverseBitStream.Read 2 r = None) /\
    forall x_uninit, exists s',
      ReverseUintStream.Read x_uninit s = Some (0, s').
Proof.
  eexists. split; [vm_compute; reflexivity|]. split.
  - eexists. split; vm_compute; reflexivity.
  - intros x.
    assert (Hz : ReverseUintStream.read_zeros 33 0 [false; false; true] = Some (2, []))
      by (vm_compute; reflexivity).
    eexists. unfold ReverseUintStream.Read, ReverseUintStream.read_next_num_bits.
    cbn [ReverseUintStream.bit_reader_ ReverseUintStream.prev_num_bits_
         ReverseUintStream.cur_num_bits_ ReverseUintStream.zero_runlength_].
    change (negb (0 =? 0)) with false. change (0 <=? -1) with false.
    cbv iota. rewrite Hz.
    change (ReverseBitStream.Read 2 []) with (@None (Z * ReverseBitStream.t)).
    cbv beta iota zeta. unfold top_bit_redundant.
    change (0 <? 0) with false. rewrite andb_false_r. reflexivity.
Qed.

(** ** Bit fields *)

Lemma field_bits_length n v : length (field_bits n v) = Z.to_nat n.
Proof. unfold field_bits. now rewrite length_map, length_seq. Qed.

Lemma field_bits_0 v : field_bits 0 v = [].
Proof. reflexivity. Qed.

Lemma field_bits_ext n v w :
  (forall j, 0 <= j < n -> Z.testbit v j = Z.testbit w j) ->
  field_bits n v = field_bits n w.
Proof.
  intros H. unfold field_bits. apply map_ext_in. intros a Ha.
  apply in_seq in Ha. apply H. lia.
Qed.

Lemma field_bits_mod n v : 0 <= n -> field_bits n (v mod 2 ^ n) = field_bits n v.
Proof.
  intros Hn. apply field_bits_ext. intros j Hj.
  apply Z.mod_pow2_bits_low. lia.
Qed.

Lemma field_bits_succ n v : 0 <= n ->
  field_bits (n + 1) v = Z.odd v :: field_bits n (Z.div2 v).
Proof.
  intros Hn. unfold field_bits.
  replace (Z.to_nat (n + 1)) with (S (Z.to_nat n)) by lia.
  cbn [seq map]. rewrite <- seq_shift, map_map.
  change (Z.of_nat 0) with 0. rewrite Z.bit0_odd. f_equal.
  apply map_ext. intros a. rewrite Z.div2_spec, Z.shiftr_spec by lia.
  f_equal. lia.
Qed.

Lemma bits_value_field n : 0 <= n -> forall v, bits_value (field_bits n v) = v mod 2 ^ n.
Proof.
  intros Hn. pattern n. apply natlike_ind; [| |exact Hn]; clear n Hn.
  - intros v. simpl. now rewrite Z.mod_1_r.
  - intros n Hn IH v. replace (Z.succ n) with (n + 1) by lia.
    rewrite field_bits_succ by assumption. cbn [bits_value]. rewrite IH.
    rewrite Z.pow_add_r by lia. change (2 ^ 1) with 2.
    rewrite (Z.mul_comm (2 ^ n) 2), Z.rem_mul_r by lia.
    rewrite Z.div2_div. rewrite <- Z.bit0_mod, Z.bit0_odd. reflexivity.
Qed.

Lemma Read_field n v rest : 0 <= n ->
  ReverseBitStream.Read n (field_bits n v ++ rest) = Some (v mod 2 ^ n, rest).
Proof.
  intros Hn. unfold ReverseBitStream.Read.
  assert (Hl : length (field_bits n v) = Z.to_nat n) by apply field_bits_length.
  rewrite length_app, Hl.
  destruct (Nat.leb_spec (Z.to_nat n) (Z.to_nat n + length rest)); [|lia].
  rewrite <- Hl at 1. rewrite firstn_app, Nat.sub_diag, firstn_all. simpl.
  rewrite app_nil_r, bits_value_field by assumption.
  rewrite <- Hl. rewrite skipn_app, Nat.sub_diag, skipn_all. reflexivity.
Qed.

Lemma Read_0 r : ReverseBitStream.Read 0 r = Some (0, r).
Proof. reflexivity. Qed.

(** ** What [WriteCode] writes *)

Lemma pow2_bounds h : 0 <= h <= 31 -> 1 <= 2 ^ h <= 2147483648.
Proof.
  intros H. split.
  - change 1 with (2 ^ 0). apply Z.pow_le_mono_r; lia.
  - change 2147483648 with (2 ^ 31). apply Z.pow_le_mono_r; lia.
Qed.

Lemma shl1_uint h : 0 <= h <= 31 -> Int32.to_uint (Int32.shl1 h) = 2 ^ h.
Proof.
  intros H. unfold Int32.shl1. rewrite Z.shiftl_1_l.
  pose proof (pow2_bounds h H). unfold_int32. Z.div_mod_to_equations. lia.
Qed.

Lemma shl1_sub1_uint h : 0 <= h <= 31 ->
  Int32.to_uint (Int32.sub (Int32.shl1 h) 1) = 2 ^ h - 1.
Proof.
  intros H. unfold Int32.shl1. rewrite Z.shiftl_1_l.
  pose proof (pow2_bounds h H). unfold_int32. Z.div_mod_to_equations. lia.
Qed.

Lemma land_low_mask k h : 0 <= h -> Z.land k (2 ^ h - 1) = k mod 2 ^ h.
Proof.
  intros H. rewrite <- Z.land_ones by assumption. f_equal.
  rewrite Z.ones_equiv. lia.
Qed.

Lemma num_bits_pos k : 1 <= k -> 1 <= int_math.num_bits k.
Proof.
  intros H. unfold int_math.num_bits. destruct (0 <? k) eqn:E.
  - pose proof (Z.log2_nonneg k). lia.
  - apply Z.ltb_ge in E. lia.
Qed.

Lemma FlushPendingZeros_ok s :
  1 <= UintStream.num_pending_zeros_ s < Int32.modulus ->
  UintStream.FlushPendingZeros s =
  Ok (set_output s
        (UintStream.bit_stream_ s ++ zero_run_bits (UintStream.num_pending_zeros_ s)) 0).
Proof.
  intros Hk. unfold UintStream.FlushPendingZeros.
  set (k := UintStream.num_pending_zeros_ s) in *.
  assert (Hnb : 1 <= int_math.num_bits k <= 32).
  { split; [apply num_bits_pos; lia|]. apply num_bits_uint. int_range. }
  destruct (Z.leb_spec 1 k) as [_|]; [|lia]. cbn [assert bind].
  rewrite sub_exact by int_range. rewrite add_exact by int_range.
  rewrite shl1_uint, shl1_sub1_uint, land_low_mask by lia.
  unfold BitStream.Write, set_output, zero_run_bits. rewrite <- app_assoc. reflexivity.
Qed.

Lemma emit_app cs1 : forall cs2 pending,
  emit pending (cs1 ++ cs2) =
  (fst (emit pending cs1) ++ fst (emit (snd (emit pending cs1)) cs2),
   snd (emit (snd (emit pending cs1)) cs2)).
Proof.
  induction cs1 as [|[[[p c] n] i] cs1 IH]; intros cs2 pending.
  - simpl. now destruct (emit pending cs2).
  - cbn [emit app]. destruct (c =? 0).
    + apply IH.
    + rewrite (IH cs2 0). destruct (emit 0 cs1) as [b1 p1]. cbn [fst snd].
      now rewrite <- !app_assoc.
Qed.

Lemma emit_pending_range cs : forall pending,
  0 <= pending < Int32.modulus -> 0 <= snd (emit pending cs) < Int32.modulus.
Proof.
  induction cs as [|[[[p c] n] i] cs IH]; intros pending H; cbn [emit].
  - exact H.
  - destruct (c =? 0).
    + apply IH. unfold Int32.uadd, Int32.to_uint. apply Z.mod_pos_bound. reflexivity.
    + specialize (IH 0 ltac:(int_range)). now destruct (emit 0 cs).
Qed.

Lemma land_top_bit i c : 0 < c -> int_math.num_bits i = c ->
  (Z.land i (2 ^ (c - 1)) =? 0) = false.
Proof.
  intros Hc Hnb. apply Z.eqb_neq. intros H0.
  assert (Hi : 0 < i).
  { unfold int_math.num_bits in Hnb. destruct (0 <? i) eqn:E; [now apply Z.ltb_lt|lia]. }
  pose proof (num_bits_top_bit i Hi) as Ht. rewrite Hnb in Ht.
  assert (Hb : Z.testbit (Z.land i (2 ^ (c - 1))) (c - 1) = true).
  { rewrite Z.land_spec, Ht, Z.pow2_bits_true by lia. reflexivity. }
  rewrite H0, Z.bits_0 in Hb. discriminate.
Qed.

Lemma field_bits_lxor_top c i : 0 < c ->
  field_bits (c - 1) (Z.lxor i (2 ^ (c - 1))) = field_bits (c - 1) i.
Proof.
  intros Hc. apply field_bits_ext. intros j Hj.
  rewrite Z.lxor_spec, Z.pow2_bits_false by lia. apply xorb_false_r.
Qed.

Lemma WriteCode_ok prev cur next i s :
  good_call (prev, cur, next, i) ->
  0 <= UintStream.num_pending_zeros_ s < Int32.modulus ->
  UintStream.WriteCode prev cur next i s =
  Ok (set_output s
        (UintStream.bit_stream_ s
           ++ fst (emit (UintStream.num_pending_zeros_ s) [(prev, cur, next, i)]))
        (snd (emit (UintStream.num_pending_zeros_ s) [(prev, cur, next, i)]))).
Proof.
  intros (Hc & Hn & Hd & Hi & Hfit & Htop) Hp.
  unfold UintStream.WriteCode. cbn [emit].
  destruct (cur =? 0) eqn:Ec.
  - cbn [fst snd]. now rewrite app_nil_r.
  - apply Z.eqb_neq in Ec. cbn [fst snd].
    assert (Hpre : (if UintStream.num_pending_zeros_ s =? 0 then Ok s
                    else UintStream.FlushPendingZeros s) =
                   Ok (set_output s
                         (UintStream.bit_stream_ s
                            ++ pending_bits (UintStream.num_pending_zeros_ s)) 0)).
    { unfold pending_bits. destruct (UintStream.num_pending_zeros_ s =? 0) eqn:E0.
      - apply Z.eqb_eq in E0. rewrite app_nil_r. unfold set_output.
        rewrite <- E0. now destruct s.
      - apply Z.eqb_neq in E0. apply FlushPendingZeros_ok. lia. }
    rewrite Hpre. cbn [bind]. clear Hpre.
    destruct (Z.leb_spec (int_math.num_bits i) cur) as [_|]; [|lia].
    cbn [assert bind]. rewrite !sub_exact by int_range.
    rewrite shl1_uint by lia.
    set (b0 := UintStream.bit_stream_ s ++ pending_bits (UintStream.num_pending_zeros_ s)).
    assert (Hdelta :
      (if next - cur =? 1 then Ok (BitStream.Write 2 3 (UintStream.bit_stream_ (set_output s b0 0)))
       else if next - cur =? -1 then Ok (BitStream.Write 2 1 (UintStream.bit_stream_ (set_output s b0 0)))
       else bind (assert (next - cur =? 0) AssertDeltaZero)
                 (fun _ => Ok (BitStream.Write 1 0 (UintStream.bit_stream_ (set_output s b0 0)))))
      = Ok (b0 ++ delta_bits cur next)).
    { unfold delta_bits, BitStream.Write. cbn [set_output UintStream.bit_stream_].
      destruct (next - cur =? 1) eqn:E1; [reflexivity|].
      destruct (next - cur =? -1) eqn:E2; [reflexivity|].
      apply Z.eqb_neq in E1, E2.
      destruct (Z.eqb_spec (next - cur) 0); [reflexivity | lia]. }
    rewrite Hdelta. cbn [bind]. clear Hdelta.
    unfold value_bits, UintStream.with_bit_stream, BitStream.Write, set_output.
    cbn [UintStream.buffer_ UintStream.most_recent_num_bits_ UintStream.started_
         UintStream.flushed_ UintStream.num_pending_zeros_].
    destruct (top_bit_redundant prev cur next) eqn:Et; cbn [negb].
    + rewrite land_top_bit by (try apply Htop; lia || reflexivity).
      cbn [negb assert bind]. rewrite field_bits_lxor_top by lia.
      subst b0. now rewrite app_nil_r, <- !app_assoc.
    + subst b0. now rewrite app_nil_r, <- !app_assoc.
Qed.

Lemma write_codes_ok cs : forall s,
  Forall good_call cs ->
  0 <= UintStream.num_pending_zeros_ s < Int32.modulus ->
  write_codes cs s =
  Ok (set_output s
        (UintStream.bit_stream_ s ++ fst (emit (UintStream.num_pending_zeros_ s) cs))
        (snd (emit (UintStream.num_pending_zeros_ s) cs))).
Proof.
  induction cs as [|[[[p c] n] i] cs IH]; intros s Hg Hp.
  - cbn [write_codes emit fst snd]. rewrite app_nil_r. unfold set_output. now destruct s.
  - inversion Hg as [|? ? Hg1 Hg2]; subst. cbn [write_codes].
    rewrite WriteCode_ok by assumption. cbn [bind].
    rewrite IH; [|assumption|].
    + change ((p, c, n, i) :: cs) with ([(p, c, n, i)] ++ cs).
      rewrite (emit_app [(p, c, n, i)] cs). cbn [fst snd].
      unfold set_output. cbn [UintStream.buffer_ UintStream.most_recent_num_bits_
        UintStream.started_ UintStream.flushed_ UintStream.num_pending_zeros_
        UintStream.bit_stream_]. now rewrite <- app_assoc.
    + cbn [set_output UintStream.num_pending_zeros_]. now apply emit_pending_range.
Qed.

(** ** The loop of [FlushSome] and its calls *)

Lemma FlushPendingZeros_buffer s s' :
  UintStream.FlushPendingZeros s = Ok s' ->
  UintStream.buffer_ s' = UintStream.buffer_ s.
Proof.
  unfold UintStream.FlushPendingZeros.
  destruct (1 <=? UintStream.num_pending_zeros_ s); cbn [assert bind]; [|discriminate].
  intros H. injection H as <-. reflexivity.
Qed.

Lemma WriteCode_buffer prev cur next i s s' :
  UintStream.WriteCode prev cur next i s = Ok s' ->
  UintStream.buffer_ s' = UintStream.buffer_ s.
Proof.
  unfold UintStream.WriteCode. destruct (cur =? 0).
  { intros H. injection H as <-. reflexivity. }
  destruct (if UintStream.num_pending_zeros_ s =? 0 then Ok s
            else UintStream.FlushPendingZeros s) as [s1|] eqn:E1; cbn [bind];
    [|discriminate].
  assert (Hb : UintStream.buffer_ s1 = UintStream.buffer_ s).
  { destruct (UintStream.num_pending_zeros_ s =? 0).
    - injection E1 as <-. reflexivity.
    - now apply FlushPendingZeros_buffer. }
  destruct (assert _ AssertNumBitsFit); cbn [bind]; [|discriminate].
  match goal with |- bind ?m _ = _ -> _ => destruct m as [b|] end;
    cbn [bind]; [|discriminate].
  destruct (negb _).
  - intros H. injection H as <-. exact Hb.
  - destruct (assert _ AssertTopBitSet); cbn [bind]; [|discriminate].
    intros H. injection H as <-. exact Hb.
Qed.

Lemma flush_loop_calls num_bits : forall left i prev cur s,
  UintStream.flush_loop left i num_bits prev cur s =
  write_codes (loop_calls left i num_bits (UintStream.buffer_ s) prev cur) s.
Proof.
  induction left as [|left IH]; intros i prev cur s; [reflexivity|].
  cbn [UintStream.flush_loop loop_calls write_codes].
  destruct (UintStream.WriteCode prev cur (nth (i + 1) num_bits 0)
              (nth i (UintStream.buffer_ s) 0) s) as [s'|f] eqn:E; cbn [bind];
    [|reflexivity].
  rewrite IH. now rewrite (WriteCode_buffer _ _ _ _ _ _ E).
Qed.

Lemma loop_calls_Forall (P : call -> Prop) num_bits buffer prev0 :
  forall left i,
  (forall k, (i <= k < i + left)%nat ->
     P (width_before prev0 num_bits k, nth k num_bits 0,
        nth (k + 1) num_bits 0, nth k buffer 0)) ->
  Forall P (loop_calls left i num_bits buffer
              (width_before prev0 num_bits i) (nth i num_bits 0)).
Proof.
  induction left as [|left IH]; intros i H; cbn [loop_calls]; constructor.
  - apply H. lia.
  - replace (i + 1)%nat with (S i) by lia.
    change (nth i num_bits 0) with (width_before prev0 num_bits (S i)) at 1.
    apply IH. intros k Hk. apply H. lia.
Qed.

Lemma loop_calls_length num_bits buffer : forall left i prev cur,
  length (loop_calls left i num_bits buffer prev cur) = left.
Proof.
  induction left as [|left IH]; intros; cbn [loop_calls length]; [reflexivity|].
  now rewrite IH.
Qed.

(** ** Bounds and tightness of the planned widths *)

Lemma plan_bounds mr vs : Forall Int32.is_uint vs -> mr <= 33 ->
  Forall (fun w => 0 <= w <= 32) (plan mr vs).
Proof.
  intros Hv Hmr. unfold plan. apply hd_bwd_bounds; [|lia].
  apply fwd_bounds; [|lia]. apply Forall_map.
  eapply Forall_impl; [|exact Hv]. intros a Ha. now apply num_bits_uint.
Qed.

Lemma plan_nth_bounds mr vs k : Forall Int32.is_uint vs -> mr <= 33 ->
  (k < length vs)%nat -> 0 <= nth k (plan mr vs) 0 <= 32.
Proof.
  intros Hv Hmr Hk. pose proof (plan_bounds mr vs Hv Hmr) as H.
  rewrite Forall_forall in H. apply H, nth_In. now rewrite plan_length.
Qed.

Lemma plan_tight mr vs k : (k < length vs)%nat ->
  nth k (plan mr vs) 0 = int_math.num_bits (nth k vs 0) \/
  nth k (plan mr vs) 0 = width_before mr (plan mr vs) k - 1 \/
  ((S k < length vs)%nat /\ nth k (plan mr vs) 0 = nth (S k) (plan mr vs) 0 - 1).
Proof.
  intros Hk.
  set (F := fwd mr (map int_math.num_bits vs)).
  assert (HW : nth k (plan mr vs) 0 = nth k F 0 \/
               ((S k < length vs)%nat /\
                nth k (plan mr vs) 0 = nth (S k) (plan mr vs) 0 - 1)).
  { destruct (Nat.eq_dec (S k) (length vs)) as [E|E].
    - left. now apply plan_nth_last.
    - pose proof (plan_nth_step mr vs k ltac:(lia)). fold F in H. lia. }
  destruct HW as [HW|HW]; [|now right; right].
  rewrite HW. destruct k as [|j].
  - subst F. rewrite fwd_nth_0, nth_map_num_bits by (now rewrite length_map).
    cbn [width_before]. lia.
  - assert (HF : nth (S j) F 0 =
                 Z.max (int_math.num_bits (nth (S j) vs 0)) (nth j F 0 - 1)).
    { subst F. rewrite fwd_nth_S, nth_map_num_bits by (now rewrite length_map).
      reflexivity. }
    pose proof (plan_nth_step mr vs j ltac:(lia)) as Hj. fold F in Hj.
    cbn [width_before]. lia.
Qed.

(** ** Widths across a partial flush

    After [FlushSome(n)] on part of the buffer, the next [FlushSome] plans
    the rest of the buffer again, seeded with the width of the last symbol
    written and with more values behind it.  When at least 32 values were
    left behind, the first width of the new plan is the width that the old
    plan had at that place. *)

Lemma bwd_head_hd s l : hd s (bwd s l) = bwd_head s l.
Proof. induction l as [|x r IH]; cbn [bwd bwd_head hd]; [reflexivity|]. now rewrite IH. Qed.

Lemma bwd_app s l1 : forall l2,
  bwd s (l1 ++ l2) = bwd (bwd_head s l2) l1 ++ bwd s l2.
Proof.
  induction l1 as [|x l1 IH]; intros l2; cbn [app bwd]; [reflexivity|].
  rewrite IH. f_equal. f_equal. f_equal.
  destruct l1; cbn [bwd app hd]; [apply bwd_head_hd | reflexivity].
Qed.

Lemma bwd_head_app s l1 : forall l2,
  bwd_head s (l1 ++ l2) = bwd_head (bwd_head s l2) l1.
Proof.
  induction l1 as [|x l1 IH]; intros l2; cbn [app bwd_head]; [reflexivity|].
  now rewrite IH.
Qed.

Lemma last_cons_default (l : list Z) : forall x d, last (x :: l) d = last l x.
Proof.
  induction l as [|y l IH]; intros x d; [reflexivity|].
  change (last (x :: y :: l) d) with (last (y :: l) d).
  now rewrite (IH y d), (IH y x).
Qed.

Lemma fwd_app l1 : forall p l2,
  fwd p (l1 ++ l2) = fwd p l1 ++ fwd (last (fwd p l1) p) l2.
Proof.
  induction l1 as [|x l1 IH]; intros p l2; cbn [app fwd]; [reflexivity|].
  rewrite IH. f_equal. f_equal. now rewrite last_cons_default.
Qed.

Lemma bwd_last s l x :
  last (bwd s (l ++ [x])) 0 = Z.max x (s - 1).
Proof.
  rewrite bwd_app. cbn [bwd bwd_head hd]. now rewrite last_last.
Qed.

Lemma bwd_head_mono_seed l : forall s t, s <= t -> bwd_head s l <= bwd_head t l.
Proof.
  induction l as [|x l IH]; intros s t H; cbn [bwd_head]; [exact H|].
  specialize (IH s t H). lia.
Qed.

Lemma bwd_head_seed_far l : forall s,
  bwd_head s l <= Z.max (bwd_head 0 l) (s - Z.of_nat (length l)).
Proof.
  induction l as [|x l IH]; intros s; cbn [bwd_head length].
  - lia.
  - specialize (IH s). lia.
Qed.

Lemma bwd_head_ge_hd s x l : x <= bwd_head s (x :: l).
Proof. cbn [bwd_head]. lia. Qed.

(** a seed of at most 32 does not reach across 32 elements *)
Lemma bwd_head_seed_irrelevant s l :
  0 <= s <= 32 -> (32 <= length l)%nat -> Forall (fun x => 0 <= x) l ->
  bwd_head s l = bwd_head 0 l.
Proof.
  intros Hs Hl Hpos.
  pose proof (bwd_head_mono_seed l 0 s ltac:(lia)).
  pose proof (bwd_head_seed_far l s).
  assert (0 <= bwd_head 0 l).
  { destruct l as [|x l]; [simpl in Hl; lia|].
    inversion Hpos; subst. pose proof (bwd_head_ge_hd 0 x l). lia. }
  lia.
Qed.

Lemma bwd_head_fwd_mono s l : forall p q, q <= p ->
  bwd_head s (fwd q l) <= bwd_head s (fwd p l) <=
  Z.max (bwd_head s (fwd q l)) (p - 1).
Proof.
  induction l as [|x l IH]; intros p q H; cbn [fwd bwd_head]; [lia|].
  specialize (IH (Z.max x (p - 1)) (Z.max x (q - 1)) ltac:(lia)). lia.
Qed.

Lemma fwd_nonneg l : Forall (fun x => 0 <= x) l ->
  forall p, Forall (fun x => 0 <= x) (fwd p l).
Proof.
  induction 1 as [|x l Hx Hl IH]; intros p; cbn [fwd]; constructor; [lia|apply IH].
Qed.

Lemma map_num_bits_bounds vs : Forall Int32.is_uint vs ->
  Forall (fun x => 0 <= x <= 32) (map int_math.num_bits vs).
Proof.
  intros H. apply Forall_map. eapply Forall_impl; [|exact H].
  intros a Ha. now apply num_bits_uint.
Qed.

Lemma bwd_head_fwd_ge s f l : (0 < length l)%nat -> f - 1 <= bwd_head s (fwd f l).
Proof.
  destruct l as [|y l]; cbn [length fwd]; [lia|]. intros _.
  pose proof (bwd_head_ge_hd s (Z.max y (f - 1)) (fwd (Z.max y (f - 1)) l)). lia.
Qed.

Lemma plan_resume mr b1 x b2 ext :
  Forall Int32.is_uint (b1 ++ [x]) -> Forall Int32.is_uint b2 ->
  Forall Int32.is_uint ext -> mr <= 33 -> (32 <= length b2)%nat ->
  let W := plan mr ((b1 ++ [x]) ++ b2) in
  hd 0 (plan (nth (length b1) W 0) (b2 ++ ext)) = nth (S (length b1)) W 0.
Proof.
  intros H1 H2 He Hmr Hlen W. subst W. unfold plan.
  rewrite !map_app, !fwd_app.
  set (n1 := map int_math.num_bits b1). set (nx := int_math.num_bits x).
  set (n2 := map int_math.num_bits b2). set (e := map int_math.num_bits ext).
  cbn [map]. fold nx.
  set (p1 := last (fwd mr n1) mr). cbn [fwd]. set (f := Z.max nx (p1 - 1)).
  rewrite last_last. change (last [f] p1) with f.
  set (F2 := fwd f n2).
  (* the old plan around the boundary *)
  rewrite <- app_assoc. rewrite (bwd_app 0 (fwd mr n1)), (bwd_app 0 [f]).
  assert (Hl1 : length (bwd (bwd_head 0 ([f] ++ F2)) (fwd mr n1)) = length b1).
  { rewrite bwd_length, fwd_length. subst n1. now rewrite length_map. }
  set (A := bwd_head 0 F2).
  set (X := bwd (bwd_head 0 ([f] ++ F2)) (fwd mr n1)) in *.
  assert (HA : nth 0 (bwd 0 F2) 0 = A).
  { subst A. rewrite <- bwd_head_hd. destruct (bwd 0 F2); reflexivity. }
  assert (HW1 : nth (length b1) (X ++ bwd A [f] ++ bwd 0 F2) 0 = Z.max f (A - 1)).
  { rewrite app_nth2 by lia. rewrite Hl1, Nat.sub_diag. reflexivity. }
  assert (HW2 : nth (S (length b1)) (X ++ bwd A [f] ++ bwd 0 F2) 0 = A).
  { rewrite app_nth2 by lia. rewrite Hl1.
    replace (S (length b1) - length b1)%nat with 1%nat by lia. exact HA. }
  rewrite HW1, HW2. clear HW1 HW2.
  (* the new plan *)
  set (m := Z.max f (A - 1)).
  set (G := fwd m n2). set (E := fwd (last G m) e).
  rewrite bwd_head_hd, bwd_head_app.
  assert (Hn2 : Forall (fun x => 0 <= x <= 32) n2) by (apply map_num_bits_bounds, H2).
  assert (Hne : Forall (fun x => 0 <= x <= 32) e) by (apply map_num_bits_bounds, He).
  assert (Hnx : 0 <= nx <= 32).
  { apply num_bits_uint. apply Forall_app in H1 as [_ H1]. now inversion H1. }
  assert (Hp1 : p1 <= 33).
  { subst p1. assert (Hf1 : Forall (fun x => 0 <= x <= 32) (fwd mr n1)).
    { apply fwd_bounds; [|lia]. apply map_num_bits_bounds.
      now apply Forall_app in H1 as [H1 _]. }
    destruct (fwd mr n1) as [|a l] eqn:El using rev_ind; [simpl; lia|].
    rewrite last_last. apply Forall_app in Hf1 as [_ Hf1]. inversion Hf1; subst. lia. }
  assert (HF2 : Forall (fun x => 0 <= x <= 32) F2) by (apply fwd_bounds; [assumption|lia]).
  assert (HAb : 0 <= A <= 32) by (apply hd_bwd_bounds with (s := 0) in HF2 as [_ HF2];
                                   [rewrite bwd_head_hd in HF2; exact HF2 | lia]).
  assert (HG : Forall (fun x => 0 <= x <= 32) G) by (apply fwd_bounds; [assumption|lia]).
  assert (HE : Forall (fun x => 0 <= x <= 32) E).
  { apply fwd_bounds; [assumption|].
    destruct G as [|a l] eqn:EG using rev_ind; [simpl; lia|].
    rewrite last_last. apply Forall_app in HG as [_ HG]. inversion HG; subst. lia. }
  assert (HsE : 0 <= bwd_head 0 E <= 32).
  { apply hd_bwd_bounds with (s := 0) in HE as [_ HE];
      [rewrite bwd_head_hd in HE; exact HE | lia]. }
  rewrite bwd_head_seed_irrelevant;
    [| assumption | subst G n2; now rewrite fwd_length, length_map
     | eapply Forall_impl; [|exact HG]; cbv beta; intros; lia].
  pose proof (bwd_head_fwd_mono 0 n2 m f ltac:(lia)) as Hm. fold G F2 A in Hm.
  pose proof (bwd_head_fwd_ge 0 f n2
                ltac:(subst n2; rewrite length_map; lia)) as Hf.
  fold F2 A in Hf. lia.
Qed.

(** ** Chains *)

Lemma chain_app cs1 : forall st cs2,
  chain st (cs1 ++ cs2) <-> chain st cs1 /\ chain (chain_end st cs1) cs2.
Proof.
  induction cs1 as [|[[[p c] n] i] cs1 IH]; intros st cs2; cbn [app chain chain_end].
  - tauto.
  - rewrite IH. tauto.
Qed.

Lemma chain_end_app cs1 : forall st cs2,
  chain_end st (cs1 ++ cs2) = chain_end (chain_end st cs1) cs2.
Proof.
  induction cs1 as [|[[[p c] n] i] cs1 IH]; intros st cs2; cbn [app chain_end];
    [reflexivity | apply IH].
Qed.

Lemma loop_calls_chain num_bits buffer : forall left i prev cur,
  chain (prev, cur) (loop_calls left i num_bits buffer prev cur).
Proof.
  induction left as [|left IH]; intros i prev cur; cbn [loop_calls chain]; [exact I|].
  split; [reflexivity | apply IH].
Qed.

Lemma loop_calls_chain_end num_bits buffer prev0 : forall left i,
  chain_end (width_before prev0 num_bits i, nth i num_bits 0)
    (loop_calls left i num_bits buffer
       (width_before prev0 num_bits i) (nth i num_bits 0)) =
  (width_before prev0 num_bits (i + left), nth (i + left) num_bits 0).
Proof.
  induction left as [|left IH]; intros i; cbn [loop_calls chain_end].
  - now rewrite Nat.add_0_r.
  - replace (i + 1)%nat with (S i) by lia.
    change (nth i num_bits 0) with (width_before prev0 num_bits (S i)) at 1.
    rewrite IH. now replace (S i + left)%nat with (i + S left)%nat by lia.
Qed.

Lemma loop_calls_values num_bits buffer : forall left i prev cur,
  (i + left <= length buffer)%nat ->
  map call_value (loop_calls left i num_bits buffer prev cur) =
  firstn left (skipn i buffer).
Proof.
  induction left as [|left IH]; intros i prev cur H; cbn [loop_calls map].
  - reflexivity.
  - rewrite IH by lia. unfold call_value at 1. cbn [snd].
    assert (Hs : skipn i buffer = nth i buffer 0 :: skipn (i + 1) buffer).
    { clear IH. revert i H. induction buffer as [|b buffer IHb]; intros i H.
      - simpl in H. lia.
      - destruct i as [|i]; [reflexivity|]. cbn [skipn nth Nat.add].
        apply IHb. simpl in H. lia. }
    rewrite Hs. reflexivity.
Qed.

(** ** The calls of one [FlushSome] are good calls *)

Lemma last_nth_pred (l : list Z) : last l 0 = nth (length l - 1) l 0.
Proof.
  induction l as [|x l IH]; [reflexivity|].
  destruct l as [|y l]; [reflexivity|].
  change (last (x :: y :: l) 0) with (last (y :: l) 0). rewrite IH.
  cbn [length]. replace (S (S (length l)) - 1)%nat with (S (S (length l) - 1)) by lia.
  reflexivity.
Qed.

Lemma flush_widths_nth whole ws k : (k < length ws)%nat ->
  nth k (flush_widths whole ws) 0 = nth k ws 0.
Proof.
  intros Hk. unfold flush_widths. destruct whole; [|reflexivity].
  now apply app_nth1.
Qed.

Lemma flush_widths_nth_next whole ws k : (k < length ws)%nat ->
  (whole = false -> (k + 1 < length ws)%nat) ->
  nth (k + 1) (flush_widths whole ws) 0 =
  if (k + 1 <? length ws)%nat then nth (k + 1) ws 0 else nth k ws 0.
Proof.
  intros Hk Hw. destruct (Nat.ltb_spec (k + 1) (length ws)) as [H|H].
  - now apply flush_widths_nth.
  - destruct whole; [|specialize (Hw eq_refl); lia]. unfold flush_widths.
    replace (k + 1)%nat with (length ws) by lia. rewrite nth_middle, last_nth_pred.
    f_equal. lia.
Qed.

Lemma width_before_flush prev0 whole ws k : (k <= length ws)%nat ->
  width_before prev0 (flush_widths whole ws) k = width_before prev0 ws k.
Proof.
  intros Hk. destruct k as [|j]; [reflexivity|]. cbn [width_before].
  apply flush_widths_nth. lia.
Qed.

Lemma flush_call_good mr buf n k prev0 :
  Forall Int32.is_uint buf -> 0 <= mr <= 32 -> (k < n <= length buf)%nat ->
  let ws := flush_widths (n =? length buf)%nat (plan mr buf) in
  prev0 = mr \/ (mr = 0 /\ prev0 = nth 0 ws 0) ->
  good_call (width_before prev0 ws k, nth k ws 0, nth (k + 1) ws 0, nth k buf 0).
Proof.
  intros Hb Hmr Hk ws Hprev. subst ws.
  set (W := plan mr buf) in *.
  assert (HlW : length W = length buf) by apply plan_length.
  rewrite width_before_flush by lia.
  rewrite flush_widths_nth in * by lia.
  rewrite flush_widths_nth_next;
    [| lia | intros E; apply Nat.eqb_neq in E; lia].
  rewrite HlW.
  pose proof (plan_nth_bounds mr buf k Hb ltac:(lia) ltac:(lia)) as Hck. fold W in Hck.
  destruct (plan_admissible mr buf) as (_ & Hnb & Hslope & _). fold W in Hnb, Hslope.
  specialize (Hnb k ltac:(lia)).
  assert (Hv : Int32.is_uint (nth k buf 0)).
  { rewrite Forall_forall in Hb. apply Hb, nth_In. lia. }
  assert (Hnext : (k + 1 < length buf)%nat ->
                  0 <= nth (k + 1) W 0 <= 32 /\
                  -1 <= nth (k + 1) W 0 - nth k W 0 <= 1).
  { intros H. split.
    - apply plan_nth_bounds; [assumption|lia|lia].
    - specialize (Hslope k ltac:(lia)). replace (k + 1)%nat with (S k) by lia. lia. }
  pose proof (plan_tight mr buf k ltac:(lia)) as Ht. fold W in Ht.
  unfold good_call.
  destruct (Nat.ltb_spec (k + 1) (length buf)) as [Hlt|Hge].
  - specialize (Hnext Hlt). repeat split; try lia; try (destruct Hv; lia).
    unfold top_bit_redundant. rewrite !andb_true_iff, !Z.leb_le, Z.ltb_lt.
    intros [[Hp Hn] Hc].
    destruct Ht as [Ht|[Ht|[_ Ht]]]; [lia| |replace (S k) with (k + 1)%nat in Ht by lia; lia].
    destruct k as [|j]; cbn [width_before] in *; [|lia].
    destruct Hprev as [->|[-> _]]; lia.
  - repeat split; try lia; try (destruct Hv; lia).
    unfold top_bit_redundant. rewrite !andb_true_iff, !Z.leb_le, Z.ltb_lt.
    intros [[Hp Hn] Hc].
    destruct Ht as [Ht|[Ht|[Ht _]]]; [lia| |lia].
    destruct k as [|j]; cbn [width_before] in *; [|lia].
    destruct Hprev as [->|[-> _]]; lia.
Qed.

(** ** One [FlushSome] *)

Lemma prelude_write w bits : 0 <= w <= 32 ->
  (let b := BitStream.Write 5 (if w =? 32 then 31 else w) bits in
   if 31 <=? w then BitStream.Write 1 (Int32.sub w 31) b else b) =
  bits ++ prelude_bits w.
Proof.
  intros Hw. unfold prelude_bits, BitStream.Write. cbv zeta.
  destruct (Z.leb_spec 31 w) as [H|H]; destruct (Z.ltb_spec w 31) as [H'|H']; try lia.
  - rewrite sub_exact by int_range. rewrite <- app_assoc. f_equal. f_equal.
    destruct (Z.eqb_spec w 32) as [->|Hne]; [reflexivity|].
    now replace w with 31 by lia.
  - destruct (Z.eqb_spec w 32); [lia | reflexivity].
Qed.

Lemma FlushSome_unfold n s :
  (1 <= n <= length (UintStream.buffer_ s))%nat ->
  UintStream.FlushSome n s =
  let ws := FlushSome_num_bits n s in
  let s0 :=
    if UintStream.started_ s then s else
      UintStream.mk (UintStream.buffer_ s) (nth 0 ws 0)
        (let b := BitStream.Write 5 (if nth 0 ws 0 =? 32 then 31 else nth 0 ws 0)
                    (UintStream.bit_stream_ s) in
         if 31 <=? nth 0 ws 0
         then BitStream.Write 1 (Int32.sub (nth 0 ws 0) 31) b else b)
        true (UintStream.flushed_ s) (UintStream.num_pending_zeros_ s) in
  bind (write_codes (FlushSome_calls n s) s0)
       (fun s2 => Ok (UintStream.mk (skipn n (UintStream.buffer_ s2))
                        (nth (n - 1) ws 0) (UintStream.bit_stream_ s2)
                        (UintStream.started_ s2) (UintStream.flushed_ s2)
                        (UintStream.num_pending_zeros_ s2))).
Proof.
  intros Hn. unfold UintStream.FlushSome, FlushSome_calls.
  destruct (Nat.leb_spec n (length (UintStream.buffer_ s))) as [_|]; [|lia].
  destruct (Nat.eqb_spec (length (UintStream.buffer_ s)) 0) as [|_]; [lia|].
  cbn [assert bind andb negb]. fold (FlushSome_num_bits n s).
  cbv zeta. set (ws := FlushSome_num_bits n s).
  rewrite flush_loop_calls.
  destruct n as [|m]; [lia|]. replace (S m - 1)%nat with m by lia.
  destruct (UintStream.started_ s); reflexivity.
Qed.

Lemma FlushSome_calls_plan n s :
  Forall Int32.is_uint (UintStream.buffer_ s) ->
  - Int32.half < UintStream.most_recent_num_bits_ s < Int32.half ->
  (1 <= n <= length (UintStream.buffer_ s))%nat ->
  let ws := flush_widths (n =? length (UintStream.buffer_ s))%nat
              (plan (UintStream.most_recent_num_bits_ s) (UintStream.buffer_ s)) in
  let prev0 := if UintStream.started_ s then UintStream.most_recent_num_bits_ s
               else nth 0 ws 0 in
  FlushSome_num_bits n s = ws /\
  FlushSome_calls n s =
  loop_calls n 0 ws (UintStream.buffer_ s) (width_before prev0 ws 0) (nth 0 ws 0).
Proof.
  intros Hb Hmr Hn ws prev0.
  assert (Hws : FlushSome_num_bits n s = ws).
  { unfold FlushSome_num_bits. rewrite ComputeNumBits_plan by assumption. reflexivity. }
  split; [exact Hws|]. unfold FlushSome_calls. rewrite Hws.
  destruct (Nat.leb_spec n (length (UintStream.buffer_ s))) as [_|]; [|lia].
  destruct (Nat.eqb_spec (length (UintStream.buffer_ s)) 0) as [|_]; [lia|].
  reflexivity.
Qed.

Lemma encoder_inv_mr written cs s :
  encoder_inv written cs s -> 0 <= UintStream.most_recent_num_bits_ s <= 32.
Proof.
  intros (_ & _ & _ & H). destruct (UintStream.started_ s).
  - destruct H as (w0 & ann & _ & _ & _ & _ & H & _). exact H.
  - destruct H as (_ & _ & _ & ->). lia.
Qed.

Lemma encoder_inv_pending written cs s :
  encoder_inv written cs s ->
  UintStream.num_pending_zeros_ s = snd (emit 0 cs) /\
  0 <= UintStream.num_pending_zeros_ s < Int32.modulus.
Proof.
  intros (_ & _ & _ & H). destruct (UintStream.started_ s).
  - destruct H as (w0 & ann & _ & _ & _ & _ & _ & _ & H & _). split; [exact H|].
    rewrite H. apply emit_pending_range. int_range.
  - destruct H as (-> & _ & -> & _). split; [reflexivity | int_range].
Qed.

Lemma nth_0_hd (l : list Z) : nth 0 l 0 = hd 0 l.
Proof. destruct l; reflexivity. Qed.

Lemma plan_resume_firstn mr buf n ext :
  Forall Int32.is_uint buf -> Forall Int32.is_uint ext -> mr <= 33 ->
  (1 <= n)%nat -> (32 <= length buf - n)%nat ->
  hd 0 (plan (nth (n - 1) (plan mr buf) 0) (skipn n buf ++ ext)) =
  nth n (plan mr buf) 0.
Proof.
  intros Hb He Hmr Hn Hrest.
  assert (Hf : firstn n buf <> []).
  { intros E. apply (f_equal (@length Z)) in E. rewrite length_firstn in E.
    simpl in E. lia. }
  pose proof (app_removelast_last 0 Hf) as Hsplit.
  set (b1 := removelast (firstn n buf)) in *. set (x := last (firstn n buf) 0) in *.
  assert (Hl1 : length b1 = (n - 1)%nat).
  { apply (f_equal (@length Z)) in Hsplit.
    rewrite length_firstn, length_app in Hsplit. simpl in Hsplit. lia. }
  assert (Hbuf : buf = (b1 ++ [x]) ++ skipn n buf).
  { rewrite <- Hsplit. symmetry. apply firstn_skipn. }
  assert (Hb' : Forall Int32.is_uint ((b1 ++ [x]) ++ skipn n buf)) by now rewrite <- Hbuf.
  apply Forall_app in Hb' as [Hb1 Hb2].
  pose proof (plan_resume mr b1 x (skipn n buf) ext Hb1 Hb2 He Hmr
                ltac:(rewrite length_skipn; lia)) as H.
  cbv zeta in H. rewrite <- Hbuf, Hl1 in H.
  now replace (S (n - 1)) with n in H by lia.
Qed.

Lemma FlushSome_step written cs s n :
  encoder_inv written cs s ->
  (1 <= n <= length (UintStream.buffer_ s))%nat ->
  (length (UintStream.buffer_ s) <= 64)%nat ->
  (n = length (UintStream.buffer_ s) \/ (32 <= length (UintStream.buffer_ s) - n)%nat) ->
  let new := FlushSome_calls n s in
  exists s1,
    UintStream.FlushSome n s = Ok s1 /\
    UintStream.flushed_ s1 = UintStream.flushed_ s /\
    UintStream.buffer_ s1 = skipn n (UintStream.buffer_ s) /\
    UintStream.started_ s1 = true /\
    Forall good_call (cs ++ new) /\
    map call_value new = firstn n (UintStream.buffer_ s) /\
    exists w0 ann,
      (0 <= w0 <= 32 /\ w0 = hd 0 (plan 0 (firstn 64 written))) /\
      (n = length (UintStream.buffer_ s) -> ann = UintStream.most_recent_num_bits_ s1) /\
      chain (w0, w0) (cs ++ new) /\
      chain_end (w0, w0) (cs ++ new) = (UintStream.most_recent_num_bits_ s1, ann) /\
      0 <= UintStream.most_recent_num_bits_ s1 <= 32 /\
      UintStream.bit_stream_ s1 = prelude_bits w0 ++ fst (emit 0 (cs ++ new)) /\
      UintStream.num_pending_zeros_ s1 = snd (emit 0 (cs ++ new)) /\
      ((n < length (UintStream.buffer_ s))%nat ->
       forall ext, Forall Int32.is_uint ext ->
         hd 0 (plan (UintStream.most_recent_num_bits_ s1)
                    (skipn n (UintStream.buffer_ s) ++ ext)) = ann).
Proof.
  intros Hinv Hn H64 Hrest new.
  pose proof (encoder_inv_mr _ _ _ Hinv) as Hmr.
  pose proof (encoder_inv_pending _ _ _ Hinv) as [Hnp Hnpr].
  destruct Hinv as (Hb & Hg & Hw & Hst).
  destruct (FlushSome_calls_plan n s Hb ltac:(int_range) Hn) as [Hws Hcalls].
  set (mr := UintStream.most_recent_num_bits_ s) in *.
  set (buf := UintStream.buffer_ s) in *.
  set (W := plan mr buf) in *.
  set (ws := flush_widths (n =? length buf)%nat W) in *.
  set (prev0 := if UintStream.started_ s then mr else nth 0 ws 0) in *.
  fold new in Hcalls.
  assert (HlW : length W = length buf) by apply plan_length.
  assert (Hprev : prev0 = mr \/ (mr = 0 /\ prev0 = nth 0 ws 0)).
  { subst prev0. destruct (UintStream.started_ s); [now left|].
    right. destruct Hst as (_ & _ & _ & H). now split. }
  assert (Hgood : Forall good_call new).
  { rewrite Hcalls. apply loop_calls_Forall. intros k Hk.
    apply flush_call_good; [assumption | assumption | lia | exact Hprev]. }
  assert (Hch : chain (prev0, nth 0 ws 0) new).
  { rewrite Hcalls. apply loop_calls_chain. }
  assert (Hend : chain_end (prev0, nth 0 ws 0) new = (nth (n - 1) ws 0, nth n ws 0)).
  { rewrite Hcalls. change prev0 with (width_before prev0 ws 0) at 1.
    rewrite loop_calls_chain_end. cbn [Nat.add].
    destruct n as [|m]; [lia|]. cbn [width_before].
    now replace (S m - 1)%nat with m by lia. }
  assert (Hvals : map call_value new = firstn n buf).
  { rewrite Hcalls. now rewrite loop_calls_values by (cbn [Nat.add]; lia). }
  assert (Hw0 : 0 <= nth 0 ws 0 <= 32).
  { subst ws. rewrite flush_widths_nth by lia. apply plan_nth_bounds; [assumption|lia|lia]. }
  assert (Hmr1 : 0 <= nth (n - 1) ws 0 <= 32).
  { subst ws. rewrite flush_widths_nth by lia. apply plan_nth_bounds; [assumption|lia|lia]. }
  assert (Hprom : (n < length buf)%nat ->
                  forall ext, Forall Int32.is_uint ext ->
                    hd 0 (plan (nth (n - 1) ws 0) (skipn n buf ++ ext)) = nth n ws 0).
  { intros Hlt ext He. subst ws.
    destruct (Nat.eqb_spec n (length buf)) as [|_]; [lia|]. cbn [flush_widths].
    apply plan_resume_firstn; [assumption | assumption | lia | lia | lia]. }
  assert (Hghost : n = length buf -> nth n ws 0 = nth (n - 1) ws 0).
  { intros E. subst ws. rewrite (flush_widths_nth _ _ (n - 1)) by lia.
    rewrite <- E, Nat.eqb_refl. cbn [flush_widths].
    rewrite E, <- HlW, nth_middle, last_nth_pred. reflexivity. }
  rewrite FlushSome_unfold by exact Hn. rewrite Hws. cbv zeta.
  change (FlushSome_calls n s) with new.
  destruct (UintStream.started_ s) eqn:Est.
  - (* a later flush *)
    destruct Hst as (w0 & ann0 & (Hw0r & Hw0p & _) & Hne & Hc0 & He0 & _ & Hbits & _ & _ & Hpr).
    rewrite (write_codes_ok new s Hgood Hnpr). cbn [bind].
    eexists. split; [reflexivity|].
    unfold set_output. cbn [UintStream.flushed_ UintStream.buffer_ UintStream.started_
      UintStream.most_recent_num_bits_ UintStream.bit_stream_
      UintStream.num_pending_zeros_].
    split; [reflexivity|]. split; [reflexivity|]. split; [exact Est|].
    split; [apply Forall_app; now split|]. split; [exact Hvals|].
    assert (Hann : nth 0 ws 0 = ann0).
    { specialize (Hpr [] (Forall_nil _)). rewrite app_nil_r in Hpr.
      fold mr buf W in Hpr. subst ws. rewrite flush_widths_nth by lia.
      now rewrite nth_0_hd. }
    exists w0, (nth n ws 0). split; [now split|]. split; [exact Hghost|].
    rewrite chain_app, chain_end_app, He0. fold mr. rewrite <- Hann.
    split; [now split|]. split; [exact Hend|]. split; [exact Hmr1|].
    rewrite (emit_app cs new 0). cbn [fst snd]. rewrite <- Hnp.
    split; [now rewrite Hbits, <- app_assoc|]. split; [reflexivity|].
    exact Hprom.
  - (* the first flush *)
    destruct Hst as (-> & Hbits & Hp0 & Hmr0).
    set (s0 := UintStream.mk _ _ _ _ _ _).
    assert (Hnpr0 : 0 <= UintStream.num_pending_zeros_ s0 < Int32.modulus) by exact Hnpr.
    rewrite (write_codes_ok new s0 Hgood Hnpr0). cbn [bind].
    eexists. split; [reflexivity|].
    unfold set_output, s0. cbn [UintStream.flushed_ UintStream.buffer_ UintStream.started_
      UintStream.most_recent_num_bits_ UintStream.bit_stream_
      UintStream.num_pending_zeros_].
    split; [reflexivity|]. split; [reflexivity|]. split; [reflexivity|].
    split; [exact Hgood|]. split; [exact Hvals|].
    exists (nth 0 ws 0), (nth n ws 0). split.
    { split; [exact Hw0|]. cbn [map app] in Hw. rewrite Hw. fold buf.
      rewrite firstn_all2 by lia. subst ws. rewrite flush_widths_nth by lia.
      subst W. now rewrite Hmr0, nth_0_hd. }
    split; [exact Hghost|].
    cbn [app]. split; [exact Hch|]. split; [exact Hend|]. split; [exact Hmr1|].
    rewrite Hp0. split; [|split; [reflexivity | exact Hprom]].
    rewrite (prelude_write _ _ Hw0), Hbits. reflexivity.
Qed.

(** ** The whole run of the encoder *)

Lemma flush_pending_ok s :
  0 <= UintStream.num_pending_zeros_ s < Int32.modulus ->
  (if UintStream.num_pending_zeros_ s =? 0 then Ok s
   else UintStream.FlushPendingZeros s) =
  Ok (set_output s
        (UintStream.bit_stream_ s ++ pending_bits (UintStream.num_pending_zeros_ s)) 0).
Proof.
  intros Hp. unfold pending_bits.
  destruct (UintStream.num_pending_zeros_ s =? 0) eqn:E0.
  - apply Z.eqb_eq in E0. rewrite app_nil_r. unfold set_output.
    rewrite <- E0. now destruct s.
  - apply Z.eqb_neq in E0. apply FlushPendingZeros_ok. lia.
Qed.

Lemma skipn_Forall (P : Z -> Prop) n l : Forall P l -> Forall P (skipn n l).
Proof.
  intros H. rewrite <- (firstn_skipn n l) in H. now apply Forall_app in H as [_ H].
Qed.

Lemma Write_step written cs s v :
  encoder_inv written cs s -> (length (UintStream.buffer_ s) < 64)%nat ->
  Int32.is_uint v ->
  exists s1,
    UintStream.Write v s = Ok s1 /\
    encoder_inv (written ++ [v]) (cs ++ Write_calls v s) s1 /\
    (0 < length (UintStream.buffer_ s1) < 64)%nat /\
    UintStream.flushed_ s1 = UintStream.flushed_ s.
Proof.
  intros Hinv Hlen Hv.
  set (s' := UintStream.mk (UintStream.buffer_ s ++ [v])
               (UintStream.most_recent_num_bits_ s) (UintStream.bit_stream_ s)
               (UintStream.started_ s) (UintStream.flushed_ s)
               (UintStream.num_pending_zeros_ s)).
  assert (Hinv' : encoder_inv (written ++ [v]) cs s').
  { destruct Hinv as (Hb & Hg & Hw & Hst). unfold encoder_inv, s'.
    cbn [UintStream.buffer_ UintStream.started_ UintStream.most_recent_num_bits_
         UintStream.bit_stream_ UintStream.num_pending_zeros_].
    split; [apply Forall_app; split; [assumption | now constructor]|].
    split; [assumption|]. split; [now rewrite Hw, app_assoc|].
    destruct (UintStream.started_ s); [|exact Hst].
    destruct Hst as (w0 & ann & (H1 & H1' & H1'') & H2 & H3 & H4 & H5 & H6 & H7 & H8 & H9).
    exists w0, ann. split.
    { split; [assumption|]. rewrite firstn_app.
      replace (64 - length written)%nat with 0%nat by lia.
      cbn [firstn]. rewrite app_nil_r. split; [assumption|].
      rewrite length_app. lia. }
    repeat (split; [assumption|]).
    split; [rewrite length_app; simpl; lia|].
    intros ext He. rewrite <- app_assoc. apply H9. now constructor. }
  unfold UintStream.Write, Write_calls. fold s'.
  assert (Hl' : length (UintStream.buffer_ s') = S (length (UintStream.buffer_ s))).
  { unfold s'. cbn [UintStream.buffer_]. rewrite length_app. simpl. lia. }
  destruct (Nat.leb_spec 64 (length (UintStream.buffer_ s'))) as [H64|H64].
  - destruct (FlushSome_step _ _ _ 32%nat Hinv' ltac:(lia) ltac:(lia) ltac:(right; lia))
      as (s1 & Hf & Hfl & Hbuf & Hst & Hg & Hvals & w0 & ann & H1 & _ & H2 & H3 & H4 & H5 & H6 & H7).
    exists s1. split; [exact Hf|].
    assert (Hl1 : length (UintStream.buffer_ s1) = 32%nat).
    { rewrite Hbuf, length_skipn. lia. }
    split; [|split; [lia | exact Hfl]].
    destruct Hinv' as (Hb' & _ & Hw' & _).
    unfold encoder_inv. rewrite Hst.
    split; [rewrite Hbuf; now apply skipn_Forall|].
    split; [exact Hg|].
    split; [now rewrite map_app, Hvals, Hbuf, <- app_assoc, firstn_skipn|].
    exists w0, ann. split.
    { split; [apply H1|]. split; [apply H1|].
      rewrite Hw', length_app. lia. }
    split.
    { intros E. apply (f_equal (@length call)) in E.
      apply (f_equal (@length Z)) in Hvals.
      rewrite length_app in E. rewrite length_map, length_firstn in Hvals.
      simpl in E. lia. }
    repeat (split; [assumption|]). split; [lia|].
    rewrite Hbuf. apply H7. lia.
  - exists s'. split; [reflexivity|]. rewrite app_nil_r.
    split; [exact Hinv'|]. split; [lia | reflexivity].
Qed.

Lemma Flush_step written cs s :
  encoder_inv written cs s -> (0 < length (UintStream.buffer_ s))%nat ->
  (length (UintStream.buffer_ s) < 64)%nat ->
  UintStream.flushed_ s = false ->
  exists s', UintStream.Flush s = Ok s' /\
             encoder_final written (cs ++ Flush_calls s) s'.
Proof.
  intros Hinv Hlen H64 Hfl.
  set (s0 := UintStream.mk (UintStream.buffer_ s) (UintStream.most_recent_num_bits_ s)
               (UintStream.bit_stream_ s) (UintStream.started_ s) true
               (UintStream.num_pending_zeros_ s)).
  assert (Hinv0 : encoder_inv written cs s0) by exact Hinv.
  assert (Hcalls : FlushSome_calls (length (UintStream.buffer_ s0)) s0 = Flush_calls s)
    by reflexivity.
  unfold UintStream.Flush. rewrite Hfl.
  destruct (Nat.eqb_spec (length (UintStream.buffer_ s)) 0) as [|_]; [lia|].
  cbn [negb assert bind]. fold s0.
  destruct (FlushSome_step _ _ _ (length (UintStream.buffer_ s0)) Hinv0
              ltac:(unfold s0; cbn [UintStream.buffer_]; lia)
              ltac:(unfold s0; cbn [UintStream.buffer_]; lia) ltac:(now left))
    as (s1 & Hf & Hfl1 & Hbuf & Hst & Hg & Hvals & w0 & ann & H1 & Hgh & H2 & H3 & H4 & H5 & H6 & _).
  rewrite Hcalls in *. rewrite Hf. cbn [bind].
  assert (Hp : 0 <= UintStream.num_pending_zeros_ s1 < Int32.modulus).
  { rewrite H6. apply emit_pending_range. int_range. }
  rewrite (flush_pending_ok s1 Hp). cbn [bind].
  eexists. split; [reflexivity|].
  unfold encoder_final, UintStream.with_bit_stream, set_output.
  cbn [UintStream.flushed_ UintStream.bit_stream_].
  split; [exact Hfl1|]. split; [exact Hg|].
  destruct Hinv as (_ & _ & Hw & _).
  split; [now rewrite map_app, Hvals, firstn_all|].
  exists w0, ann. split; [exact H1|]. split; [exact H2|].
  split; [rewrite H3; f_equal; symmetry; now apply Hgh|].
  now rewrite H5, H6, <- app_assoc.
Qed.

Lemma run_ok vs : forall written cs s,
  encoder_inv written cs s -> (length (UintStream.buffer_ s) < 64)%nat ->
  UintStream.flushed_ s = false -> Forall Int32.is_uint vs ->
  (0 < length vs + length (UintStream.buffer_ s))%nat ->
  exists s', bind (write_all vs s) UintStream.Flush = Ok s' /\
             encoder_final (written ++ vs) (cs ++ run_calls vs s) s'.
Proof.
  induction vs as [|v vs IH]; intros written cs s Hinv Hlen Hfl Hvs Hne.
  - cbn [write_all bind run_calls]. rewrite app_nil_r.
    apply Flush_step; [assumption | simpl in Hne; lia | assumption | assumption].
  - inversion Hvs as [|? ? Hv Hvs']; subst.
    destruct (Write_step written cs s v Hinv Hlen Hv) as (s1 & Hw & Hinv1 & Hl1 & Hfl1).
    cbn [write_all run_calls]. rewrite Hw. cbn [bind].
    destruct (IH (written ++ [v]) (cs ++ Write_calls v s) s1 Hinv1
                ltac:(lia) ltac:(congruence) Hvs' ltac:(lia)) as (s' & Hr & Hfin).
    exists s'. split; [exact Hr|].
    now rewrite <- !app_assoc in Hfin.
Qed.

Lemma encoder_inv_init : encoder_inv [] [] UintStream.init.
Proof.
  unfold encoder_inv, UintStream.init. cbn. repeat split; constructor.
Qed.

(** Every run [Write+; Flush] on 32-bit values ends without a failed
    [assert], its calls of [WriteCode] are a chain of good calls, one per
    value, and the bit stream is the prelude, what the calls emit, the
    pending zero run and the padding. *)
Lemma encode_state_ok vs : vs <> [] -> Forall Int32.is_uint vs ->
  exists s, encode_state vs = Ok s /\ encoder_final vs (encode_calls vs) s.
Proof.
  intros Hne Hvs.
  destruct (run_ok vs [] [] UintStream.init encoder_inv_init ltac:(simpl; lia)
              eq_refl Hvs) as (s & Hr & Hfin).
  - destruct vs; [congruence | simpl; lia].
  - exists s. split; [exact Hr | exact Hfin].
Qed.

(** ** Bits and bytes *)

Lemma field_bits_value (c : list bool) :
  field_bits (Z.of_nat (length c)) (bits_value c) = c.
Proof.
  induction c as [|b c IH]; [reflexivity|].
  cbn [length bits_value]. rewrite Nat2Z.inj_succ.
  replace (Z.succ (Z.of_nat (length c))) with (Z.of_nat (length c) + 1) by lia.
  rewrite field_bits_succ by lia. f_equal.
  - rewrite Z.odd_add_mul_2. now destruct b.
  - assert (E : Z.div2 (Z.b2z b + 2 * bits_value c) = bits_value c).
    { rewrite Z.div2_div, Z.add_comm, (Z.mul_comm 2), Z.div_add_l by lia.
      destruct b; [change (Z.b2z true / 2) with 0 | change (Z.b2z false / 2) with 0];
        lia. }
    rewrite E. exact IH.
Qed.

Lemma byte_bits_chunk (c : list bool) : length c = 8%nat ->
  ReverseBitStream.byte_bits (BitStream.to_int8 (bits_value c)) = c.
Proof.
  intros Hc. unfold ReverseBitStream.byte_bits, BitStream.to_int8.
  replace ((((bits_value c + 128) mod 256 - 128)) mod 256)
    with (bits_value c mod 2 ^ 8)
    by (change (2 ^ 8) with 256; Z.div_mod_to_equations; lia).
  rewrite field_bits_mod by lia. change 8 with (Z.of_nat 8). rewrite <- Hc.
  apply field_bits_value.
Qed.

Lemma make_Code_chunks : forall fuel k (l : list bool),
  length l = (8 * k)%nat -> (k <= fuel)%nat ->
  flat_map ReverseBitStream.byte_bits
    (map (fun g => BitStream.to_int8 (bits_value g)) (chunk8 fuel l)) = l.
Proof.
  induction fuel as [|fuel IH]; intros k l Hl Hk.
  - assert (k = 0%nat) by lia. subst k. destruct l; [reflexivity | discriminate].
  - cbn [chunk8]. destruct l as [|b l'] eqn:El; [reflexivity|]. rewrite <- El in *.
    assert (k <> 0%nat) by (intros ->; subst l; discriminate).
    cbn [map flat_map].
    rewrite byte_bits_chunk by (rewrite length_firstn; lia).
    rewrite (IH (k - 1)%nat) by (rewrite ?length_skipn; lia).
    apply firstn_skipn.
Qed.

Lemma padded_length (l : list bool) :
  exists k, length (BitStream.Flush l) = (8 * k)%nat.
Proof.
  unfold BitStream.Flush, BitStream.padding. rewrite length_app, repeat_length.
  exists ((length l + (8 - length l mod 8) mod 8) / 8)%nat.
  pose proof (Nat.div_mod_eq (length l) 8).
  pose proof (Nat.mod_upper_bound (length l) 8 ltac:(lia)).
  destruct (Nat.eq_dec (length l mod 8) 0) as [E|E].
  - rewrite E. change ((8 - 0) mod 8)%nat with 0%nat. rewrite Nat.add_0_r.
    replace (length l) with (length l / 8 * 8)%nat at 2 by lia.
    rewrite Nat.div_mul by lia. lia.
  - rewrite (Nat.mod_small (8 - length l mod 8) 8) by lia.
    replace (length l + (8 - length l mod 8))%nat
      with ((length l / 8 + 1) * 8)%nat by lia.
    rewrite Nat.div_mul by lia. lia.
Qed.

(** the decoder reads back the bits that the encoder wrote, followed by the
    padding *)
Lemma make_Code (l : list bool) :
  ReverseBitStream.make (BitStream.Code (BitStream.Flush l)) = BitStream.Flush l.
Proof.
  destruct (padded_length l) as [k Hk].
  unfold ReverseBitStream.make, BitStream.Code.
  apply (make_Code_chunks _ k); [exact Hk | lia].
Qed.

Lemma Code_nonempty (l : list bool) : l <> [] ->
  BitStream.Code (BitStream.Flush l) <> [].
Proof.
  intros Hl E. pose proof (make_Code l) as H. rewrite E in H.
  unfold BitStream.Flush in H. destruct l; [congruence | discriminate].
Qed.

(** ** What [ReverseUintStream::Read] reads *)

Lemma Read_1 b r : ReverseBitStream.Read 1 (b :: r) = Some (Z.b2z b, r).
Proof.
  unfold ReverseBitStream.Read. change (Z.to_nat 1) with 1%nat.
  cbn [length Nat.leb firstn skipn bits_value]. f_equal. f_equal. lia.
Qed.

Lemma field_bits_unary h : 0 <= h ->
  field_bits (h + 1) (2 ^ h) = repeat false (Z.to_nat h) ++ [true].
Proof.
  intros Hh. pattern h. apply natlike_ind; [| |exact Hh]; clear h Hh.
  - reflexivity.
  - intros h Hh IH. replace (Z.succ h + 1) with ((h + 1) + 1) by lia.
    rewrite field_bits_succ by lia.
    replace (Z.succ h) with (h + 1) by lia.
    rewrite Z.pow_add_r by lia. change (2 ^ 1) with 2.
    rewrite Z.odd_mul. change (Z.odd 2) with false. rewrite andb_false_r.
    rewrite Z.div2_div, Z.div_mul by lia. rewrite IH.
    replace (Z.to_nat (h + 1)) with (S (Z.to_nat h)) by lia. reflexivity.
Qed.

Lemma read_zeros_unary m : forall fuel j R,
  (m < fuel)%nat -> 0 <= j -> j + Z.of_nat m <= 31 ->
  ReverseUintStream.read_zeros fuel j (repeat false m ++ true :: R) =
  Some (j + Z.of_nat m, R).
Proof.
  induction m as [|m IH]; intros fuel j R Hf Hj Hm;
    (destruct fuel as [|fuel]; [lia|]); cbn [repeat app ReverseUintStream.read_zeros];
    rewrite Read_1; destruct (Z.ltb_spec 31 j) as [|_]; try lia.
  - cbn [Z.b2z]. change (1 =? 0) with false. cbv iota.
    f_equal. f_equal. lia.
  - cbn [Z.b2z]. change (0 =? 0) with true. cbv iota.
    rewrite add_exact by int_range. rewrite IH by lia. f_equal. f_equal. lia.
Qed.

Lemma run_length_split k : 1 <= k ->
  2 ^ (int_math.num_bits k - 1) + k mod 2 ^ (int_math.num_bits k - 1) = k.
Proof.
  intros Hk. pose proof (num_bits_spec k ltac:(lia)) as Hs.
  pose proof (num_bits_pos k Hk) as Hp.
  set (h := int_math.num_bits k - 1) in *.
  replace (int_math.num_bits k) with (h + 1) in Hs by (subst h; lia).
  rewrite Z.pow_add_r in Hs by lia. change (2 ^ 1) with 2 in Hs.
  assert (E : k mod 2 ^ h = k - 2 ^ h).
  { symmetry. apply (Z.mod_unique k (2 ^ h) 1 (k - 2 ^ h)); lia. }
  lia.
Qed.

Lemma top_bit_redundant_zero prev next : top_bit_redundant prev 0 next = false.
Proof. unfold top_bit_redundant. change (0 <? 0) with false. apply andb_false_r. Qed.

(** the first [Read] of a run of [k] zero-width symbols reads the zero-run
    code and reconstructs [k] *)
Lemma Read_run_start k prev R x : 1 <= k < Int32.half ->
  ReverseUintStream.Read x (ReverseUintStream.mk (zero_run_bits k ++ R) prev 0 (-1)) =
  Some (0, ReverseUintStream.mk R 0 (if k =? 1 then 1 else 0) (k - 2)).
Proof.
  intros Hk.
  assert (Hnb : 1 <= int_math.num_bits k <= 31).
  { split; [apply num_bits_pos; lia|]. apply num_bits_le; [lia|].
    change (2 ^ 31) with Int32.half. lia. }
  unfold ReverseUintStream.Read, ReverseUintStream.read_next_num_bits.
  cbn [ReverseUintStream.bit_reader_ ReverseUintStream.prev_num_bits_
       ReverseUintStream.cur_num_bits_ ReverseUintStream.zero_runlength_].
  change (negb (0 =? 0)) with false. change (0 <=? -1) with false. cbv iota.
  unfold zero_run_bits. set (h := int_math.num_bits k - 1) in *.
  rewrite field_bits_unary by lia. rewrite <- !app_assoc. cbn [app].
  rewrite read_zeros_unary by lia. cbn [Z.add].
  rewrite Nat2Z.id || rewrite Z2Nat.id by lia.
  rewrite Read_field by lia. rewrite Z.mod_mod by (apply Z.pow_nonzero; lia).
  rewrite shl1_uint by lia.
  assert (Hrun : Int32.to_int (Int32.uadd (2 ^ h) (k mod 2 ^ h)) = k).
  { unfold Int32.uadd. subst h. rewrite run_length_split by lia.
    rewrite to_uint_id by int_range. apply to_int_id. int_range. }
  rewrite Hrun. rewrite (sub_exact k 2) by int_range.
  rewrite top_bit_redundant_zero, Read_0. reflexivity.
Qed.

(** the later [Read]s of a run count [zero_runlength_] down *)
Lemma Read_in_run R x r : 0 <= r < Int32.half ->
  ReverseUintStream.Read x (ReverseUintStream.mk R 0 0 r) =
  Some (0, ReverseUintStream.mk R 0 (if r =? 0 then 1 else 0) (r - 1)).
Proof.
  intros Hr. unfold ReverseUintStream.Read, ReverseUintStream.read_next_num_bits.
  cbn [ReverseUintStream.bit_reader_ ReverseUintStream.prev_num_bits_
       ReverseUintStream.cur_num_bits_ ReverseUintStream.zero_runlength_].
  change (negb (0 =? 0)) with false. cbv iota.
  destruct (Z.leb_spec 0 r) as [_|]; [|lia].
  rewrite (sub_exact r 1) by int_range.
  rewrite top_bit_redundant_zero, Read_0. reflexivity.
Qed.

Lemma read_n_S n x d :
  read_n (S n) x d =
  match ReverseUintStream.Read (x O) d with
  | None => None
  | Some (v, d') =>
      match read_n n (fun k => x (S k)) d' with
      | None => None
      | Some (vs, d'') => Some (v :: vs, d'')
      end
  end.
Proof. reflexivity. Qed.

Lemma read_n_in_run (m : nat) : forall x R, Z.of_nat m < Int32.half ->
  read_n (S m) x (ReverseUintStream.mk R 0 0 (Z.of_nat m)) =
  Some (repeat 0 (S m), ReverseUintStream.mk R 0 1 (-1)).
Proof.
  induction m as [|m IH]; intros x R Hm; rewrite read_n_S.
  - rewrite Read_in_run by int_range. reflexivity.
  - rewrite Read_in_run by lia.
    destruct (Z.eqb_spec (Z.of_nat (S m)) 0) as [|_]; [lia|].
    replace (Z.of_nat (S m) - 1) with (Z.of_nat m) by lia.
    rewrite IH by lia. reflexivity.
Qed.

(** decoding a whole run of [k] zero-width symbols *)
Lemma read_n_zero_run k prev R x : 1 <= k < Int32.half ->
  read_n (Z.to_nat k) x (ReverseUintStream.mk (zero_run_bits k ++ R) prev 0 (-1)) =
  Some (repeat 0 (Z.to_nat k), ReverseUintStream.mk R 0 1 (-1)).
Proof.
  intros Hk. destruct (Z.to_nat k) as [|n] eqn:En; [lia|].
  rewrite read_n_S, Read_run_start by assumption.
  destruct n as [|m].
  - destruct (Z.eqb_spec k 1) as [->|]; [|lia]. reflexivity.
  - destruct (Z.eqb_spec k 1) as [|_]; [lia|].
    replace (k - 2) with (Z.of_nat m) by lia.
    rewrite read_n_in_run by lia. reflexivity.
Qed.

Lemma next_num_bits_nonzero prev cur next rl R x :
  0 < cur <= 32 -> 0 <= next <= 32 -> -1 <= next - cur <= 1 ->
  ReverseUintStream.read_next_num_bits x
    (ReverseUintStream.mk (delta_bits cur next ++ R) prev cur rl) =
  Some (next, R, rl).
Proof.
  intros Hc Hn Hd. unfold ReverseUintStream.read_next_num_bits.
  cbn [ReverseUintStream.bit_reader_ ReverseUintStream.cur_num_bits_
       ReverseUintStream.zero_runlength_].
  destruct (Z.eqb_spec cur 0) as [|_]; [lia|]. cbn [negb].
  unfold delta_bits.
  destruct (Z.eqb_spec (next - cur) 1) as [E1|E1].
  - change (field_bits 2 3) with [true; true]. cbn [app].
    rewrite !Read_1. cbn [Z.b2z]. change (1 =? 0) with false. cbn [negb].
    rewrite add_exact by int_range.
    destruct (Z.ltb_spec 32 (cur + 1)) as [|_]; [lia|].
    f_equal. f_equal. f_equal. lia.
  - destruct (Z.eqb_spec (next - cur) (-1)) as [E2|E2].
    + change (field_bits 2 1) with [true; false]. cbn [app].
      rewrite !Read_1. cbn [Z.b2z]. change (1 =? 0) with false.
      change (0 =? 0) with true. cbn [negb].
      rewrite sub_exact by int_range.
      destruct (Z.ltb_spec (cur - 1) 0) as [|_]; [lia|].
      f_equal. f_equal. f_equal. lia.
    + change (field_bits 1 0) with [false]. cbn [app].
      rewrite Read_1. cbn [Z.b2z]. change (0 =? 0) with true. cbv iota.
      f_equal. f_equal. f_equal. lia.
Qed.

Lemma num_bits_log2 i c : 0 < c -> int_math.num_bits i = c ->
  0 < i /\ Z.log2 i = c - 1.
Proof.
  unfold int_math.num_bits. intros Hc H. destruct (Z.ltb_spec 0 i); lia.
Qed.

Lemma lor_top_bit i c : 0 < c -> int_math.num_bits i = c ->
  Z.lor (i mod 2 ^ (c - 1)) (2 ^ (c - 1)) = i.
Proof.
  intros Hc Hnb. destruct (num_bits_log2 i c Hc Hnb) as [Hi Hlog].
  apply Z.bits_inj'. intros n Hn. rewrite Z.lor_spec.
  destruct (Z.lt_trichotomy n (c - 1)) as [Hlt|[->|Hgt]].
  - rewrite Z.mod_pow2_bits_low, Z.pow2_bits_false by lia. apply orb_false_r.
  - rewrite Z.pow2_bits_true, orb_true_r by lia.
    rewrite <- Hnb. symmetry. now apply num_bits_top_bit.
  - rewrite Z.mod_pow2_bits_high, Z.pow2_bits_false by lia.
    symmetry. apply Z.bits_above_log2; lia.
Qed.

Lemma value_fits i c : 0 <= i -> 0 <= c -> int_math.num_bits i <= c ->
  i mod 2 ^ c = i.
Proof.
  intros Hi Hc Hnb. apply Z.mod_small. split; [assumption|].
  destruct (Z.eq_dec i 0) as [->|Hne]; [apply Z.pow_pos_nonneg; lia|].
  pose proof (num_bits_spec i ltac:(lia)) as [_ Hs].
  eapply Z.lt_le_trans; [exact Hs|]. apply Z.pow_le_mono_r; lia.
Qed.

(** one [Read] on the codes of a symbol of nonzero width returns the value *)
Lemma Read_symbol prev cur next i rl R x :
  good_call (prev, cur, next, i) -> cur <> 0 ->
  ReverseUintStream.Read x
    (ReverseUintStream.mk
       (delta_bits cur next ++ value_bits prev cur next i ++ R) prev cur rl) =
  Some (i, ReverseUintStream.mk R cur next rl).
Proof.
  intros (Hc & Hn & Hd & Hi & Hfit & Htop) Hc0.
  unfold ReverseUintStream.Read.
  rewrite next_num_bits_nonzero by lia.
  cbn [ReverseUintStream.prev_num_bits_ ReverseUintStream.cur_num_bits_].
  unfold value_bits. destruct (top_bit_redundant prev cur next) eqn:Et.
  - rewrite sub_exact by int_range. rewrite Read_field by lia.
    rewrite shl1_uint by lia. rewrite lor_top_bit by (try apply Htop; lia || reflexivity).
    reflexivity.
  - rewrite Read_field by lia. rewrite value_fits by lia. reflexivity.
Qed.

(** ** Decoding the bits of a chain of calls *)

Lemma zero_calls_split cs : cs = zero_calls cs ++ after_zero_calls cs.
Proof.
  induction cs as [|[[[p c] n] i] cs IH]; [reflexivity|].
  cbn [zero_calls after_zero_calls]. destruct (c =? 0); [|reflexivity].
  cbn [app]. now f_equal.
Qed.

Lemma zero_calls_zero cs : Forall (fun c => call_cur c = 0) (zero_calls cs).
Proof.
  induction cs as [|[[[p c] n] i] cs IH]; [constructor|].
  cbn [zero_calls]. destruct (Z.eqb_spec c 0); [|constructor].
  constructor; [assumption | exact IH].
Qed.

Lemma after_zero_calls_head cs :
  match after_zero_calls cs with
  | [] => True
  | c :: _ => call_cur c <> 0
  end.
Proof.
  induction cs as [|[[[p c] n] i] cs IH]; [exact I|].
  cbn [after_zero_calls]. destruct (Z.eqb_spec c 0); [exact IH | assumption].
Qed.

Lemma emit_zero_calls zs rest : Forall (fun c => call_cur c = 0) zs ->
  forall pending, 0 <= pending ->
  pending + Z.of_nat (length zs) < Int32.modulus ->
  emit pending (zs ++ rest) = emit (pending + Z.of_nat (length zs)) rest.
Proof.
  induction 1 as [|[[[p c] n] i] zs Hz Hzs IH]; intros pending Hp Hlen.
  - cbn [app length]. f_equal. simpl. lia.
  - unfold call_cur in Hz. cbn [fst snd] in Hz. subst c.
    cbn [app emit length] in *. change (0 =? 0) with true. cbv iota.
    unfold Int32.uadd. rewrite to_uint_id by int_range.
    rewrite IH by lia. f_equal. lia.
Qed.

Lemma emit_after_zeros k rest :
  match rest with [] => True | c :: _ => call_cur c <> 0 end ->
  fst (emit k rest) ++ pending_bits (snd (emit k rest)) =
  pending_bits k ++ chain_bits rest.
Proof.
  unfold chain_bits. destruct rest as [|[[[p c] n] i] rest]; intros H.
  - cbn [emit fst snd]. change (pending_bits 0) with (@nil bool).
    now rewrite !app_nil_r.
  - unfold call_cur in H. cbn [fst snd] in H. cbn [emit].
    destruct (Z.eqb_spec c 0) as [|_]; [contradiction|].
    destruct (emit 0 rest) as [bs q]. cbn [fst snd].
    change (pending_bits 0) with (@nil bool). cbn [app].
    now rewrite <- !app_assoc.
Qed.

Lemma chain_bits_zero_calls cs :
  zero_calls cs <> [] -> Z.of_nat (length cs) < Int32.modulus ->
  chain_bits cs =
  zero_run_bits (Z.of_nat (length (zero_calls cs))) ++ chain_bits (after_zero_calls cs).
Proof.
  intros Hne Hlen. unfold chain_bits at 1.
  rewrite (zero_calls_split cs) at 1 2.
  assert (Hl : (length (zero_calls cs) <= length cs)%nat).
  { rewrite (zero_calls_split cs) at 2. rewrite length_app. lia. }
  rewrite emit_zero_calls by (try apply zero_calls_zero; lia). cbn [Z.add].
  rewrite emit_after_zeros by apply after_zero_calls_head.
  unfold pending_bits.
  destruct (Z.eqb_spec (Z.of_nat (length (zero_calls cs))) 0) as [E|_]; [|reflexivity].
  destruct (zero_calls cs); [congruence | discriminate].
Qed.

Lemma chain_bits_nonzero prev cur next i rest : cur <> 0 ->
  chain_bits ((prev, cur, next, i) :: rest) =
  delta_bits cur next ++ value_bits prev cur next i ++ chain_bits rest.
Proof.
  intros Hc. unfold chain_bits. cbn [emit].
  destruct (Z.eqb_spec cur 0) as [|_]; [contradiction|].
  destruct (emit 0 rest) as [bs q]. cbn [fst snd].
  change (pending_bits 0) with (@nil bool). cbn [app].
  now rewrite <- !app_assoc.
Qed.

Lemma zero_calls_values zs :
  Forall good_call zs -> Forall (fun c => call_cur c = 0) zs ->
  map call_value zs = repeat 0 (length zs).
Proof.
  induction 1 as [|[[[p c] n] i] zs Hg Hgs IH]; intros Hz; [reflexivity|].
  inversion Hz as [|? ? Hc Hzs]; subst. unfold call_cur in Hc. cbn [fst snd] in Hc.
  cbn [map length repeat]. rewrite IH by assumption. f_equal.
  unfold call_value. cbn [snd]. destruct Hg as (_ & _ & _ & Hi & Hfit & _).
  destruct (Z.eq_dec i 0) as [|Hne]; [assumption|].
  pose proof (num_bits_pos i ltac:(lia)). lia.
Qed.

Lemma chain_end_zero_calls zs : zs <> [] ->
  Forall good_call zs -> Forall (fun c => call_cur c = 0) zs ->
  forall st, exists next, chain_end st zs = (0, next) /\ 0 <= next <= 1.
Proof.
  induction zs as [|[[[p c] n] i] zs IH]; intros Hne Hg Hz st; [congruence|].
  inversion Hg as [|? ? Hg1 Hg2]; inversion Hz as [|? ? Hc Hzs]; subst.
  unfold call_cur in Hc. cbn [fst snd] in Hc. subst c. cbn [chain_end].
  destruct zs as [|c' zs'].
  - exists n. split; [reflexivity|]. destruct Hg1 as (_ & Hn & Hd & _). lia.
  - apply IH; [discriminate | assumption | assumption].
Qed.

Lemma read_n_app a : forall b x d,
  read_n (a + b) x d =
  match read_n a x d with
  | None => None
  | Some (vs1, d1) =>
      match read_n b (fun k => x (a + k)%nat) d1 with
      | None => None
      | Some (vs2, d2) => Some (vs1 ++ vs2, d2)
      end
  end.
Proof.
  induction a as [|a IH]; intros b x d.
  - cbn [Nat.add read_n]. now destruct (read_n b _ d) as [[vs d']|].
  - cbn [Nat.add]. rewrite !read_n_S.
    destruct (ReverseUintStream.Read (x 0%nat) d) as [[v d']|]; [|reflexivity].
    rewrite IH. destruct (read_n a _ d') as [[vs1 d1]|]; [|reflexivity].
    cbn [Nat.add]. destruct (read_n b _ d1) as [[vs2 d2]|]; reflexivity.
Qed.

(** Reading as many symbols as there are calls in a chain of good calls,
    from the bits that the calls left, returns the values of the calls, as
    long as the run lengths stay below 2^31. *)
Lemma decode_chain n : forall cs, (length cs <= n)%nat ->
  Forall good_call cs -> Z.of_nat (length cs) < Int32.half ->
  forall prev cur tail x, chain (prev, cur) cs ->
  exists d,
    read_n (length cs) x
      (ReverseUintStream.mk (chain_bits cs ++ tail) prev cur (-1)) =
    Some (map call_value cs, d) /\
    ReverseUintStream.bit_reader_ d = tail.
Proof.
  induction n as [|n IH]; intros cs Hn Hg Hlen prev cur tail x Hch.
  { destruct cs; [|simpl in Hn; lia]. eexists. split; reflexivity. }
  destruct cs as [|[[[p c] nx] i] rest] eqn:Ecs.
  { eexists. split; reflexivity. }
  destruct Hch as [Hst Hch]. injection Hst as -> ->.
  inversion Hg as [|? ? Hg1 Hg2]; subst.
  destruct (Z.eq_dec c 0) as [Hc|Hc].
  - (* a run of zero-width symbols *)
    subst c. set (cs := @cons call (p, 0, nx, i) rest) in *.
    assert (Hzne : zero_calls cs <> []).
    { subst cs. cbn [zero_calls]. change (0 =? 0) with true. discriminate. }
    pose proof (zero_calls_split cs) as Hsplit.
    set (zs := zero_calls cs) in *. set (rest' := after_zero_calls cs) in *.
    assert (Hzz : Forall (fun c => call_cur c = 0) zs) by apply zero_calls_zero.
    assert (Hl : length cs = (length zs + length rest')%nat).
    { rewrite Hsplit at 1. apply length_app. }
    assert (Hzpos : (0 < length zs)%nat).
    { destruct zs; [congruence | simpl; lia]. }
    assert (Hg' : Forall good_call (zs ++ rest')) by (rewrite <- Hsplit; exact Hg).
    apply Forall_app in Hg' as [Hgz Hgr].
    assert (Hch' : chain (p, 0) (zs ++ rest')).
    { rewrite <- Hsplit. subst cs. cbn [chain]. now split. }
    apply chain_app in Hch' as [_ Hch'].
    destruct (chain_end_zero_calls zs Hzne Hgz Hzz (p, 0)) as (nl & Hend & Hnl).
    rewrite Hend in Hch'.
    assert (Hch1 : chain (0, 1) rest').
    { pose proof (after_zero_calls_head cs) as Hh. fold rest' in Hh.
      destruct rest' as [|[[[p' c'] n'] i'] r']; [exact I|].
      unfold call_cur in Hh. cbn [fst snd] in Hh.
      destruct Hch' as [E Hch']. injection E as <- <-.
      cbn [chain]. split; [f_equal; lia | exact Hch']. }
    destruct (IH rest' ltac:(lia) Hgr ltac:(lia) 0 1 tail
                (fun k => x (length zs + k)%nat) Hch1) as (d & Hd & Hr).
    exists d. split; [|exact Hr].
    rewrite chain_bits_zero_calls by (try exact Hzne; int_range).
    fold zs rest'. rewrite Hl, read_n_app, <- app_assoc.
    rewrite <- (Nat2Z.id (length zs)) at 1.
    rewrite read_n_zero_run by lia. rewrite Nat2Z.id, Hd.
    replace (map call_value cs) with (map call_value zs ++ map call_value rest')
      by (now rewrite <- map_app, <- Hsplit).
    now rewrite (zero_calls_values zs Hgz Hzz).
  - (* a symbol of nonzero width *)
    destruct (IH rest ltac:(simpl in Hn; lia) Hg2
                ltac:(cbn [length] in Hlen; lia) c nx tail
                (fun k => x (S k)) Hch) as (d & Hd & Hr).
    exists d. split; [|exact Hr].
    cbn [length]. rewrite read_n_S, chain_bits_nonzero by assumption.
    rewrite <- !app_assoc. rewrite Read_symbol by assumption.
    rewrite Hd. reflexivity.
Qed.

(** ** The unary loop of [Read] never runs out of turns

    [Read] allows the loop 33 turns, and the loop has left by then: more
    turns change nothing. *)
Lemma read_zeros_fuel fuel : forall j r k,
  0 <= j -> 33 <= j + Z.of_nat fuel ->
  ReverseUintStream.read_zeros (fuel + k) j r = ReverseUintStream.read_zeros fuel j r.
Proof.
  induction fuel as [|fuel IH]; intros j r k Hj Hf.
  - cbn [Nat.add ReverseUintStream.read_zeros].
    destruct k as [|k]; [reflexivity|]. cbn [ReverseUintStream.read_zeros].
    destruct (ReverseBitStream.Read 1 r) as [[bit r']|]; [|reflexivity].
    destruct (Z.ltb_spec 31 j) as [_|]; [reflexivity | lia].
  - cbn [Nat.add ReverseUintStream.read_zeros].
    destruct (ReverseBitStream.Read 1 r) as [[bit r']|]; [|reflexivity].
    destruct (Z.ltb_spec 31 j) as [|Hle]; [reflexivity|].
    destruct (bit =? 0); [|reflexivity].
    rewrite add_exact by int_range. apply IH; lia.
Qed.

Lemma read_zeros_33_enough r k :
  ReverseUintStream.read_zeros (33 + k) 0 r = ReverseUintStream.read_zeros 33 0 r.
Proof. apply read_zeros_fuel; simpl; lia. Qed.

(** ** The prelude and the constructor of the decoder *)

Lemma make_prelude w0 R code : 0 <= w0 <= 32 -> code <> [] ->
  ReverseBitStream.make code = prelude_bits w0 ++ R ->
  ReverseUintStream.make code = inr (ReverseUintStream.mk R w0 w0 (-1)).
Proof.
  intros Hw Hne Hbits. unfold ReverseUintStream.make.
  destruct code as [|b code]; [congruence|]. rewrite Hbits. unfold prelude_bits.
  destruct (Z.ltb_spec w0 31) as [Hlt|Hge].
  - rewrite Read_field by lia. change (2 ^ 5) with 32.
    rewrite Z.mod_small by lia.
    destruct (Z.leb_spec 31 w0) as [|_]; [lia|].
    now rewrite to_int_id by int_range.
  - rewrite <- app_assoc, Read_field by lia. change (31 mod 2 ^ 5) with 31.
    change (31 <=? 31) with true. cbv iota.
    rewrite Read_field by lia. change (2 ^ 1) with 2.
    rewrite Z.mod_small by lia. unfold Int32.uadd.
    replace (31 + (w0 - 31)) with w0 by lia.
    rewrite (to_uint_id w0) by int_range.
    now rewrite to_int_id by int_range.
Qed.

Lemma prelude_bits_nonempty w0 : prelude_bits w0 <> [].
Proof. unfold prelude_bits. destruct (w0 <? 31); discriminate. Qed.

Lemma encoder_final_code vs cs s : encoder_final vs cs s ->
  exists w0 R,
    (0 <= w0 <= 32 /\ w0 = hd 0 (plan 0 (firstn 64 vs))) /\
    chain (w0, w0) cs /\
    UintStream.Code s = Ok (BitStream.Code (UintStream.bit_stream_ s)) /\
    BitStream.Code (UintStream.bit_stream_ s) <> [] /\
    ReverseBitStream.make (BitStream.Code (UintStream.bit_stream_ s)) =
      prelude_bits w0 ++ chain_bits cs ++ R.
Proof.
  intros (Hfl & _ & _ & w0 & c & Hw0 & Hch & _ & Hbits).
  exists w0. eexists. split; [exact Hw0|]. split; [exact Hch|].
  unfold UintStream.Code. rewrite Hfl. cbn [assert bind]. split; [reflexivity|].
  rewrite Hbits. split.
  - apply Code_nonempty. pose proof (prelude_bits_nonempty w0).
    destruct (prelude_bits w0); [congruence | discriminate].
  - rewrite make_Code. unfold BitStream.Flush, chain_bits.
    rewrite <- !app_assoc. reflexivity.
Qed.

(** ** Round trip below the range of [int]

    For every nonempty sequence of fewer than 2^31 values, encoding then
    decoding reproduces the sequence: every [Read] returns [true] and the
    outputs are the values in order.  (The bound is the range of the [int]
    that holds the length of a zero run in the decoder.) *)
Theorem roundtrip_below_int_range (vs : list Z) (x_uninit : nat -> Z) :
  vs <> [] -> Forall Int32.is_uint vs -> Z.of_nat (length vs) < Int32.half ->
  exists code, encode vs = Ok code /\ decode (length vs) x_uninit code = Some vs.
Proof.
  intros Hne Hvs Hlen.
  destruct (encode_state_ok vs Hne Hvs) as (s & Henc & Hfin).
  destruct (encoder_final_code vs _ s Hfin) as (w0 & R & [Hw0 _] & Hch & Hcode & Hcne & Hbits).
  destruct Hfin as (_ & Hg & Hvals & _).
  exists (BitStream.Code (UintStream.bit_stream_ s)). split.
  - unfold encode. rewrite Henc. exact Hcode.
  - unfold decode. rewrite (make_prelude w0 _ _ Hw0 Hcne Hbits).
    assert (Hl : length (encode_calls vs) = length vs).
    { rewrite Hvals at 2. now rewrite length_map. }
    destruct (decode_chain (length (encode_calls vs)) (encode_calls vs) (le_n _) Hg
                ltac:(lia) w0 w0 R x_uninit Hch) as (d & Hd & _).
    unfold read_all. rewrite <- Hl, Hd. cbn [option_map fst]. now rewrite <- Hvals.
Qed.

Lemma roundtrip_below_int_range_witness :
  exists code, encode [7; 0; 0; 0; 4294967295; 0] = Ok code /\
               decode 6 (fun _ => 0) code = Some [7; 0; 0; 0; 4294967295; 0].
Proof.
  apply (roundtrip_below_int_range [7; 0; 0; 0; 4294967295; 0] (fun _ => 0)).
  - discriminate.
  - repeat constructor; vm_compute; congruence.
  - vm_compute. reflexivity.
Defined.

(** ** The laws of the spec on whole runs *)

Lemma all_uint_Forall vs : all_uint vs = true -> Forall Int32.is_uint vs.
Proof.
  unfold all_uint. rewrite forallb_forall, Forall_forall. intros H v Hv.
  specialize (H v Hv). apply andb_true_iff in H as [H1 H2].
  apply Z.leb_le in H1. apply Z.ltb_lt in H2. now split.
Qed.

Lemma chain_head st cs : chain st cs -> cs <> [] ->
  exists next i rest, cs = (fst st, snd st, next, i) :: rest.
Proof.
  destruct cs as [|[[[p c] n] i] rest]; [congruence|]. intros [-> _] _.
  now exists n, i, rest.
Qed.

Lemma chain_adjacent cs : forall st k c1 c2,
  chain st cs -> nth_error cs k = Some c1 -> nth_error cs (S k) = Some c2 ->
  call_next c1 = call_cur c2 /\ call_cur c1 = call_prev c2.
Proof.
  induction cs as [|[[[p c] n] i] cs IH]; intros st k c1 c2 Hch H1 H2.
  - destruct k; discriminate.
  - destruct Hch as [_ Hch]. destruct k as [|k].
    + cbn [nth_error] in H1, H2. injection H1 as <-.
      destruct cs as [|[[[p' c'] n'] i'] cs']; [discriminate|].
      cbn [nth_error] in H2. injection H2 as <-.
      destruct Hch as [E _]. injection E as -> ->. now split.
    + apply (IH (c, n) k c1 c2 Hch H1 H2).
Qed.

(** C3: in every run [Write+; Flush] on 32-bit values no [assert] of the
    encoder fails, and for every call of [WriteCode] whose top bit is elided
    (with the widths the run really uses: the first call has its own width
    as previous width, the last one its own width as next width) bit
    [cur_num_bits - 1] of the value is 1, the expression of the encoder's
    assertion is nonzero, and [Read] on the codes that the call wrote, which
    sets that bit, returns the value. *)
Theorem top_bit_elision_sound (vs : list Z) :
  vs <> [] -> Forall Int32.is_uint vs ->
  exists s w0 last_num_bits,
    encode_state vs = Ok s /\
    map call_value (encode_calls vs) = vs /\
    chain (w0, w0) (encode_calls vs) /\
    chain_end (w0, w0) (encode_calls vs) = (last_num_bits, last_num_bits) /\
    forall prev cur next i,
      In (prev, cur, next, i) (encode_calls vs) ->
      top_bit_redundant prev cur next = true ->
      let top := Int32.to_uint (Int32.shl1 (Int32.sub cur 1)) in
      Z.testbit i (cur - 1) = true /\
      (Z.land i top =? 0) = false /\
      forall x R rl,
        ReverseUintStream.Read x
          (ReverseUintStream.mk
             (delta_bits cur next
                ++ field_bits (Int32.sub cur 1) (Z.lxor i top) ++ R)
             prev cur rl) =
        Some (i, ReverseUintStream.mk R cur next rl).
Proof.
  intros Hne Hvs.
  destruct (encode_state_ok vs Hne Hvs)
    as (s & Henc & _ & Hg & Hvals & w0 & c & _ & Hch & Hend & _).
  exists s, w0, c. split; [exact Henc|]. split; [now symmetry|].
  split; [exact Hch|]. split; [exact Hend|].
  intros prev cur next i Hin Ht top.
  rewrite Forall_forall in Hg. pose proof (Hg _ Hin) as Hgc.
  pose proof Hgc as (Hc & Hn & Hd & Hi & Hfit & Htop).
  specialize (Htop Ht).
  assert (Hpos : 0 < cur).
  { unfold top_bit_redundant in Ht. apply andb_true_iff in Ht as [_ Ht].
    now apply Z.ltb_lt in Ht. }
  assert (Etop : top = 2 ^ (cur - 1)).
  { subst top. rewrite sub_exact by int_range. apply shl1_uint. lia. }
  rewrite Etop. split.
  - rewrite <- Htop at 1. apply num_bits_top_bit.
    now destruct (num_bits_log2 i cur Hpos Htop).
  - split; [now apply land_top_bit|].
    intros x R rl. rewrite sub_exact by int_range.
    rewrite field_bits_lxor_top by assumption.
    pose proof (Read_symbol prev cur next i rl R x Hgc ltac:(lia)) as Hr.
    unfold value_bits in Hr. rewrite Ht in Hr. exact Hr.
Qed.

Lemma top_bit_elision_sound_witness :
  exists s w0 last_num_bits,
    encode_state [5] = Ok s /\
    map call_value (encode_calls [5]) = [5] /\
    chain (w0, w0) (encode_calls [5]) /\
    chain_end (w0, w0) (encode_calls [5]) = (last_num_bits, last_num_bits) /\
    forall prev cur next i,
      In (prev, cur, next, i) (encode_calls [5]) ->
      top_bit_redundant prev cur next = true ->
      let top := Int32.to_uint (Int32.shl1 (Int32.sub cur 1)) in
      Z.testbit i (cur - 1) = true /\
      (Z.land i top =? 0) = false /\
      forall x R rl,
        ReverseUintStream.Read x
          (ReverseUintStream.mk
             (delta_bits cur next
                ++ field_bits (Int32.sub cur 1) (Z.lxor i top) ++ R)
             prev cur rl) =
        Some (i, ReverseUintStream.mk R cur next rl).
Proof.
  apply (top_bit_elision_sound [5]).
  - discriminate.
  - apply all_uint_Forall. vm_compute. reflexivity.
Defined.

(** C7: for every nonempty input the first width [w0] is the first width
    that [ComputeNumBits] plans for the first buffer flushed (the first 64
    values, or all of them when they are fewer); the encoded stream starts
    with [w0] in 5 bits when [w0 < 31], and with 31 in 5 bits followed by one
    bit holding [w0 - 31] when [w0] is 31 or 32; and the constructor of
    [ReverseUintStream] on the bytes of [Code()] consumes exactly that
    prelude and sets [prev_num_bits_ = cur_num_bits_ = w0], with
    [zero_runlength_ = -1]. *)
Theorem prelude_law (vs : list Z) :
  vs <> [] -> Forall Int32.is_uint vs ->
  exists s code w0 R,
    encode_state vs = Ok s /\ UintStream.Code s = Ok code /\
    w0 = nth 0 (UintStream.ComputeNumBits
                  (UintStream.mk (firstn 64 vs) 0 BitStream.empty false false 0)) 0 /\
    (exists next i rest, encode_calls vs = (w0, w0, next, i) :: rest) /\
    ReverseBitStream.make code =
      (if w0 <? 31 then field_bits 5 w0
       else field_bits 5 31 ++ field_bits 1 (w0 - 31)) ++ R /\
    ReverseUintStream.make code = inr (ReverseUintStream.mk R w0 w0 (-1)).
Proof.
  intros Hne Hvs.
  destruct (encode_state_ok vs Hne Hvs) as (s & Henc & Hfin).
  destruct (encoder_final_code vs _ s Hfin)
    as (w0 & R & [Hw0 Hw0p] & Hch & Hcode & Hcne & Hbits).
  destruct Hfin as (_ & _ & Hvals & _).
  exists s, (BitStream.Code (UintStream.bit_stream_ s)), w0, (chain_bits (encode_calls vs) ++ R).
  split; [exact Henc|]. split; [exact Hcode|]. split.
  { rewrite ComputeNumBits_plan.
    - cbn [UintStream.buffer_ UintStream.most_recent_num_bits_].
      now rewrite nth_0_hd.
    - cbn [UintStream.buffer_]. rewrite <- (firstn_skipn 64 vs) in Hvs.
      now apply Forall_app in Hvs as [Hvs _].
    - cbn [UintStream.most_recent_num_bits_]. int_range. }
  split.
  { apply (chain_head (w0, w0)); [exact Hch|].
    intros E. rewrite E in Hvals. now subst vs. }
  split; [exact Hbits|].
  apply make_prelude; assumption.
Qed.

Lemma prelude_law_witness :
  exists s code w0 R,
    encode_state [4294967295; 0] = Ok s /\ UintStream.Code s = Ok code /\
    w0 = nth 0 (UintStream.ComputeNumBits
                  (UintStream.mk (firstn 64 [4294967295; 0]) 0 BitStream.empty
                     false false 0)) 0 /\
    (exists next i rest, encode_calls [4294967295; 0] = (w0, w0, next, i) :: rest) /\
    ReverseBitStream.make code =
      (if w0 <? 31 then field_bits 5 w0
       else field_bits 5 31 ++ field_bits 1 (w0 - 31)) ++ R /\
    ReverseUintStream.make code = inr (ReverseUintStream.mk R w0 w0 (-1)).
Proof.
  apply (prelude_law [4294967295; 0]).
  - discriminate.
  - apply all_uint_Forall. vm_compute. reflexivity.
Defined.

(** C8: for every [int32_t] value [s], the argument that [IntStream::Write]
    hands to [UintStream::Write] is the zig-zag code [s >= 0 ? 2s : -(2s) - 1]
    (the 32-bit wrap-around of the intermediate products does not change it),
    it lies in [0, 2^32 - 1], and the map that [ReverseIntStream::Read] applies
    to what [ReverseUintStream::Read] returns takes it back to [s]; so
    [IntStream::Write(s)], [Flush], and one [ReverseIntStream::Read] on the
    bytes of [Code()] return [s]. *)
Theorem zigzag_roundtrip (s : Z) :
  Int32.is_int s ->
  let u := IntStream.zigzag s in
  (forall e, IntStream.Write s e = UintStream.Write u e) /\
  u = (if 0 <=? s then 2 * s else - (2 * s) - 1) /\
  0 <= u <= 2 ^ 32 - 1 /\
  ReverseIntStream.unzigzag u = s /\
  (forall x d d', ReverseUintStream.Read x d = Some (u, d') ->
                  ReverseIntStream.Read x d = Some (s, d')) /\
  exists e code d,
    IntStream.Write s UintStream.init = Ok e /\
    bind (UintStream.Flush e) UintStream.Code = Ok code /\
    ReverseIntStream.make code = inr d /\
    forall x, exists d', ReverseIntStream.Read x d = Some (s, d').
Proof.
  intros H u.
  assert (Hu : Int32.is_uint u) by now apply zigzag_is_uint.
  assert (Hread : forall x d d', ReverseUintStream.Read x d = Some (u, d') ->
                                 ReverseIntStream.Read x d = Some (s, d')).
  { intros x d d' Hr. unfold ReverseIntStream.Read. rewrite Hr.
    subst u. now rewrite unzigzag_zigzag. }
  split; [reflexivity|]. split; [now apply zigzag_value|].
  split; [int_range|]. split; [now apply unzigzag_zigzag|]. split; [exact Hread|].
  assert (Henc : forall x, exists code,
             bind (UintStream.Flush (UintStream.mk [u] 0 BitStream.empty false false 0))
                  UintStream.Code = Ok code /\
             decode 1 x code = Some [u]).
  { intros x. apply (roundtrip_below_int_range [u] x);
      [discriminate | now constructor | simpl; int_range]. }
  destruct (Henc (fun _ => 0)) as (code & Hcode & Hdec).
  unfold decode in Hdec.
  destruct (ReverseUintStream.make code) as [|d] eqn:Hmake; [discriminate|].
  exists (UintStream.mk [u] 0 BitStream.empty false false 0), code, d.
  split; [reflexivity|]. split; [exact Hcode|]. split; [exact Hmake|].
  intros x. destruct (Henc (fun _ => x)) as (code' & Hcode' & Hdec').
  rewrite Hcode in Hcode'. injection Hcode' as <-.
  unfold decode in Hdec'. rewrite Hmake in Hdec'.
  unfold read_all in Hdec'. rewrite read_n_S in Hdec'. cbv beta in Hdec'.
  destruct (ReverseUintStream.Read x d) as [[v d']|] eqn:Hr; [|discriminate].
  cbn [read_n option_map fst] in Hdec'. injection Hdec' as ->.
  exists d'. now apply Hread.
Qed.

Lemma zigzag_roundtrip_witness :
  IntStream.zigzag (-2147483648) = 4294967295 /\
  ReverseIntStream.unzigzag (IntStream.zigzag (-2147483648)) = -2147483648.
Proof.
  split; [reflexivity|].
  apply (zigzag_roundtrip (-2147483648)). vm_compute. split; [discriminate | reflexivity].
Defined.

(** C10: in every run, whatever its length, the calls of [WriteCode] are
    made once per value, in order, and the bit stream is the prelude followed
    by what these calls emit (for a call of nonzero width, the width-delta
    code of its next width, then its value bits).  The next width that one
    call announces is the current width of the call after it, also when the
    two calls belong to different calls of [FlushSome]; the current width of
    the first is the previous width of the second. *)
Theorem widths_consistent_across_flushes (vs : list Z) :
  vs <> [] -> Forall Int32.is_uint vs ->
  exists s w0,
    encode_state vs = Ok s /\
    UintStream.bit_stream_ s =
      BitStream.Flush (prelude_bits w0 ++ chain_bits (encode_calls vs)) /\
    map call_value (encode_calls vs) = vs /\
    forall k c1 c2,
      nth_error (encode_calls vs) k = Some c1 ->
      nth_error (encode_calls vs) (S k) = Some c2 ->
      call_next c1 = call_cur c2 /\ call_cur c1 = call_prev c2.
Proof.
  intros Hne Hvs.
  destruct (encode_state_ok vs Hne Hvs)
    as (s & Henc & _ & _ & Hvals & w0 & c & _ & Hch & _ & Hbits).
  exists s, w0. split; [exact Henc|]. split; [exact Hbits|].
  split; [now symmetry|].
  intros k c1 c2. now apply (chain_adjacent _ (w0, w0)).
Qed.

Lemma widths_consistent_across_flushes_witness :
  let vs := repeat 0 31 ++ [3; 70000] ++ repeat 9 40 in
  nth_error (encode_calls vs) 31 = Some (15, 16, 17, 3) /\
  nth_error (encode_calls vs) 32 = Some (16, 17, 16, 70000) /\
  exists s w0,
    encode_state vs = Ok s /\
    UintStream.bit_stream_ s =
      BitStream.Flush (prelude_bits w0 ++ chain_bits (encode_calls vs)) /\
    map call_value (encode_calls vs) = vs /\
    forall k c1 c2,
      nth_error (encode_calls vs) k = Some c1 ->
      nth_error (encode_calls vs) (S k) = Some c2 ->
      call_next c1 = call_cur c2 /\ call_cur c1 = call_prev c2.
Proof.
  split; [vm_compute; reflexivity|]. split; [vm_compute; reflexivity|].
  apply (widths_consistent_across_flushes (repeat 0 31 ++ [3; 70000] ++ repeat 9 40)).
  - discriminate.
  - apply all_uint_Forall. vm_compute. reflexivity.
Defined.

(** ** An input of zeros is encoded as one zero run *)

Lemma zero_value_not_redundant prev cur next :
  good_call (prev, cur, next, 0) -> 0 < cur ->
  top_bit_redundant prev cur next = false.
Proof.
  intros (_ & _ & _ & _ & _ & Htop) Hc.
  destruct (top_bit_redundant prev cur next); [|reflexivity].
  specialize (Htop eq_refl). change (int_math.num_bits 0) with 0 in Htop. lia.
Qed.

(** after a symbol of value 0 whose width is positive and not below the
    width before it, the widths of a run of zeros can only go up *)
Lemma chain_rising cs : forall prev cur,
  cs <> [] -> Forall good_call cs -> Forall (fun c => call_value c = 0) cs ->
  chain (prev, cur) cs -> prev <= cur -> 0 < cur ->
  fst (chain_end (prev, cur) cs) < snd (chain_end (prev, cur) cs).
Proof.
  induction cs as [|[[[p c] n] i] cs IH]; intros prev cur Hne Hg Hz Hch Hle Hpos;
    [congruence|].
  inversion Hg as [|? ? Hg1 Hg2]; inversion Hz as [|? ? Hz1 Hz2]; subst.
  unfold call_value in Hz1. cbn [snd] in Hz1. subst i.
  destruct Hch as [E Hch]. injection E as <- <-.
  pose proof (zero_value_not_redundant prev cur n Hg1 Hpos) as Ht.
  unfold top_bit_redundant in Ht.
  destruct (Z.leb_spec prev cur) as [_|]; [|lia].
  destruct (Z.ltb_spec 0 cur) as [_|]; [|lia].
  destruct (Z.leb_spec n cur) as [|Hn]; [discriminate|].
  cbn [chain_end]. destruct cs as [|c' cs'].
  - cbn [chain_end fst snd]. exact Hn.
  - apply IH; [discriminate | assumption | assumption | assumption | lia | lia].
Qed.

Lemma zero_values_zero_width cs : forall prev,
  Forall good_call cs -> Forall (fun c => call_value c = 0) cs ->
  chain (prev, 0) cs ->
  snd (chain_end (prev, 0) cs) <= fst (chain_end (prev, 0) cs) ->
  Forall (fun c => call_cur c = 0) cs.
Proof.
  induction cs as [|[[[p c] n] i] cs IH]; intros prev Hg Hz Hch Hend; [constructor|].
  inversion Hg as [|? ? Hg1 Hg2]; inversion Hz as [|? ? Hz1 Hz2]; subst.
  destruct Hch as [E Hch]. injection E as <- <-.
  constructor; [reflexivity|]. cbn [chain_end] in Hend.
  destruct cs as [|c' cs']; [constructor|].
  destruct Hg1 as (_ & Hn & Hd & _).
  destruct (Z.eq_dec n 0) as [->|Hn0].
  - apply (IH 0); assumption.
  - pose proof (chain_rising (c' :: cs') 0 n ltac:(discriminate) Hg2 Hz2 Hch
                  ltac:(lia) ltac:(lia)). lia.
Qed.

Lemma encode_zeros (N : nat) : (0 < N)%nat -> Z.of_nat N < Int32.modulus ->
  encode (repeat 0 N) =
  Ok (BitStream.Code
        (BitStream.Flush (prelude_bits 0 ++ zero_run_bits (Z.of_nat N)))).
Proof.
  intros HN Hlt.
  assert (Hne : repeat 0 N <> []) by (destruct N; [lia | discriminate]).
  assert (Hvs : Forall Int32.is_uint (repeat 0 N)).
  { apply Forall_forall. intros v Hv. apply repeat_spec in Hv. subst v. int_range. }
  destruct (encode_state_ok _ Hne Hvs)
    as (s & Henc & Hfl & Hg & Hvals & w0 & c & [Hw0 _] & Hch & Hend & Hbits).
  set (cs := encode_calls (repeat 0 N)) in *.
  assert (Hlen : length cs = N).
  { apply (f_equal (@length Z)) in Hvals. now rewrite repeat_length, length_map in Hvals. }
  assert (Hz : Forall (fun c => call_value c = 0) cs).
  { apply Forall_forall. intros c0 Hc0.
    apply (repeat_spec N 0). rewrite Hvals. now apply in_map. }
  assert (Hcne : cs <> []) by (intros E; rewrite E in Hlen; simpl in Hlen; lia).
  assert (Ew0 : w0 = 0).
  { destruct (Z.eq_dec w0 0) as [|Hw]; [assumption|].
    pose proof (chain_rising cs w0 w0 Hcne Hg Hz Hch ltac:(lia) ltac:(lia)) as Hr.
    rewrite Hend in Hr. cbn [fst snd] in Hr. lia. }
  subst w0.
  assert (Hzw : Forall (fun c => call_cur c = 0) cs).
  { apply (zero_values_zero_width cs 0 Hg Hz Hch). rewrite Hend. cbn [fst snd]. lia. }
  assert (Hemit : emit 0 cs = ([], Z.of_nat N)).
  { rewrite <- (app_nil_r cs). rewrite emit_zero_calls by (try assumption; lia).
    cbn [emit Z.add]. now rewrite Hlen. }
  rewrite Hemit in Hbits. cbn [fst snd app] in Hbits.
  unfold encode. rewrite Henc. cbn [bind]. unfold UintStream.Code.
  rewrite Hfl. cbn [assert bind]. rewrite Hbits. unfold pending_bits.
  destruct (Z.eqb_spec (Z.of_nat N) 0) as [|_]; [lia | reflexivity].
Qed.

(** ** A run of zeros longer than the decoder's [int] *)

Lemma long_run_code :
  BitStream.Code (BitStream.Flush (prelude_bits 0 ++ zero_run_bits 2147483650)) =
  [0; 0; 0; 0; 80; 0; 0; 0; 0].
Proof. vm_compute. reflexivity. Qed.

Lemma long_run_reads x0 x1 :
  exists d0 d1,
    ReverseUintStream.make [0; 0; 0; 0; 80; 0; 0; 0; 0] = inr d0 /\
    ReverseUintStream.Read x0 d0 = Some (0, d1) /\
    ReverseUintStream.zero_runlength_ d1 = -2147483648 /\
    ReverseUintStream.cur_num_bits_ d1 = 0 /\
    ReverseUintStream.Read x1 d1 = None.
Proof.
  eexists. eexists. split; [vm_compute; reflexivity|].
  split; [vm_compute; reflexivity|].
  split; [reflexivity|]. split; [reflexivity|]. vm_compute. reflexivity.
Qed.

(** C1 fails on the input of 2^31 + 2 zeros.  The encoder counts the zeros
    in a [uint32_t] and writes one zero-run code of 63 bits; the stream is
    the nine bytes below.  The first [Read] of the decoder returns the value
    0, but it holds the run length in an [int]: [(1 << 31) + 2] becomes
    [-2^31 + 2] and [zero_runlength_] becomes [-2^31], which means that no
    run is in progress.  The second [Read] then looks for another zero-run
    code in the padding and returns [false]. *)
Theorem decode_long_zero_run :
  let n := Z.to_nat 2147483650 in
  let code := [0; 0; 0; 0; 80; 0; 0; 0; 0] in
  encode (repeat 0 n) = Ok code /\
  (forall x0 x1, exists d0 d1,
      ReverseUintStream.make code = inr d0 /\
      ReverseUintStream.Read x0 d0 = Some (0, d1) /\
      ReverseUintStream.zero_runlength_ d1 = -2147483648 /\
      ReverseUintStream.cur_num_bits_ d1 = 0 /\
      ReverseUintStream.Read x1 d1 = None) /\
  forall x_uninit, decode n x_uninit code = None.
Proof.
  intros n code. split; [|split].
  - rewrite encode_zeros by (subst n; rewrite ?modulus_eq; lia).
    replace (Z.of_nat n) with 2147483650 by (subst n; lia).
    now rewrite long_run_code.
  - intros x0 x1. apply long_run_reads.
  - intros x. destruct (long_run_reads (x 0%nat) (x 1%nat))
      as (d0 & d1 & Hm & Hr0 & _ & _ & Hr1).
    unfold decode. fold code in Hm. rewrite Hm. unfold read_all.
    assert (Hn : exists m, n = S (S m)).
    { exists (n - 2)%nat. subst n. lia. }
    destruct Hn as [m ->]. rewrite read_n_S, Hr0, read_n_S. cbv beta.
    rewrite Hr1. reflexivity.
Qed.

(** C6 fails for a run of [k = 2^31 + 2] zero-width symbols.  The encoder
    writes the code the claim describes: with [h = 31], the field [1 << 31]
    in 32 bits, then [k mod 2^31 = 2] in 31 bits, 63 bits in all.  The
    decoder reads [h = 31] and the field 2, but stores [(1 << 31) + 2] in an
    [int]: [zero_runlength_] becomes [-2^31] instead of [k - 2], so the run
    ends after one symbol and the next [Read] looks for a new zero-run code
    in the bits that follow (and returns [false] when there are none). *)
Theorem zero_run_code_overflows_int :
  let k := 2147483650 in
  (forall s, UintStream.num_pending_zeros_ s = k ->
     exists s', UintStream.FlushPendingZeros s = Ok s' /\
       UintStream.bit_stream_ s' =
         UintStream.bit_stream_ s
           ++ field_bits 32 (2 ^ 31) ++ field_bits 31 (k mod 2 ^ 31)) /\
  length (zero_run_bits k) = 63%nat /\
  (forall x prev R,
     ReverseUintStream.Read x
       (ReverseUintStream.mk (zero_run_bits k ++ R) prev 0 (-1)) =
     Some (0, ReverseUintStream.mk R 0 0 (-2147483648))) /\
  (forall x, ReverseUintStream.Read x
               (ReverseUintStream.mk [] 0 0 (-2147483648)) = None).
Proof.
  intros k. split; [|split; [|split]].
  - intros s Hk. rewrite FlushPendingZeros_ok by (rewrite Hk; subst k; int_range).
    eexists. split; [reflexivity|]. rewrite Hk. reflexivity.
  - vm_compute. reflexivity.
  - intros x prev R.
    unfold ReverseUintStream.Read, ReverseUintStream.read_next_num_bits.
    cbn [ReverseUintStream.bit_reader_ ReverseUintStream.prev_num_bits_
         ReverseUintStream.cur_num_bits_ ReverseUintStream.zero_runlength_].
    change (negb (0 =? 0)) with false. change (0 <=? -1) with false. cbv iota.
    change (zero_run_bits k)
      with (field_bits (31 + 1) (2 ^ 31) ++ field_bits 31 (2147483650 mod 2 ^ 31)).
    rewrite field_bits_unary by lia. rewrite <- !app_assoc. cbn [app].
    rewrite read_zeros_unary by (try lia; change (Z.to_nat 31) with 31%nat; lia).
    change (0 + Z.of_nat (Z.to_nat 31)) with 31.
    rewrite Read_field by lia.
    change (Int32.to_int
              (Int32.uadd (Int32.to_uint (Int32.shl1 31))
                 ((2147483650 mod 2 ^ 31) mod 2 ^ 31))) with (-2147483646).
    change (Int32.sub (-2147483646) 2) with (-2147483648).
    change (-2147483646 =? 1) with false. cbv iota.
    rewrite top_bit_redundant_zero, Read_0. reflexivity.
  - intros x. vm_compute. reflexivity.
Qed.

(** ** Supplements: the same laws below the range of [int] *)

(** X1: the planned width at a flush boundary, in terms of [ComputeNumBits]:
    after [FlushSome(32)] on a buffer of 64 values, whatever values [ext] are
    written later, the first width planned for the rest of the buffer is the
    width that the first plan gave to that symbol. *)
Lemma ComputeNumBits_resume (s : UintStream.t) (ext : list Z) :
  Forall Int32.is_uint (UintStream.buffer_ s) -> Forall Int32.is_uint ext ->
  0 <= UintStream.most_recent_num_bits_ s <= 32 ->
  length (UintStream.buffer_ s) = 64%nat ->
  let W := UintStream.ComputeNumBits s in
  nth 0 (UintStream.ComputeNumBits
           (UintStream.mk (skipn 32 (UintStream.buffer_ s) ++ ext) (nth 31 W 0)
              (UintStream.bit_stream_ s) true (UintStream.flushed_ s)
              (UintStream.num_pending_zeros_ s))) 0 =
  nth 32 W 0.
Proof.
  intros Hb He Hmr Hlen W. subst W.
  rewrite (ComputeNumBits_plan s) by (try assumption; int_range).
  pose proof (plan_nth_bounds (UintStream.most_recent_num_bits_ s)
                (UintStream.buffer_ s) 31 Hb ltac:(lia) ltac:(lia)) as H31.
  rewrite ComputeNumBits_plan.
  - cbn [UintStream.buffer_ UintStream.most_recent_num_bits_].
    rewrite nth_0_hd.
    apply (plan_resume_firstn _ _ 32%nat); [assumption | assumption | lia | lia | lia].
  - cbn [UintStream.buffer_]. apply Forall_app. split; [now apply skipn_Forall | assumption].
  - cbn [UintStream.most_recent_num_bits_]. int_range.
Qed.

Lemma ComputeNumBits_resume_witness :
  let s := UintStream.mk (repeat 0 31 ++ [3; 70000] ++ repeat 9 31) 0
             BitStream.empty false false 0 in
  let W := UintStream.ComputeNumBits s in
  nth 31 W 0 = 16 /\ nth 32 W 0 = 17 /\
  nth 0 (UintStream.ComputeNumBits
           (UintStream.mk (skipn 32 (UintStream.buffer_ s) ++ [1; 2; 3]) (nth 31 W 0)
              (UintStream.bit_stream_ s) true (UintStream.flushed_ s)
              (UintStream.num_pending_zeros_ s))) 0 =
  nth 32 W 0.
Proof.
  intros s W. split; [vm_compute; reflexivity|]. split; [vm_compute; reflexivity|].
  apply (ComputeNumBits_resume s [1; 2; 3]).
  - apply all_uint_Forall. vm_compute. reflexivity.
  - apply all_uint_Forall. vm_compute. reflexivity.
  - cbn. lia.
  - vm_compute. reflexivity.
Defined.

(** X2: the zero-run code of a run of [k < 2^31] zero-width symbols: the encoder
    writes [1 << h] in [h + 1] bits and [k mod 2^h] in [h] bits, where
    [h = nb(k) - 1 = floor(log2 k)], that is [2h + 1] bits; from the state
    in which a run starts, [k] calls of [Read] consume exactly that code,
    return [k] zeros and leave the decoder before a symbol of width 1. *)
Lemma zero_run_law_below_int_range (k : Z) :
  1 <= k < Int32.half ->
  let h := int_math.num_bits k - 1 in
  h = Z.log2 k /\
  (forall s, UintStream.num_pending_zeros_ s = k ->
     UintStream.FlushPendingZeros s =
     Ok (set_output s
           (UintStream.bit_stream_ s
              ++ field_bits (h + 1) (2 ^ h) ++ field_bits h (k mod 2 ^ h)) 0)) /\
  Z.of_nat (length (zero_run_bits k)) = 2 * h + 1 /\
  forall x prev R,
    read_n (Z.to_nat k) x
      (ReverseUintStream.mk (zero_run_bits k ++ R) prev 0 (-1)) =
    Some (repeat 0 (Z.to_nat k), ReverseUintStream.mk R 0 1 (-1)).
Proof.
  intros Hk h. pose proof (num_bits_pos k ltac:(lia)) as Hp.
  split; [|split; [|split]].
  - subst h. unfold int_math.num_bits in *. destruct (0 <? k); lia.
  - intros s Hs. rewrite FlushPendingZeros_ok by (rewrite Hs; int_range).
    now rewrite Hs.
  - unfold zero_run_bits. fold h. rewrite length_app, !field_bits_length. lia.
  - intros x prev R. now apply read_n_zero_run.
Qed.

Lemma zero_run_law_below_int_range_witness :
  let k := 1000 in
  let h := int_math.num_bits k - 1 in
  h = Z.log2 k /\
  (forall s, UintStream.num_pending_zeros_ s = k ->
     UintStream.FlushPendingZeros s =
     Ok (set_output s
           (UintStream.bit_stream_ s
              ++ field_bits (h + 1) (2 ^ h) ++ field_bits h (k mod 2 ^ h)) 0)) /\
  Z.of_nat (length (zero_run_bits k)) = 2 * h + 1 /\
  forall x prev R,
    read_n (Z.to_nat k) x
      (ReverseUintStream.mk (zero_run_bits k ++ R) prev 0 (-1)) =
    Some (repeat 0 (Z.to_nat k), ReverseUintStream.mk R 0 1 (-1)).
Proof.
  intros k h. apply (zero_run_law_below_int_range 1000).
  vm_compute. split; [congruence | reflexivity].
Defined.

(** * Further properties of the coder *)

(** ** The decoder on arbitrary input *)

Lemma bits_value_bound (bs : list bool) :
  0 <= bits_value bs < 2 ^ Z.of_nat (length bs).
Proof.
  induction bs as [|b r IH]; [cbn; lia|].
  cbn [bits_value length]. rewrite Nat2Z.inj_succ, Z.pow_succ_r by lia.
  destruct b; cbn [Z.b2z]; lia.
Qed.

Lemma Read_bound n r v r' : 0 <= n ->
  ReverseBitStream.Read n r = Some (v, r') ->
  0 <= v < 2 ^ n /\ r' = skipn (Z.to_nat n) r /\ (Z.to_nat n <= length r)%nat.
Proof.
  intros Hn. unfold ReverseBitStream.Read.
  destruct (Z.to_nat n <=? length r)%nat eqn:E; [|discriminate].
  intros H. injection H as <- <-. apply Nat.leb_le in E.
  pose proof (bits_value_bound (firstn (Z.to_nat n) r)) as Hb.
  rewrite length_firstn, Nat.min_l, Z2Nat.id in Hb by lia.
  repeat split; lia.
Qed.

Lemma Read_enough n r : (Z.to_nat n <= length r)%nat ->
  ReverseBitStream.Read n r =
  Some (bits_value (firstn (Z.to_nat n) r), skipn (Z.to_nat n) r).
Proof.
  intros H. unfold ReverseBitStream.Read.
  apply Nat.leb_le in H. now rewrite H.
Qed.

(** the loop that counts the leading zeros of a run-length code returns at
    most 31 *)
Lemma read_zeros_bound : forall fuel j r z r',
  0 <= j ->
  ReverseUintStream.read_zeros fuel j r = Some (z, r') -> j <= z <= 31.
Proof.
  induction fuel as [|fuel IH]; intros j r z r' Hj; cbn [ReverseUintStream.read_zeros];
    [discriminate|].
  destruct (ReverseBitStream.Read 1 r) as [[bit r1]|] eqn:E; [|discriminate].
  destruct (31 <? j) eqn:E31; [discriminate|]. apply Z.ltb_ge in E31.
  destruct (bit =? 0).
  - intros H. apply IH in H.
    + rewrite add_exact in H by int_range. lia.
    + rewrite add_exact by int_range. lia.
  - intros H. injection H as <- <-. lia.
Qed.

Lemma pow2_num_bits v n : 0 <= v -> int_math.num_bits v <= n -> v < 2 ^ n.
Proof.
  intros Hv Hn. destruct (Z.eq_dec v 0) as [->|Hne].
  - pose proof (num_bits_nonneg 0). apply Z.pow_pos_nonneg; lia.
  - pose proof (num_bits_spec v ltac:(lia)) as [_ H].
    eapply Z.lt_le_trans; [exact H|]. apply Z.pow_le_mono_r; lia.
Qed.

(** the value read with its top bit elided has exactly [c] bits *)
Lemma num_bits_lor_top v c : 0 < c -> 0 <= v < 2 ^ (c - 1) ->
  0 <= Z.lor v (2 ^ (c - 1)) /\ int_math.num_bits (Z.lor v (2 ^ (c - 1))) = c.
Proof.
  intros Hc Hv.
  assert (Hp : 0 < 2 ^ (c - 1)) by (apply Z.pow_pos_nonneg; lia).
  assert (H0 : 0 <= Z.lor v (2 ^ (c - 1))) by (apply Z.lor_nonneg; lia).
  split; [exact H0|].
  assert (Hpos : 0 < Z.lor v (2 ^ (c - 1))).
  { destruct (Z.eq_dec (Z.lor v (2 ^ (c - 1))) 0) as [E|]; [|lia].
    apply Z.lor_eq_0_iff in E. lia. }
  unfold int_math.num_bits. apply Z.ltb_lt in Hpos as Hb. rewrite Hb.
  rewrite Z.log2_lor by lia. rewrite Z.log2_pow2 by lia.
  assert (Z.log2 v <= c - 1).
  { destruct (Z.eq_dec v 0) as [->|]; [cbn; lia|].
    assert (Z.log2 v < c - 1) by (apply Z.log2_lt_pow2; lia). lia. }
  lia.
Qed.

(** the big if/else of [Read] keeps the width in [0, 32] and moves it by at
    most one *)
Lemma read_next_num_bits_bound x s next r rl :
  0 <= ReverseUintStream.cur_num_bits_ s <= 32 ->
  ReverseUintStream.read_next_num_bits x s = Some (next, r, rl) ->
  0 <= next <= 32 /\ -1 <= next - ReverseUintStream.cur_num_bits_ s <= 1.
Proof.
  intros Hc. unfold ReverseUintStream.read_next_num_bits.
  destruct (ReverseUintStream.cur_num_bits_ s =? 0) eqn:E0; cbn [negb].
  - apply Z.eqb_eq in E0.
    destruct (0 <=? ReverseUintStream.zero_runlength_ s).
    + intros H. injection H as <- _ _. destruct (_ =? 0); lia.
    + destruct (ReverseUintStream.read_zeros 33 0 (ReverseUintStream.bit_reader_ s))
        as [[z r1]|]; [|discriminate].
      destruct (ReverseBitStream.Read z r1) as [[y r2]|];
        intros H; injection H as <- _ _; destruct (_ =? 1); lia.
  - apply Z.eqb_neq in E0.
    destruct (ReverseBitStream.Read 1 (ReverseUintStream.bit_reader_ s))
      as [[bit1 r1]|]; [|discriminate].
    destruct (bit1 =? 0).
    + intros H. injection H as <- _ _. lia.
    + destruct (ReverseBitStream.Read 1 r1) as [[bit2 r2]|]; [|discriminate].
      destruct (negb (bit2 =? 0)).
      * rewrite add_exact by int_range.
        destruct (32 <? _) eqn:E32; [discriminate|]. apply Z.ltb_ge in E32.
        intros H. injection H as <- _ _. lia.
      * rewrite sub_exact by int_range.
        destruct (_ <? 0) eqn:En; [discriminate|]. apply Z.ltb_ge in En.
        intros H. injection H as <- _ _. lia.
Qed.

(** a successful [Read] is a call that [WriteCode] accepts *)
Lemma Read_good_call x s v s' :
  0 <= ReverseUintStream.cur_num_bits_ s <= 32 ->
  ReverseUintStream.Read x s = Some (v, s') ->
  ReverseUintStream.prev_num_bits_ s' = ReverseUintStream.cur_num_bits_ s /\
  good_call (ReverseUintStream.prev_num_bits_ s, ReverseUintStream.cur_num_bits_ s,
             ReverseUintStream.cur_num_bits_ s', v).
Proof.
  intros Hc. unfold ReverseUintStream.Read.
  destruct (ReverseUintStream.read_next_num_bits x s) as [[[next r] rl]|] eqn:En;
    [|discriminate].
  apply read_next_num_bits_bound in En; [|exact Hc].
  destruct En as (Hn & Hd).
  destruct (top_bit_redundant _ _ next) eqn:Et.
  - assert (Hpos : 0 < ReverseUintStream.cur_num_bits_ s).
    { unfold top_bit_redundant in Et. apply andb_true_iff in Et as [_ Et].
      now apply Z.ltb_lt in Et. }
    rewrite sub_exact by int_range. rewrite shl1_uint by lia.
    destruct (ReverseBitStream.Read _ _) as [[v0 r2]|] eqn:Er; [|discriminate].
    apply Read_bound in Er; [|lia]. destruct Er as (Hv & _ & _).
    intros H. injection H as <- <-.
    cbn [ReverseUintStream.prev_num_bits_ ReverseUintStream.cur_num_bits_].
    destruct (num_bits_lor_top v0 _ Hpos Hv) as [H0 Hnb].
    split; [reflexivity|].
    unfold good_call. rewrite Hnb. repeat split; lia.
  - destruct (ReverseBitStream.Read _ _) as [[v0 r2]|] eqn:Er; [|discriminate].
    apply Read_bound in Er; [|lia]. destruct Er as (Hv & _ & _).
    intros H. injection H as <- <-.
    cbn [ReverseUintStream.prev_num_bits_ ReverseUintStream.cur_num_bits_].
    split; [reflexivity|].
    unfold good_call. repeat split; try lia.
    + apply num_bits_le; lia.
    + rewrite Et. discriminate.
Qed.


Lemma good_call_uint c : good_call c -> Int32.is_uint (call_value c).
Proof.
  destruct c as [[[p cu] n] i]. unfold good_call, call_value. cbn [snd].
  intros (Hc & _ & _ & Hi & Hnb & _).
  assert (i < 2 ^ 32).
  { eapply Z.lt_le_trans; [apply (pow2_num_bits i cu); lia|].
    apply Z.pow_le_mono_r; lia. }
  unfold Int32.is_uint, Int32.modulus. lia.
Qed.

(** the constructor on a nonempty byte range *)
Lemma make_nonempty code : code <> [] ->
  exists s, ReverseUintStream.make code = inr s /\
    0 <= ReverseUintStream.cur_num_bits_ s <= 32 /\
    ReverseUintStream.prev_num_bits_ s = ReverseUintStream.cur_num_bits_ s /\
    ReverseUintStream.zero_runlength_ s = -1 /\
    ReverseUintStream.bit_reader_ s =
      skipn (if ReverseUintStream.cur_num_bits_ s <? 31 then 5 else 6)
            (ReverseBitStream.make code).
Proof.
  intros Hne. destruct code as [|b rest]; [congruence|].
  unfold ReverseUintStream.make.
  set (bits := ReverseBitStream.make (b :: rest)).
  assert (Hlen : (8 <= length bits)%nat).
  { subst bits. unfold ReverseBitStream.make. cbn [flat_map].
    rewrite length_app. unfold ReverseBitStream.byte_bits.
    rewrite field_bits_length. lia. }
  rewrite (Read_enough 5 bits) by (change (Z.to_nat 5) with 5%nat; lia).
  pose proof (bits_value_bound (firstn (Z.to_nat 5) bits)) as Hv.
  rewrite length_firstn, Nat.min_l in Hv by (change (Z.to_nat 5) with 5%nat; lia).
  change (2 ^ Z.of_nat (Z.to_nat 5)) with 32 in Hv.
  set (w := bits_value (firstn (Z.to_nat 5) bits)) in *.
  destruct (31 <=? w) eqn:E31.
  - apply Z.leb_le in E31. assert (Hw : w = 31) by lia.
    rewrite (Read_enough 1) by (rewrite length_skipn;
      change (Z.to_nat 1) with 1%nat; change (Z.to_nat 5) with 5%nat; lia).
    pose proof (bits_value_bound (firstn (Z.to_nat 1) (skipn (Z.to_nat 5) bits))) as He.
    rewrite length_firstn, Nat.min_l in He by (rewrite length_skipn;
      change (Z.to_nat 1) with 1%nat; change (Z.to_nat 5) with 5%nat; lia).
    change (2 ^ Z.of_nat (Z.to_nat 1)) with 2 in He.
    set (e := bits_value (firstn (Z.to_nat 1) (skipn (Z.to_nat 5) bits))) in *.
    eexists. split; [reflexivity|].
    cbn [ReverseUintStream.cur_num_bits_ ReverseUintStream.prev_num_bits_
         ReverseUintStream.zero_runlength_ ReverseUintStream.bit_reader_].
    assert (Hn : Int32.to_int (Int32.uadd w e) = w + e).
    { unfold Int32.uadd. rewrite to_uint_id by int_range.
      apply to_int_id. int_range. }
    rewrite Hn. repeat split; try lia.
    assert (E : (w + e <? 31) = false) by (apply Z.ltb_ge; lia).
    rewrite E, skipn_skipn. reflexivity.
  - apply Z.leb_gt in E31.
    eexists. split; [reflexivity|].
    cbn [ReverseUintStream.cur_num_bits_ ReverseUintStream.prev_num_bits_
         ReverseUintStream.zero_runlength_ ReverseUintStream.bit_reader_].
    rewrite to_int_id by int_range. repeat split; try lia.
    assert (E : (w <? 31) = true) by (apply Z.ltb_lt; lia).
    rewrite E. reflexivity.
Qed.

Lemma Read_length n r v r' : 0 <= n ->
  ReverseBitStream.Read n r = Some (v, r') ->
  Z.of_nat (length r) = Z.of_nat (length r') + n.
Proof.
  intros Hn H. apply Read_bound in H; [|exact Hn].
  destruct H as (_ & -> & Hl). rewrite length_skipn. lia.
Qed.

Lemma read_next_num_bits_length x s next r rl :
  0 < ReverseUintStream.cur_num_bits_ s <= 32 ->
  ReverseUintStream.read_next_num_bits x s = Some (next, r, rl) ->
  Z.of_nat (length (ReverseUintStream.bit_reader_ s)) =
  Z.of_nat (length r)
  + (if next =? ReverseUintStream.cur_num_bits_ s then 1 else 2).
Proof.
  intros Hc. unfold ReverseUintStream.read_next_num_bits.
  assert (E0 : (ReverseUintStream.cur_num_bits_ s =? 0) = false)
    by (apply Z.eqb_neq; lia).
  rewrite E0. cbn [negb].
  destruct (ReverseBitStream.Read 1 (ReverseUintStream.bit_reader_ s))
    as [[bit1 r1]|] eqn:E1; [|discriminate].
  apply Read_length in E1; [|lia].
  destruct (bit1 =? 0).
  - intros H. injection H as <- <- _. rewrite Z.eqb_refl. exact E1.
  - destruct (ReverseBitStream.Read 1 r1) as [[bit2 r2]|] eqn:E2; [|discriminate].
    apply Read_length in E2; [|lia].
    destruct (negb (bit2 =? 0)).
    + rewrite add_exact by int_range.
      destruct (32 <? _); [discriminate|].
      intros H. injection H as <- <- _.
      assert (E : (ReverseUintStream.cur_num_bits_ s + 1
                   =? ReverseUintStream.cur_num_bits_ s) = false)
        by (apply Z.eqb_neq; lia).
      rewrite E. lia.
    + rewrite sub_exact by int_range.
      destruct (_ <? 0); [discriminate|].
      intros H. injection H as <- <- _.
      assert (E : (ReverseUintStream.cur_num_bits_ s - 1
                   =? ReverseUintStream.cur_num_bits_ s) = false)
        by (apply Z.eqb_neq; lia).
      rewrite E. lia.
Qed.

Lemma read_zeros_reject m R : forall fuel j,
  0 <= j -> 32 <= j + Z.of_nat m ->
  ReverseUintStream.read_zeros fuel j (repeat false m ++ R) = None.
Proof.
  induction m as [|m IH]; intros fuel j Hj Hm.
  - cbn [repeat app]. destruct fuel as [|fuel]; [reflexivity|].
    cbn [ReverseUintStream.read_zeros].
    destruct (ReverseBitStream.Read 1 R) as [[bit r]|]; [|reflexivity].
    assert (E : (31 <? j) = true) by (apply Z.ltb_lt; lia). now rewrite E.
  - destruct fuel as [|fuel]; [reflexivity|].
    cbn [ReverseUintStream.read_zeros repeat app]. rewrite Read_1.
    destruct (31 <? j) eqn:E; [reflexivity|]. apply Z.ltb_ge in E.
    cbn [Z.b2z]. rewrite Z.eqb_refl. rewrite add_exact by int_range.
    apply IH; lia.
Qed.

(** X3: the constructor of the decoder succeeds on every nonempty byte
    range: it reads the first width from 5 bits, or from 6 when those 5 bits
    hold 31, and leaves a width in [0, 32] as both the previous and the
    current width, with no zero run in progress. *)
Theorem ctor_accepts_nonempty_code (code : list Z) :
  code <> [] ->
  exists s, ReverseUintStream.make code = inr s /\
    0 <= ReverseUintStream.cur_num_bits_ s <= 32 /\
    ReverseUintStream.prev_num_bits_ s = ReverseUintStream.cur_num_bits_ s /\
    ReverseUintStream.zero_runlength_ s = -1 /\
    ReverseUintStream.bit_reader_ s =
      skipn (if ReverseUintStream.cur_num_bits_ s <? 31 then 5 else 6)
            (ReverseBitStream.make code).
Proof. exact (make_nonempty code). Qed.

Lemma ctor_accepts_nonempty_code_witness :
  exists s, ReverseUintStream.make [-1] = inr s /\
    0 <= ReverseUintStream.cur_num_bits_ s <= 32 /\
    ReverseUintStream.prev_num_bits_ s = ReverseUintStream.cur_num_bits_ s /\
    ReverseUintStream.zero_runlength_ s = -1 /\
    ReverseUintStream.bit_reader_ s =
      skipn (if ReverseUintStream.cur_num_bits_ s <? 31 then 5 else 6)
            (ReverseBitStream.make [-1]).
Proof. apply (ctor_accepts_nonempty_code [-1]). discriminate. Defined.

(** X4: whatever the bits, a [Read] that returns [true] from a width in
    [0, 32] returns a symbol that the encoder could have written: the new
    width is in [0, 32] and within one of the old one, the old width becomes
    the previous width, the value is a [uint32_t] of at most the old width
    in bits, and of exactly that many bits when its top bit was elided. *)
Theorem Read_returns_encodable_symbol (x : Z) (s : ReverseUintStream.t)
    (v : Z) (s' : ReverseUintStream.t) :
  0 <= ReverseUintStream.cur_num_bits_ s <= 32 ->
  ReverseUintStream.Read x s = Some (v, s') ->
  ReverseUintStream.prev_num_bits_ s' = ReverseUintStream.cur_num_bits_ s /\
  0 <= ReverseUintStream.cur_num_bits_ s' <= 32 /\
  -1 <= ReverseUintStream.cur_num_bits_ s' - ReverseUintStream.cur_num_bits_ s <= 1 /\
  Int32.is_uint v /\
  int_math.num_bits v <= ReverseUintStream.cur_num_bits_ s /\
  (top_bit_redundant (ReverseUintStream.prev_num_bits_ s)
     (ReverseUintStream.cur_num_bits_ s) (ReverseUintStream.cur_num_bits_ s') = true ->
   int_math.num_bits v = ReverseUintStream.cur_num_bits_ s).
Proof.
  intros Hc H. destruct (Read_good_call _ _ _ _ Hc H) as [Hp Hg].
  pose proof (good_call_uint _ Hg) as Hu. cbn [call_value snd] in Hu.
  destruct Hg as (H1 & H2 & H3 & H4 & H5 & H6).
  split; [exact Hp|]. split; [lia|]. split; [lia|]. split; [exact Hu|].
  split; [lia | exact H6].
Qed.

Lemma Read_returns_encodable_symbol_witness :
  let s := ReverseUintStream.mk [true; true; true; false; true; false; false] 2 3 (-1) in
  let s' := ReverseUintStream.mk [false; false] 3 4 (-1) in
  ReverseUintStream.Read 0 s = Some (5, s') /\
  (ReverseUintStream.prev_num_bits_ s' = ReverseUintStream.cur_num_bits_ s /\
   0 <= ReverseUintStream.cur_num_bits_ s' <= 32 /\
   -1 <= ReverseUintStream.cur_num_bits_ s' - ReverseUintStream.cur_num_bits_ s <= 1 /\
   Int32.is_uint 5 /\
   int_math.num_bits 5 <= ReverseUintStream.cur_num_bits_ s /\
   (top_bit_redundant (ReverseUintStream.prev_num_bits_ s)
      (ReverseUintStream.cur_num_bits_ s) (ReverseUintStream.cur_num_bits_ s') = true ->
    int_math.num_bits 5 = ReverseUintStream.cur_num_bits_ s)).
Proof.
  intros s s'. split; [vm_compute; reflexivity|].
  apply (Read_returns_encodable_symbol 0 s 5 s'); [cbn; lia | vm_compute; reflexivity].
Defined.



(** X6: a [Read] of a symbol of width [c > 0] that returns [true] has taken
    from the bit reader exactly the bits of that symbol: one bit when the
    width stays and two when it moves, then [c - 1] value bits when the top
    bit is elided and [c] otherwise. *)
Theorem Read_consumes_symbol_bits (x : Z) (s : ReverseUintStream.t)
    (v : Z) (s' : ReverseUintStream.t) :
  0 < ReverseUintStream.cur_num_bits_ s <= 32 ->
  ReverseUintStream.Read x s = Some (v, s') ->
  Z.of_nat (length (ReverseUintStream.bit_reader_ s)) =
  Z.of_nat (length (ReverseUintStream.bit_reader_ s'))
  + (if ReverseUintStream.cur_num_bits_ s' =? ReverseUintStream.cur_num_bits_ s
     then 1 else 2)
  + (if top_bit_redundant (ReverseUintStream.prev_num_bits_ s)
          (ReverseUintStream.cur_num_bits_ s) (ReverseUintStream.cur_num_bits_ s')
     then ReverseUintStream.cur_num_bits_ s - 1
     else ReverseUintStream.cur_num_bits_ s).
Proof.
  intros Hc. unfold ReverseUintStream.Read.
  destruct (ReverseUintStream.read_next_num_bits x s) as [[[next r] rl]|] eqn:En;
    [|discriminate].
  apply read_next_num_bits_length in En; [|exact Hc].
  destruct (top_bit_redundant _ _ next) eqn:Et.
  - rewrite sub_exact by int_range.
    destruct (ReverseBitStream.Read _ r) as [[v0 r2]|] eqn:Er; [|discriminate].
    apply Read_length in Er; [|lia].
    intros H. injection H as <- <-.
    cbn [ReverseUintStream.prev_num_bits_ ReverseUintStream.cur_num_bits_
         ReverseUintStream.bit_reader_].
    rewrite Et. lia.
  - destruct (ReverseBitStream.Read _ r) as [[v0 r2]|] eqn:Er; [|discriminate].
    apply Read_length in Er; [|lia].
    intros H. injection H as <- <-.
    cbn [ReverseUintStream.prev_num_bits_ ReverseUintStream.cur_num_bits_
         ReverseUintStream.bit_reader_].
    rewrite Et. lia.
Qed.

Lemma Read_consumes_symbol_bits_witness :
  let s := ReverseUintStream.mk [true; true; true; false; true; false; false] 2 3 (-1) in
  let s' := ReverseUintStream.mk [false; false] 3 4 (-1) in
  Z.of_nat (length (ReverseUintStream.bit_reader_ s)) =
  Z.of_nat (length (ReverseUintStream.bit_reader_ s'))
  + (if ReverseUintStream.cur_num_bits_ s' =? ReverseUintStream.cur_num_bits_ s
     then 1 else 2)
  + (if top_bit_redundant (ReverseUintStream.prev_num_bits_ s)
          (ReverseUintStream.cur_num_bits_ s) (ReverseUintStream.cur_num_bits_ s')
     then ReverseUintStream.cur_num_bits_ s - 1
     else ReverseUintStream.cur_num_bits_ s).
Proof.
  intros s s'.
  apply (Read_consumes_symbol_bits 0 s 5 s'); [cbn; lia | vm_compute; reflexivity].
Defined.

(** X7: with no bit left, [Read] returns [true] only in the middle of a run
    of zeros ([cur_num_bits_ = 0] and [zero_runlength_ >= 0]), where it
    returns 0 and counts the run down; in every other state it returns
    [false].  So a code cut inside a run of zeros still yields the zeros of
    the run. *)
Theorem Read_at_end_of_data (x prev cur rl : Z) :
  ReverseUintStream.Read x (ReverseUintStream.mk [] prev cur rl) =
  if (cur =? 0) && (0 <=? rl)
  then Some (0, ReverseUintStream.mk [] cur (if rl =? 0 then 1 else 0)
                  (Int32.sub rl 1))
  else None.
Proof.
  unfold ReverseUintStream.Read, ReverseUintStream.read_next_num_bits.
  cbn [ReverseUintStream.cur_num_bits_ ReverseUintStream.prev_num_bits_
       ReverseUintStream.bit_reader_ ReverseUintStream.zero_runlength_].
  destruct (cur =? 0) eqn:E0; cbn [negb andb]; [|reflexivity].
  apply Z.eqb_eq in E0. subst cur.
  destruct (0 <=? rl); [|reflexivity].
  rewrite top_bit_redundant_zero. reflexivity.
Qed.

(** X8: two corrupted codes are refused.  At width 32 the code that
    announces a wider next symbol makes [Read] return [false]; and where a
    run-length code is due, 32 or more zero bits in a row make [Read] return
    [false]. *)
Theorem Read_rejects_corrupt_codes (x prev rl : Z) (R : list bool) :
  ReverseUintStream.Read x (ReverseUintStream.mk (true :: true :: R) prev 32 rl) = None /\
  forall m, (32 <= m)%nat -> rl < 0 ->
    ReverseUintStream.Read x (ReverseUintStream.mk (repeat false m ++ R) prev 0 rl) = None.
Proof.
  split.
  - unfold ReverseUintStream.Read, ReverseUintStream.read_next_num_bits.
    cbn [ReverseUintStream.cur_num_bits_ ReverseUintStream.prev_num_bits_
         ReverseUintStream.bit_reader_ ReverseUintStream.zero_runlength_].
    change (negb (32 =? 0)) with true. cbv iota.
    rewrite !Read_1. reflexivity.
  - intros m Hm Hrl.
    unfold ReverseUintStream.Read, ReverseUintStream.read_next_num_bits.
    cbn [ReverseUintStream.cur_num_bits_ ReverseUintStream.prev_num_bits_
         ReverseUintStream.bit_reader_ ReverseUintStream.zero_runlength_].
    change (negb (0 =? 0)) with false. cbv iota.
    assert (E : (0 <=? rl) = false) by (apply Z.leb_gt; lia). rewrite E.
    rewrite read_zeros_reject by lia. reflexivity.
Qed.

Lemma Read_rejects_corrupt_codes_witness :
  ReverseUintStream.Read 0
    (ReverseUintStream.mk (repeat false 40 ++ [true; true]) 1 0 (-1)) = None.
Proof.
  apply (proj2 (Read_rejects_corrupt_codes 0 1 (-1) [true; true]) 40%nat); lia.
Defined.

(** ** What the encoder leaves unchanged *)

Lemma FlushPendingZeros_frame s s' :
  UintStream.FlushPendingZeros s = Ok s' ->
  exists b, s' = set_output s b 0.
Proof.
  unfold UintStream.FlushPendingZeros.
  destruct (1 <=? UintStream.num_pending_zeros_ s); cbn [assert bind]; [|discriminate].
  intros H. injection H as <-. eexists. reflexivity.
Qed.

Lemma set_output_set_output s b p b' p' :
  set_output (set_output s b p) b' p' = set_output s b' p'.
Proof. reflexivity. Qed.

Lemma set_output_same s :
  set_output s (UintStream.bit_stream_ s) (UintStream.num_pending_zeros_ s) = s.
Proof. destruct s. reflexivity. Qed.

(** [WriteCode] only touches the bit stream and the count of pending zeros *)
Lemma WriteCode_frame prev cur next i s s' :
  UintStream.WriteCode prev cur next i s = Ok s' ->
  exists b p, s' = set_output s b p.
Proof.
  unfold UintStream.WriteCode. destruct (cur =? 0).
  { intros H. injection H as <-. eexists _, _. reflexivity. }
  destruct (if UintStream.num_pending_zeros_ s =? 0 then Ok s
            else UintStream.FlushPendingZeros s) as [s1|] eqn:E1; cbn [bind];
    [|discriminate].
  assert (Hs1 : exists b p, s1 = set_output s b p).
  { destruct (UintStream.num_pending_zeros_ s =? 0).
    - injection E1 as <-. eexists _, _. symmetry. apply set_output_same.
    - apply FlushPendingZeros_frame in E1 as [b ->]. eexists _, _. reflexivity. }
  destruct Hs1 as (b1 & p1 & ->).
  destruct (assert _ AssertNumBitsFit); cbn [bind]; [|discriminate].
  match goal with |- bind ?m _ = _ -> _ => destruct m as [b|] end;
    cbn [bind]; [|discriminate].
  destruct (negb _).
  - intros H. injection H as <-. eexists _, _. reflexivity.
  - destruct (assert _ AssertTopBitSet); cbn [bind]; [|discriminate].
    intros H. injection H as <-. eexists _, _. reflexivity.
Qed.

Lemma write_codes_frame cs : forall s s',
  write_codes cs s = Ok s' -> exists b p, s' = set_output s b p.
Proof.
  induction cs as [|[[[pr cu] nx] i] rest IH]; intros s s'; cbn [write_codes].
  - intros H. injection H as <-. eexists _, _. symmetry. apply set_output_same.
  - destruct (UintStream.WriteCode pr cu nx i s) as [s1|] eqn:E; cbn [bind];
      [|discriminate].
    apply WriteCode_frame in E as (b1 & p1 & ->).
    intros H. apply IH in H as (b & p & ->). eexists _, _. reflexivity.
Qed.

(** [FlushSome] on a nonempty buffer: what it does to the members other
    than the bit stream and the count of pending zeros *)
Lemma FlushSome_frame n s s' :
  UintStream.buffer_ s <> [] ->
  UintStream.FlushSome n s = Ok s' ->
  (1 <= n <= length (UintStream.buffer_ s))%nat /\
  UintStream.buffer_ s' = skipn n (UintStream.buffer_ s) /\
  UintStream.flushed_ s' = UintStream.flushed_ s /\
  UintStream.started_ s' = true.
Proof.
  intros Hne H.
  assert (Hlen : (0 < length (UintStream.buffer_ s))%nat)
    by (destruct (UintStream.buffer_ s); [congruence | cbn; lia]).
  assert (Hn : (1 <= n <= length (UintStream.buffer_ s))%nat).
  { revert H. unfold UintStream.FlushSome.
    destruct (n <=? length (UintStream.buffer_ s))%nat eqn:En; cbn [assert bind];
      [|discriminate].
    apply Nat.leb_le in En.
    destruct (length (UintStream.buffer_ s) =? 0)%nat eqn:E0;
      [apply Nat.eqb_eq in E0; lia|].
    destruct n as [|m]; [|lia].
    cbn [UintStream.flush_loop bind]. discriminate. }
  split; [exact Hn|].
  rewrite (FlushSome_unfold n s Hn) in H. cbv zeta in H.
  match type of H with bind (write_codes ?cs ?s0) _ = _ =>
    assert (Hs0 : UintStream.buffer_ s0 = UintStream.buffer_ s /\
                  UintStream.flushed_ s0 = UintStream.flushed_ s /\
                  UintStream.started_ s0 = true)
      by (destruct (UintStream.started_ s) eqn:Es; repeat split; assumption);
    destruct (write_codes cs s0) as [s2|] eqn:E2; cbn [bind] in H; [|discriminate]
  end.
  apply write_codes_frame in E2 as (b & p & ->).
  injection H as <-.
  cbn [UintStream.buffer_ UintStream.flushed_ UintStream.started_ set_output].
  destruct Hs0 as (-> & -> & ->). repeat split.
Qed.

Lemma Write_frame v s s' :
  UintStream.Write v s = Ok s' ->
  UintStream.flushed_ s' = UintStream.flushed_ s /\
  UintStream.buffer_ s' =
    if (64 <=? length (UintStream.buffer_ s ++ [v]))%nat
    then skipn 32 (UintStream.buffer_ s ++ [v])
    else UintStream.buffer_ s ++ [v].
Proof.
  unfold UintStream.Write. cbn [UintStream.buffer_].
  destruct (64 <=? length (UintStream.buffer_ s ++ [v]))%nat.
  - intros H. apply FlushSome_frame in H.
    + cbn [UintStream.buffer_ UintStream.flushed_] in H. tauto.
    + cbn [UintStream.buffer_]. destruct (UintStream.buffer_ s); discriminate.
  - intros H. injection H as <-. split; reflexivity.
Qed.

Lemma write_all_flushed vs : forall s s',
  write_all vs s = Ok s' -> UintStream.flushed_ s' = UintStream.flushed_ s.
Proof.
  induction vs as [|v rest IH]; intros s s'; cbn [write_all].
  - intros H. now injection H as <-.
  - destruct (UintStream.Write v s) as [s1|] eqn:E; cbn [bind]; [|discriminate].
    intros H. apply IH in H. apply Write_frame in E as [E _]. congruence.
Qed.

Lemma Flush_post s s' :
  UintStream.Flush s = Ok s' ->
  UintStream.flushed_ s = false /\ UintStream.buffer_ s <> [] /\
  UintStream.flushed_ s' = true /\ UintStream.buffer_ s' = [] /\
  UintStream.num_pending_zeros_ s' = 0 /\ UintStream.started_ s' = true /\
  exists bits, UintStream.bit_stream_ s' = BitStream.Flush bits.
Proof.
  unfold UintStream.Flush.
  destruct (UintStream.flushed_ s) eqn:Ef; cbn [negb assert bind]; [discriminate|].
  destruct (length (UintStream.buffer_ s) =? 0)%nat eqn:E0; cbn [negb assert bind];
    [discriminate|].
  apply Nat.eqb_neq in E0.
  assert (Hne : UintStream.buffer_ s <> []) by (intros E; rewrite E in E0; now apply E0).
  cbn [UintStream.buffer_].
  destruct (UintStream.FlushSome _ _) as [s1|] eqn:E1; cbn [bind]; [|discriminate].
  apply FlushSome_frame in E1; [|exact Hne].
  cbn [UintStream.buffer_ UintStream.flushed_] in E1.
  destruct E1 as (_ & Hb & Hf & Hst).
  rewrite skipn_all in Hb.
  destruct (if UintStream.num_pending_zeros_ s1 =? 0 then Ok s1
            else UintStream.FlushPendingZeros s1) as [s2|] eqn:E2; cbn [bind];
    [|discriminate].
  assert (Hs2 : exists b, s2 = set_output s1 b 0).
  { destruct (UintStream.num_pending_zeros_ s1 =? 0) eqn:Ep.
    - injection E2 as <-. apply Z.eqb_eq in Ep. rewrite <- Ep.
      eexists. symmetry. apply set_output_same.
    - now apply FlushPendingZeros_frame in E2. }
  destruct Hs2 as (b & ->).
  intros H. injection H as <-.
  cbn [UintStream.with_bit_stream UintStream.buffer_ UintStream.flushed_
       UintStream.started_ UintStream.num_pending_zeros_ UintStream.bit_stream_
       set_output].
  repeat split; try assumption. eexists. reflexivity.
Qed.

(** ** The life of an encoder *)

Lemma held_back_le n : 0 <= n -> 0 <= held_back n <= n.
Proof.
  intros Hn. unfold held_back. destruct (n <? 64) eqn:E; [lia|].
  apply Z.ltb_ge in E. Z.div_mod_to_equations. lia.
Qed.

Lemma held_back_period m : 64 <= m -> held_back (m - 32) = held_back m.
Proof.
  intros Hm. unfold held_back.
  assert (E : (m <? 64) = false) by (apply Z.ltb_ge; lia). rewrite E.
  destruct (m - 32 <? 64) eqn:E'.
  - apply Z.ltb_lt in E'. Z.div_mod_to_equations. lia.
  - Z.div_mod_to_equations. lia.
Qed.

Lemma skipn_app_le (A : Type) (n : nat) (l1 l2 : list A) :
  (n <= length l1)%nat -> skipn n l1 ++ l2 = skipn n (l1 ++ l2).
Proof.
  intros H. rewrite skipn_app. replace (n - length l1)%nat with 0%nat by lia.
  reflexivity.
Qed.

Lemma write_all_buffer vs : forall s s',
  write_all vs s = Ok s' -> (length (UintStream.buffer_ s) < 64)%nat ->
  let m := Z.of_nat (length (UintStream.buffer_ s)) + Z.of_nat (length vs) in
  Z.of_nat (length (UintStream.buffer_ s')) = held_back m /\
  UintStream.buffer_ s' =
    skipn (Z.to_nat (m - held_back m)) (UintStream.buffer_ s ++ vs).
Proof.
  induction vs as [|v rest IH]; intros s s'; cbn [write_all].
  - intros H Hl. cbv zeta. injection H as <-. cbn [length].
    rewrite Z.add_0_r, app_nil_r.
    assert (E : held_back (Z.of_nat (length (UintStream.buffer_ s)))
                = Z.of_nat (length (UintStream.buffer_ s))).
    { unfold held_back.
      assert (E : (Z.of_nat (length (UintStream.buffer_ s)) <? 64) = true)
        by (apply Z.ltb_lt; lia).
      now rewrite E. }
    rewrite E, Z.sub_diag. split; reflexivity.
  - destruct (UintStream.Write v s) as [s1|] eqn:E1; cbn [bind]; [|discriminate].
    intros H Hl. cbv zeta.
    set (m := Z.of_nat (length (UintStream.buffer_ s)) + Z.of_nat (length (v :: rest))).
    apply Write_frame in E1 as [_ Hb1].
    rewrite length_app in Hb1. cbn [length] in Hb1.
    assert (Hm : m = Z.of_nat (length (UintStream.buffer_ s)) + 1
                     + Z.of_nat (length rest))
      by (subst m; cbn [length]; lia).
    destruct (64 <=? length (UintStream.buffer_ s) + 1)%nat eqn:E64.
    + apply Nat.leb_le in E64.
      assert (Hl1 : length (UintStream.buffer_ s1) = 32%nat).
      { rewrite Hb1, length_skipn, length_app. cbn [length]. lia. }
      destruct (IH s1 s' H ltac:(lia)) as [IHl IHb]. rewrite Hl1 in IHl, IHb.
      assert (Hp : held_back (Z.of_nat 32 + Z.of_nat (length rest)) = held_back m).
      { rewrite <- (held_back_period m) by lia. f_equal. lia. }
      rewrite Hp in IHl, IHb. split; [exact IHl|].
      rewrite IHb, Hb1. rewrite skipn_app_le by (rewrite length_app; cbn [length]; lia).
      rewrite skipn_skipn, <- app_assoc. cbn [app]. f_equal.
      pose proof (held_back_period m ltac:(lia)) as Hq.
      pose proof (held_back_le (m - 32) ltac:(lia)). lia.
    + apply Nat.leb_gt in E64.
      assert (Hl1 : length (UintStream.buffer_ s1)
                    = (length (UintStream.buffer_ s) + 1)%nat).
      { rewrite Hb1, length_app. reflexivity. }
      destruct (IH s1 s' H ltac:(lia)) as [IHl IHb]. rewrite Hl1 in IHl, IHb.
      replace (Z.of_nat (length (UintStream.buffer_ s) + 1) + Z.of_nat (length rest))
        with m in IHl, IHb by lia.
      split; [exact IHl|]. rewrite IHb, Hb1, <- app_assoc. reflexivity.
Qed.

(** every [Write] of a [uint32_t] into a sound encoder succeeds *)
Lemma write_all_ok vs : forall written cs s,
  encoder_inv written cs s -> (length (UintStream.buffer_ s) < 64)%nat ->
  UintStream.flushed_ s = false -> Forall Int32.is_uint vs ->
  exists s' cs',
    write_all vs s = Ok s' /\ encoder_inv (written ++ vs) cs' s' /\
    (length (UintStream.buffer_ s') < 64)%nat /\ UintStream.flushed_ s' = false.
Proof.
  induction vs as [|v rest IH]; intros written cs s Hinv Hl Hf Hvs; cbn [write_all].
  - exists s, cs. rewrite app_nil_r.
    split; [reflexivity|]. split; [exact Hinv|]. split; assumption.
  - inversion Hvs as [|? ? Hv Hrest]; subst.
    destruct (Write_step _ _ _ v Hinv Hl Hv) as (s1 & E1 & Hinv1 & Hl1 & Hf1).
    rewrite E1. cbn [bind].
    destruct (IH _ _ _ Hinv1 ltac:(lia) ltac:(congruence) Hrest)
      as (s' & cs' & E & Hinv' & Hl' & Hf').
    exists s', cs'. rewrite <- app_assoc in Hinv'.
    split; [exact E|]. split; [exact Hinv'|]. split; assumption.
Qed.

(** X9: a [Flush] that returns has written everything: the buffer is empty,
    no zero is pending, the encoder is marked flushed, the bit stream is a
    whole number of bytes, [Code()] returns those bytes, and a second
    [Flush] stops at [assert(!flushed_)]. *)
Theorem Flush_ends_the_stream (s s' : UintStream.t) :
  UintStream.Flush s = Ok s' ->
  UintStream.flushed_ s' = true /\ UintStream.buffer_ s' = [] /\
  UintStream.num_pending_zeros_ s' = 0 /\
  (exists code, UintStream.Code s' = Ok code /\
                ReverseBitStream.make code = UintStream.bit_stream_ s' /\
                length (UintStream.bit_stream_ s') = (8 * length code)%nat) /\
  UintStream.Flush s' = Fail AssertNotFlushed.
Proof.
  intros H. apply Flush_post in H.
  destruct H as (_ & _ & Hf & Hb & Hp & _ & bits & Hbits).
  split; [exact Hf|]. split; [exact Hb|]. split; [exact Hp|]. split.
  - exists (BitStream.Code (UintStream.bit_stream_ s')).
    unfold UintStream.Code. rewrite Hf. cbn [assert bind].
    split; [reflexivity|]. rewrite Hbits, make_Code. split; [reflexivity|].
    rewrite <- (make_Code bits) at 1. unfold ReverseBitStream.make.
    generalize (BitStream.Code (BitStream.Flush bits)). intros l.
    induction l as [|b l IHl]; [reflexivity|].
    cbn [flat_map]. rewrite length_app, IHl. unfold ReverseBitStream.byte_bits.
    rewrite field_bits_length. cbn [length]. lia.
  - unfold UintStream.Flush. rewrite Hf. reflexivity.
Qed.

Lemma Flush_ends_the_stream_witness :
  exists s',
    UintStream.Flush (UintStream.mk [5; 0; 0; 9] 0 BitStream.empty false false 0) = Ok s' /\
    (UintStream.flushed_ s' = true /\ UintStream.buffer_ s' = [] /\
     UintStream.num_pending_zeros_ s' = 0 /\
     (exists code, UintStream.Code s' = Ok code /\
                   ReverseBitStream.make code = UintStream.bit_stream_ s' /\
                   length (UintStream.bit_stream_ s') = (8 * length code)%nat) /\
     UintStream.Flush s' = Fail AssertNotFlushed).
Proof.
  eexists. split; [vm_compute; reflexivity|].
  apply (Flush_ends_the_stream
           (UintStream.mk [5; 0; 0; 9] 0 BitStream.empty false false 0)).
  vm_compute. reflexivity.
Defined.

(** X10: misuse of the encoder.  With no value written, [Flush] stops at
    [assert(!buffer_.empty())]; after any number of [Write]s and no [Flush],
    [Code()] stops at [assert(flushed_)]; and a [Write] after [Flush] is
    accepted, sits in the buffer and leaves [Code()] as it was. *)
Theorem encoder_misuse :
  UintStream.Flush UintStream.init = Fail AssertBufferNonempty /\
  (forall vs s, write_all vs UintStream.init = Ok s ->
     UintStream.Code s = Fail AssertFlushed) /\
  (forall s s' v, UintStream.Flush s = Ok s' ->
     exists s'', UintStream.Write v s' = Ok s'' /\
       UintStream.buffer_ s'' = [v] /\
       UintStream.bit_stream_ s'' = UintStream.bit_stream_ s' /\
       UintStream.Code s'' = UintStream.Code s').
Proof.
  split; [reflexivity|]. split.
  - intros vs s H. apply write_all_flushed in H. unfold UintStream.Code.
    rewrite H. reflexivity.
  - intros s s' v H. apply Flush_post in H.
    destruct H as (_ & _ & Hf & Hb & _).
    unfold UintStream.Write. rewrite Hb. cbn [app length Nat.leb].
    eexists. split; [reflexivity|]. split; [reflexivity|]. split; [reflexivity|].
    unfold UintStream.Code. reflexivity.
Qed.

Lemma encoder_misuse_witness :
  exists s',
    UintStream.Flush (UintStream.mk [5; 0; 0; 9] 0 BitStream.empty false false 0) = Ok s' /\
    exists s'', UintStream.Write 7 s' = Ok s'' /\
      UintStream.buffer_ s'' = [7] /\
      UintStream.bit_stream_ s'' = UintStream.bit_stream_ s' /\
      UintStream.Code s'' = UintStream.Code s'.
Proof.
  eexists. split; [vm_compute; reflexivity|].
  apply (proj2 (proj2 encoder_misuse)
           (UintStream.mk [5; 0; 0; 9] 0 BitStream.empty false false 0)).
  vm_compute. reflexivity.
Defined.

(** X11: [Write] holds values back.  After [n] values, all [uint32_t]s, have
    been written to a new encoder, every [Write] has succeeded and the
    buffer holds the last [held_back n] of them: all [n] while [n < 64], and
    [32 + n mod 32] afterwards; nothing reaches the bit stream before the
    64th [Write]. *)
Theorem Write_holds_back (vs : list Z) :
  Forall Int32.is_uint vs ->
  let n := Z.of_nat (length vs) in
  exists s,
    write_all vs UintStream.init = Ok s /\
    UintStream.buffer_ s = skipn (Z.to_nat (n - held_back n)) vs /\
    Z.of_nat (length (UintStream.buffer_ s)) = held_back n /\
    UintStream.started_ s = (64 <=? n) /\
    (n < 64 -> UintStream.bit_stream_ s = []) /\
    UintStream.flushed_ s = false.
Proof.
  intros Hvs n.
  destruct (write_all_ok vs [] [] UintStream.init encoder_inv_init
              ltac:(cbn; lia) eq_refl Hvs) as (s & cs & E & Hinv & Hl & Hf).
  destruct (write_all_buffer vs _ _ E ltac:(cbn; lia)) as [Hlen Hbuf].
  cbn [UintStream.init UintStream.buffer_ length app] in Hlen, Hbuf.
  rewrite Z.add_0_l in Hlen, Hbuf. fold n in Hlen, Hbuf.
  exists s. split; [exact E|]. split; [exact Hbuf|]. split; [exact Hlen|].
  cbn [app] in Hinv. destruct Hinv as (_ & _ & Hw & Hst).
  assert (Hlw : length vs = (length cs + length (UintStream.buffer_ s))%nat)
    by (rewrite Hw at 1; now rewrite length_app, length_map).
  destruct (UintStream.started_ s) eqn:Es.
  - destruct Hst as (w0 & ann & (_ & _ & H64) & _).
    assert (E64 : (64 <=? n) = true) by (apply Z.leb_le; lia).
    rewrite E64. split; [reflexivity|]. split; [lia | exact Hf].
  - destruct Hst as (Hcs & Hbits & _). subst cs. cbn [length] in Hlw.
    assert (E64 : (64 <=? n) = false) by (apply Z.leb_gt; lia).
    rewrite E64. split; [reflexivity|]. split; [intros _; exact Hbits | exact Hf].
Qed.

Lemma Write_holds_back_witness :
  let vs := repeat 7 100 in
  let n := Z.of_nat (length vs) in
  held_back n = 36 /\
  exists s,
    write_all vs UintStream.init = Ok s /\
    UintStream.buffer_ s = skipn (Z.to_nat (n - held_back n)) vs /\
    Z.of_nat (length (UintStream.buffer_ s)) = held_back n /\
    UintStream.started_ s = (64 <=? n) /\
    (n < 64 -> UintStream.bit_stream_ s = []) /\
    UintStream.flushed_ s = false.
Proof.
  intros vs n. split; [reflexivity|].
  apply (Write_holds_back vs). apply all_uint_Forall. vm_compute. reflexivity.
Defined.

(** ** What [WriteCode] accepts *)

Lemma land_pow2_num_bits i k : 0 <= i -> 0 <= k ->
  (Z.land i (2 ^ k) =? 0) = false -> k + 1 <= int_math.num_bits i.
Proof.
  intros Hi Hk H. apply Z.eqb_neq in H.
  assert (Hb : Z.testbit i k = true).
  { destruct (Z.testbit i k) eqn:E; [reflexivity|]. exfalso. apply H.
    apply Z.bits_inj'. intros m Hm. rewrite Z.land_spec, Z.bits_0.
    rewrite Z.pow2_bits_eqb by lia.
    destruct (Z.eqb_spec k m) as [<-|_]; [now rewrite E | apply andb_false_r]. }
  assert (Hpos : 0 < i).
  { destruct (Z.eq_dec i 0) as [->|]; [now rewrite Z.bits_0 in Hb | lia]. }
  unfold int_math.num_bits. apply Z.ltb_lt in Hpos as E. rewrite E.
  destruct (Z_lt_le_dec (Z.log2 i) k) as [Hlt|]; [|lia].
  rewrite Z.bits_above_log2 in Hb by lia. discriminate.
Qed.

(** X12: the preconditions of [WriteCode], read off its [assert]s.  For a
    width [cur] in [1, 32], a next width in [0, 32], a [uint32_t] value and a
    [uint32_t] count of pending zeros, [WriteCode] runs to its end exactly
    when the value fits in [cur] bits, the next width is within one of
    [cur], and the value has exactly [cur] bits whenever the top bit is
    elided. *)
Theorem WriteCode_accepts_iff (prev cur next i : Z) (s : UintStream.t) :
  1 <= cur <= 32 -> 0 <= next <= 32 -> Int32.is_uint i ->
  0 <= UintStream.num_pending_zeros_ s < Int32.modulus ->
  ((exists s', UintStream.WriteCode prev cur next i s = Ok s') <->
   (int_math.num_bits i <= cur /\ -1 <= next - cur <= 1 /\
    (top_bit_redundant prev cur next = true -> int_math.num_bits i = cur))).
Proof.
  intros Hc Hn Hi Hp. split.
  - intros [s' H]. unfold UintStream.WriteCode in H.
    assert (E0 : (cur =? 0) = false) by (apply Z.eqb_neq; lia). rewrite E0 in H.
    rewrite flush_pending_ok in H by exact Hp. cbn [bind] in H.
    destruct (int_math.num_bits i <=? cur) eqn:Enb; cbn [assert bind] in H;
      [|discriminate].
    apply Z.leb_le in Enb.
    rewrite (sub_exact next cur) in H by int_range.
    rewrite (sub_exact cur 1) in H by int_range.
    rewrite shl1_uint in H by lia.
    assert (Hd : -1 <= next - cur <= 1).
    { destruct (next - cur =? 1) eqn:E1; [apply Z.eqb_eq in E1; lia|].
      destruct (next - cur =? -1) eqn:E2; [apply Z.eqb_eq in E2; lia|].
      destruct (next - cur =? 0) eqn:E3; [apply Z.eqb_eq in E3; lia|].
      cbn [assert bind] in H. discriminate. }
    split; [exact Enb|]. split; [exact Hd|].
    intros Et. rewrite Et in H. cbn [negb] in H.
    match type of H with bind ?m _ = _ => destruct m as [b|]; cbn [bind] in H end;
      [|discriminate].
    destruct (Z.land i (2 ^ (cur - 1)) =? 0) eqn:El; cbn [negb assert bind] in H;
      [discriminate|].
    apply land_pow2_num_bits in El; [lia | apply Hi | lia].
  - intros (Hnb & Hd & Ht). eexists. apply WriteCode_ok; [|exact Hp].
    unfold good_call. destruct Hi as [Hi _]. repeat split; try lia. exact Ht.
Qed.

Lemma WriteCode_accepts_iff_witness :
  (exists s', UintStream.WriteCode 3 3 3 5 UintStream.init = Ok s') <->
  (int_math.num_bits 5 <= 3 /\ -1 <= 3 - 3 <= 1 /\
   (top_bit_redundant 3 3 3 = true -> int_math.num_bits 5 = 3)).
Proof.
  apply (WriteCode_accepts_iff 3 3 3 5 UintStream.init);
    [lia | lia | vm_compute; split; congruence | vm_compute; split; congruence].
Defined.

(** ** The size of the code *)

Lemma make_length code :
  length (ReverseBitStream.make code) = (8 * length code)%nat.
Proof.
  unfold ReverseBitStream.make. induction code as [|b l IH]; [reflexivity|].
  cbn [flat_map]. rewrite length_app, IH. unfold ReverseBitStream.byte_bits.
  rewrite field_bits_length. cbn [length]. lia.
Qed.

Lemma padding_lt (l : list bool) : (BitStream.padding l < 8)%nat.
Proof. unfold BitStream.padding. apply Nat.mod_upper_bound. lia. Qed.

(** the number of bytes of a flushed bit stream *)
Lemma Code_length (l : list bool) :
  Z.of_nat (length (BitStream.Code (BitStream.Flush l))) =
  (Z.of_nat (length l) + 7) / 8.
Proof.
  pose proof (make_length (BitStream.Code (BitStream.Flush l))) as H.
  rewrite make_Code in H. unfold BitStream.Flush in H at 1.
  rewrite length_app, repeat_length in H.
  pose proof (padding_lt l).
  revert H. generalize (length (BitStream.Code (BitStream.Flush l))). intros n H.
  Z.div_mod_to_equations. lia.
Qed.

Lemma zero_run_bits_length k : 1 <= k ->
  Z.of_nat (length (zero_run_bits k)) = 2 * Z.log2 k + 1.
Proof.
  intros Hk. unfold zero_run_bits. rewrite length_app, !field_bits_length.
  pose proof (Z.log2_nonneg k).
  assert (E : int_math.num_bits k - 1 = Z.log2 k).
  { unfold int_math.num_bits. destruct (0 <? k) eqn:E; [lia|].
    apply Z.ltb_ge in E. lia. }
  rewrite E. lia.
Qed.

Lemma pending_bits_length p : 0 <= p ->
  Z.of_nat (length (pending_bits p)) = if p =? 0 then 0 else 2 * Z.log2 p + 1.
Proof.
  intros Hp. unfold pending_bits. destruct (Z.eqb_spec p 0); [reflexivity|].
  apply zero_run_bits_length. lia.
Qed.

Lemma pending_bits_succ p : 0 <= p < Int32.modulus ->
  Z.of_nat (length (pending_bits (Int32.uadd p 1)))
  <= Z.of_nat (length (pending_bits p)) + 2.
Proof.
  intros Hp. rewrite modulus_eq in Hp.
  assert (Hu : 0 <= Int32.uadd p 1)
    by (unfold Int32.uadd, Int32.to_uint; rewrite modulus_eq;
        apply Z.mod_pos_bound; lia).
  rewrite !pending_bits_length by lia.
  destruct (Z.eq_dec p 4294967295) as [->|Hne]; [vm_compute; discriminate|].
  assert (E : Int32.uadd p 1 = p + 1).
  { unfold Int32.uadd. apply to_uint_id. int_range. }
  rewrite E.
  destruct (Z.eqb_spec (p + 1) 0); [lia|].
  destruct (Z.eqb_spec p 0) as [->|]; [vm_compute; discriminate|].
  pose proof (Z.log2_succ_le p) as Hs. rewrite <- Z.add_1_r in Hs. lia.
Qed.

(** the bits of one symbol of nonzero width *)
Lemma symbol_bits_length prev cur next i :
  good_call (prev, cur, next, i) ->
  Z.of_nat (length (delta_bits cur next ++ value_bits prev cur next i)) =
  (if next =? cur then 1 else 2)
  + (if top_bit_redundant prev cur next then cur - 1 else cur).
Proof.
  intros (Hc & Hn & Hd & _ & _ & Ht).
  rewrite length_app. unfold delta_bits, value_bits.
  assert (Hdl : Z.of_nat (length (if next - cur =? 1 then field_bits 2 3
                                  else if next - cur =? -1 then field_bits 2 1
                                  else field_bits 1 0))
                = if next =? cur then 1 else 2).
  { destruct (Z.eqb_spec (next - cur) 1); [|destruct (Z.eqb_spec (next - cur) (-1))];
      destruct (Z.eqb_spec next cur); try lia; reflexivity. }
  rewrite Nat2Z.inj_add, Hdl.
  destruct (top_bit_redundant prev cur next) eqn:Et; rewrite field_bits_length.
  - unfold top_bit_redundant in Et. apply andb_true_iff in Et as [_ Et].
    apply Z.ltb_lt in Et. lia.
  - lia.
Qed.

Lemma symbol_bits_le_33 prev cur next i :
  good_call (prev, cur, next, i) -> prev <= 32 ->
  Z.of_nat (length (delta_bits cur next ++ value_bits prev cur next i)) <= 33.
Proof.
  intros Hg Hp. rewrite (symbol_bits_length _ _ _ _ Hg).
  destruct Hg as (Hc & Hn & Hd & _).
  unfold top_bit_redundant.
  destruct (Z.eqb_spec next cur); destruct (Z.leb_spec prev cur);
    destruct (Z.leb_spec next cur); destruct (Z.ltb_spec 0 cur);
    cbn [andb]; lia.
Qed.

Lemma emit_length_bound cs : forall prev cur pending,
  chain (prev, cur) cs -> prev <= 32 -> Forall good_call cs ->
  0 <= pending < Int32.modulus ->
  Z.of_nat (length (fst (emit pending cs)))
  + Z.of_nat (length (pending_bits (snd (emit pending cs))))
  <= Z.of_nat (length (pending_bits pending)) + 33 * Z.of_nat (length cs).
Proof.
  induction cs as [|[[[p c] n] i] rest IH]; intros prev cur pending Hch Hp Hg Hpend.
  - cbn [emit fst snd length]. lia.
  - cbn [chain] in Hch. destruct Hch as [Heq Hch]. injection Heq as -> ->.
    inversion Hg as [|? ? Hg1 Hgr]; subst.
    assert (Hc32 : c <= 32) by (destruct Hg1 as (Hc & _); lia).
    cbn [emit length]. rewrite Nat2Z.inj_succ.
    destruct (c =? 0) eqn:E0.
    + assert (Hu : 0 <= Int32.uadd pending 1 < Int32.modulus)
        by (unfold Int32.uadd, Int32.to_uint; apply Z.mod_pos_bound;
            rewrite modulus_eq; lia).
      pose proof (IH _ _ _ Hch Hc32 Hgr Hu) as H.
      pose proof (pending_bits_succ pending Hpend). lia.
    + pose proof (IH _ _ 0 Hch Hc32 Hgr ltac:(rewrite modulus_eq; lia)) as H.
      destruct (emit 0 rest) as [bs q]. cbn [fst snd] in *.
      change (pending_bits 0) with (@nil bool) in H. cbn [length] in H.
      pose proof (symbol_bits_le_33 _ _ _ _ Hg1 Hp) as Hs.
      rewrite !length_app in *. lia.
Qed.

Lemma prelude_bits_length w :
  Z.of_nat (length (prelude_bits w)) = if w <? 31 then 5 else 6.
Proof. unfold prelude_bits. destruct (w <? 31); reflexivity. Qed.

(** X13: the size of the code.  A nonempty sequence of [N] [uint32_t]s is
    coded in at most [33 * N + 6] bits, so in at most
    [(33 * N + 13) / 8] bytes: 6 bits for the first width, and for each
    value at most 33 bits of width code and value. *)
Theorem code_size_bound (vs : list Z) :
  vs <> [] -> Forall Int32.is_uint vs ->
  exists code, encode vs = Ok code /\
    (1 <= length code)%nat /\
    Z.of_nat (length code) <= (33 * Z.of_nat (length vs) + 13) / 8.
Proof.
  intros Hne Hvs.
  destruct (encode_state_ok vs Hne Hvs) as (s & Henc & Hfin).
  destruct (encoder_final_code vs _ s Hfin) as (w0 & R & _ & _ & Hcode & Hcne & _).
  destruct Hfin as (_ & Hg & Hvals & w0' & l & [Hw0 _] & Hch & _ & Hbits).
  exists (BitStream.Code (UintStream.bit_stream_ s)).
  split; [unfold encode; rewrite Henc; exact Hcode|]. split.
  - destruct (BitStream.Code (UintStream.bit_stream_ s)); [congruence | cbn; lia].
  - rewrite Hbits, Code_length, !length_app, !Nat2Z.inj_add.
    pose proof (emit_length_bound _ w0' w0' 0 Hch ltac:(lia) Hg
                  ltac:(rewrite modulus_eq; lia)) as Hb.
    change (pending_bits 0) with (@nil bool) in Hb. cbn [length] in Hb.
    assert (Hl : length (encode_calls vs) = length vs).
    { rewrite Hvals at 2. now rewrite length_map. }
    rewrite Hl in Hb. pose proof (prelude_bits_length w0') as Hpre.
    apply Z.div_le_mono; [lia|]. destruct (w0' <? 31); lia.
Qed.

Lemma code_size_bound_witness :
  exists code, encode [4294967295; 2147483648; 0] = Ok code /\
    (1 <= length code)%nat /\
    Z.of_nat (length code) <= (33 * Z.of_nat (length [4294967295; 2147483648; 0]) + 13) / 8.
Proof.
  apply (code_size_bound [4294967295; 2147483648; 0]);
    [discriminate | apply all_uint_Forall; vm_compute; reflexivity].
Defined.

(** X14: what a run of zeros costs.  [N] zeros, with [0 < N < 2^32], are
    coded as the first width 0 in 5 bits followed by one run-length code of
    [2 * floor(log2 N) + 1] bits: [(2 * floor(log2 N) + 13) / 8] bytes, never
    more than 9. *)
Theorem zeros_cost (N : nat) :
  (0 < N)%nat -> Z.of_nat N < Int32.modulus ->
  exists code, encode (repeat 0 N) = Ok code /\
    ReverseBitStream.make code =
      BitStream.Flush (field_bits 5 0 ++ zero_run_bits (Z.of_nat N)) /\
    Z.of_nat (length code) = (2 * Z.log2 (Z.of_nat N) + 13) / 8 /\
    (length code <= 9)%nat.
Proof.
  intros HN Hlt. eexists. split; [apply encode_zeros; assumption|].
  split; [apply make_Code|].
  assert (Hlen : Z.of_nat (length (BitStream.Code (BitStream.Flush
                   (prelude_bits 0 ++ zero_run_bits (Z.of_nat N)))))
                 = (2 * Z.log2 (Z.of_nat N) + 13) / 8).
  { rewrite Code_length, length_app, Nat2Z.inj_add.
    rewrite zero_run_bits_length by lia. change (length (prelude_bits 0)) with 5%nat.
    f_equal. lia. }
  split; [exact Hlen|].
  assert (Z.log2 (Z.of_nat N) < 32).
  { apply Z.log2_lt_pow2; [lia|]. rewrite modulus_eq in Hlt. lia. }
  assert ((2 * Z.log2 (Z.of_nat N) + 13) / 8 <= 9).
  { Z.div_mod_to_equations. lia. }
  lia.
Qed.

Lemma zeros_cost_witness :
  exists code, encode (repeat 0 1000) = Ok code /\
    ReverseBitStream.make code =
      BitStream.Flush (field_bits 5 0 ++ zero_run_bits (Z.of_nat 1000)) /\
    Z.of_nat (length code) = (2 * Z.log2 (Z.of_nat 1000) + 13) / 8 /\
    (length code <= 9)%nat.
Proof. apply (zeros_cost 1000); [lia | vm_compute; reflexivity]. Defined.

(** ** Widths and the widest value *)

(** In a chain of accepted calls that ends without announcing a wider
    symbol, no width exceeds a bound [B] on the bit lengths of the values,
    provided the chain starts at a width that is at most [B] or not below
    the one before it. *)
Lemma chain_ceiling B cs : forall prev cur,
  Forall good_call cs ->
  Forall (fun c => int_math.num_bits (call_value c) <= B) cs ->
  chain (prev, cur) cs ->
  snd (chain_end (prev, cur) cs) <= fst (chain_end (prev, cur) cs) ->
  cur <= B \/ prev <= cur ->
  Forall (fun c => call_cur c <= B) cs /\ (cs <> [] -> cur <= B).
Proof.
  induction cs as [|[[[p c] n] i] rest IH]; intros prev cur Hg Hnb Hch Hend Hst.
  - split; [constructor | congruence].
  - cbn [chain] in Hch. destruct Hch as [Heq Hch]. injection Heq as -> ->.
    inversion Hg as [|? ? Hg1 Hgr]; subst.
    inversion Hnb as [|? ? Hnb1 Hnbr]; subst.
    cbn [call_value snd] in Hnb1. cbn [chain_end] in Hend.
    pose proof (num_bits_nonneg i) as Hi0.
    destruct Hg1 as (Hc & Hn & Hd & _ & Hfit & Ht).
    destruct (Z_le_gt_dec n c) as [Hle|Hgt].
    + assert (HcB : c <= B).
      { destruct Hst as [|Hpc]; [assumption|].
        destruct (Z.eq_dec c 0) as [->|Hc0]; [lia|].
        rewrite <- Ht; [exact Hnb1|]. unfold top_bit_redundant.
        apply andb_true_iff. split; [apply andb_true_iff; split; apply Z.leb_le; lia|].
        apply Z.ltb_lt. lia. }
      destruct (IH c n Hgr Hnbr Hch Hend ltac:(lia)) as [Hr _].
      split; [constructor; [exact HcB | exact Hr] | intros _; exact HcB].
    + destruct (IH c n Hgr Hnbr Hch Hend ltac:(lia)) as [Hr Hn'].
      assert (HcB : c <= B).
      { destruct rest as [|c1 rest']; [cbn [chain_end fst snd] in Hend; lia|].
        assert (n <= B) by (apply Hn'; discriminate). lia. }
      split; [constructor; [exact HcB | exact Hr] | intros _; exact HcB].
Qed.

(** X15: the widths follow the values of the whole run.  Every symbol of a
    run is coded at a width that holds its value, and no width exceeds the
    bit length of the widest value written, however the values fall into
    the blocks of 32 that [Write] flushes. *)
Theorem widths_bounded_by_widest_value (vs : list Z) (B : Z) :
  vs <> [] -> Forall Int32.is_uint vs ->
  (forall v, In v vs -> int_math.num_bits v <= B) ->
  (exists s, encode_state vs = Ok s) /\
  map call_value (encode_calls vs) = vs /\
  forall c, In c (encode_calls vs) ->
    int_math.num_bits (call_value c) <= call_cur c <= B.
Proof.
  intros Hne Hvs HB.
  destruct (encode_state_ok vs Hne Hvs)
    as (s & Henc & _ & Hg & Hvals & w0 & l & _ & Hch & Hend & _).
  split; [now exists s|]. split; [now symmetry|].
  assert (Hnb : Forall (fun c => int_math.num_bits (call_value c) <= B)
                  (encode_calls vs)).
  { apply Forall_forall. intros c Hc. apply HB. rewrite Hvals. now apply in_map. }
  destruct (chain_ceiling B _ w0 w0 Hg Hnb Hch
              ltac:(rewrite Hend; cbn [fst snd]; lia) ltac:(lia)) as [Hceil _].
  intros c Hc. rewrite Forall_forall in Hceil, Hg.
  split; [|now apply Hceil].
  specialize (Hg c Hc). destruct c as [[[p cu] n] i].
  cbn [call_value call_cur fst snd]. destruct Hg as (_ & _ & _ & _ & Hfit & _).
  exact Hfit.
Qed.

Lemma widths_bounded_by_widest_value_witness :
  let vs := repeat 1 40 ++ [9; 0; 0] ++ repeat 3 60 in
  (exists s, encode_state vs = Ok s) /\
  map call_value (encode_calls vs) = vs /\
  forall c, In c (encode_calls vs) ->
    int_math.num_bits (call_value c) <= call_cur c <= 4.
Proof.
  intros vs. apply (widths_bounded_by_widest_value vs 4).
  - discriminate.
  - apply all_uint_Forall. vm_compute. reflexivity.
  - intros v Hv. apply Z.leb_le. revert v Hv.
    apply (proj1 (forallb_forall (fun v => int_math.num_bits v <=? 4) vs)).
    vm_compute. reflexivity.
Defined.

(** a chain of accepted calls all of width [w >= 1] that ends without a
    change of width: every call keeps the width, and each costs [w] bits *)
Lemma constant_chain w cs :
  1 <= w -> Forall good_call cs -> Forall (fun c => call_cur c = w) cs ->
  chain (w, w) cs ->
  snd (chain_end (w, w) cs) = fst (chain_end (w, w) cs) ->
  cs = map (fun v => (w, w, w, v)) (map call_value cs) /\
  snd (emit 0 cs) = 0 /\
  Z.of_nat (length (fst (emit 0 cs))) = w * Z.of_nat (length cs).
Proof.
  intros Hw. induction cs as [|[[[p c] n] i] rest IH]; intros Hg Hc Hch Hend.
  - cbn. repeat split; lia.
  - cbn [chain] in Hch. destruct Hch as [Heq Hch]. injection Heq as <- <-.
    pose proof (Forall_inv Hg) as Hg1. pose proof (Forall_inv_tail Hg) as Hgr.
    pose proof (Forall_inv_tail Hc) as Hcr.
    cbn [chain_end] in Hend.
    assert (Hn : n = w).
    { destruct rest as [|[[[p1 c1] n1] i1] rest'].
      - cbn [chain_end fst snd] in Hend. exact Hend.
      - cbn [chain] in Hch. destruct Hch as [Heq _]. injection Heq as _ ->.
        exact (Forall_inv Hcr). }
    subst n. destruct (IH Hgr Hcr Hch Hend) as (Hmap & Hq & Hlen).
    split; [cbn [map call_value snd]; now rewrite <- Hmap|].
    cbn [emit length]. assert (E0 : (w =? 0) = false) by (apply Z.eqb_neq; lia).
    rewrite E0. destruct (emit 0 rest) as [bs q]. cbn [fst snd] in *.
    split; [exact Hq|].
    change (pending_bits 0) with (@nil bool). cbn [app].
    rewrite app_assoc, length_app, Nat2Z.inj_add, Hlen.
    rewrite (symbol_bits_length _ _ _ _ Hg1). rewrite Z.eqb_refl.
    assert (Et : top_bit_redundant w w w = true).
    { unfold top_bit_redundant. rewrite Z.leb_refl. cbn [andb]. apply Z.ltb_lt. lia. }
    rewrite Et. lia.
Qed.

(** X16: values of one bit length.  When every value of a nonempty run has
    exactly [w >= 1] bits, every symbol is coded at width [w] with the width
    unchanged and the top bit elided, so each value costs [w] bits (one for
    the width, [w - 1] for the value) after the 5 or 6 bits of the first
    width. *)
Theorem constant_width_cost (vs : list Z) (w : Z) :
  vs <> [] -> Forall Int32.is_uint vs -> 1 <= w ->
  (forall v, In v vs -> int_math.num_bits v = w) ->
  encode_calls vs = map (fun v => (w, w, w, v)) vs /\
  exists code, encode vs = Ok code /\
    Z.of_nat (length code) =
    ((if w <? 31 then 5 else 6) + w * Z.of_nat (length vs) + 7) / 8.
Proof.
  intros Hne Hvs Hw Hall.
  destruct (encode_state_ok vs Hne Hvs) as (s & Henc & Hfin).
  destruct (encoder_final_code vs _ s Hfin) as (_ & _ & _ & _ & Hcode & _ & _).
  destruct Hfin as (_ & Hg & Hvals & w0 & l & _ & Hch & Hend & Hbits).
  set (cs := encode_calls vs) in *.
  assert (Hnb : Forall (fun c => int_math.num_bits (call_value c) <= w) cs).
  { apply Forall_forall. intros c Hc. rewrite (Hall (call_value c)); [lia|].
    rewrite Hvals. now apply in_map. }
  destruct (chain_ceiling w _ w0 w0 Hg Hnb Hch
              ltac:(rewrite Hend; cbn [fst snd]; lia) ltac:(lia)) as [Hceil _].
  assert (Hcur : Forall (fun c => call_cur c = w) cs).
  { rewrite Forall_forall in *. intros c Hc.
    pose proof (Hceil c Hc) as H1. pose proof (Hg c Hc) as H2.
    assert (H3 : int_math.num_bits (call_value c) = w)
      by (apply Hall; rewrite Hvals; now apply in_map).
    destruct c as [[[p cu] n] i]. cbn [call_cur call_value fst snd] in *.
    destruct H2 as (_ & _ & _ & _ & Hfit & _). lia. }
  assert (Hcne : cs <> []).
  { intros E. rewrite E in Hvals. cbn in Hvals. congruence. }
  assert (Ew0 : w0 = w).
  { destruct (chain_head _ _ Hch Hcne) as (n & i & rest & E). cbn [fst snd] in E.
    rewrite E in Hcur. inversion Hcur as [|? ? H1 _]. exact H1. }
  subst w0.
  destruct (constant_chain w cs Hw Hg Hcur Hch
              ltac:(rewrite Hend; reflexivity)) as (Hmap & Hq & Hlen).
  split; [rewrite Hmap, <- Hvals; reflexivity|].
  exists (BitStream.Code (UintStream.bit_stream_ s)).
  split; [unfold encode; rewrite Henc; exact Hcode|].
  rewrite Hbits, Code_length, Hq. change (pending_bits 0) with (@nil bool).
  rewrite app_nil_r, length_app, Nat2Z.inj_add, Hlen, prelude_bits_length.
  pose proof (f_equal (@length Z) Hvals) as Hl. rewrite length_map in Hl.
  now rewrite Hl.
Qed.

Lemma constant_width_cost_witness :
  let vs := repeat 5 70 ++ repeat 7 30 in
  encode_calls vs = map (fun v => (3, 3, 3, v)) vs /\
  exists code, encode vs = Ok code /\
    Z.of_nat (length code) =
    ((if 3 <? 31 then 5 else 6) + 3 * Z.of_nat (length vs) + 7) / 8.
Proof.
  intros vs. apply (constant_width_cost vs 3).
  - discriminate.
  - apply all_uint_Forall. vm_compute. reflexivity.
  - lia.
  - intros v Hv. apply Z.eqb_eq. revert v Hv.
    apply (proj1 (forallb_forall (fun v => int_math.num_bits v =? 3) vs)).
    vm_compute. reflexivity.
Defined.

(** ** The round trip, to the last bit *)

(** X17: encoding then decoding returns the values and uses the whole code.
    For a nonempty sequence of fewer than 2^31 [uint32_t]s, the constructor
    of the decoder accepts the code, [length vs] calls of [Read] return the
    values in order, and what they leave unread is only the zero bits that
    pad the last byte, fewer than 8. *)
Theorem roundtrip_leaves_padding (vs : list Z) (x_uninit : nat -> Z) :
  vs <> [] -> Forall Int32.is_uint vs -> Z.of_nat (length vs) < Int32.half ->
  exists code d0 d k,
    encode vs = Ok code /\
    ReverseUintStream.make code = inr d0 /\
    read_n (length vs) x_uninit d0 = Some (vs, d) /\
    ReverseUintStream.bit_reader_ d = repeat false k /\ (k < 8)%nat.
Proof.
  intros Hne Hvs Hlen.
  destruct (encode_state_ok vs Hne Hvs) as (s & Henc & Hfin).
  destruct (encoder_final_code vs _ s Hfin)
    as (w0' & R' & _ & _ & Hcode & Hcne & _).
  destruct Hfin as (_ & Hg & Hvals & w0 & l & [Hw0 _] & Hch & _ & Hbits).
  set (cs := encode_calls vs) in *.
  set (body := prelude_bits w0 ++ fst (emit 0 cs) ++ pending_bits (snd (emit 0 cs))) in *.
  assert (Hmake : ReverseBitStream.make (BitStream.Code (UintStream.bit_stream_ s))
                  = prelude_bits w0 ++ chain_bits cs ++ repeat false (BitStream.padding body)).
  { rewrite Hbits, make_Code. unfold BitStream.Flush, body, chain_bits.
    now rewrite <- !app_assoc. }
  assert (Hl : length cs = length vs).
  { pose proof (f_equal (@length Z) Hvals) as Hl. rewrite length_map in Hl.
    now symmetry. }
  destruct (decode_chain (length cs) cs (le_n _) Hg ltac:(lia) w0 w0
              (repeat false (BitStream.padding body)) x_uninit Hch) as (d & Hd & Hr).
  exists (BitStream.Code (UintStream.bit_stream_ s)),
         (ReverseUintStream.mk (chain_bits cs ++ repeat false (BitStream.padding body))
            w0 w0 (-1)), d, (BitStream.padding body).
  split; [unfold encode; rewrite Henc; exact Hcode|].
  split; [apply (make_prelude w0 _ _ Hw0 Hcne Hmake)|].
  split; [rewrite <- Hl, Hd, <- Hvals; reflexivity|].
  split; [exact Hr | apply padding_lt].
Qed.

Lemma roundtrip_leaves_padding_witness :
  exists code d0 d k,
    encode [7; 0; 0; 0; 4294967295; 0] = Ok code /\
    ReverseUintStream.make code = inr d0 /\
    read_n (length [7; 0; 0; 0; 4294967295; 0]) (fun _ => 0) d0
      = Some ([7; 0; 0; 0; 4294967295; 0], d) /\
    ReverseUintStream.bit_reader_ d = repeat false k /\ (k < 8)%nat.
Proof.
  apply (roundtrip_leaves_padding [7; 0; 0; 0; 4294967295; 0] (fun _ => 0)).
  - discriminate.
  - apply all_uint_Forall. vm_compute. reflexivity.
  - vm_compute. reflexivity.
Defined.

(** ** The signed coder *)

Lemma write_all_int_zigzag vs : forall s,
  write_all_int vs s = write_all (map IntStream.zigzag vs) s.
Proof.
  induction vs as [|v rest IH]; intros s; [reflexivity|].
  cbn [write_all_int write_all map]. unfold IntStream.Write.
  destruct (UintStream.Write (IntStream.zigzag v) s); cbn [bind]; [apply IH | reflexivity].
Qed.

Lemma read_n_int_unzigzag n : forall x s,
  read_n_int n x s =
  match read_n n x s with
  | None => None
  | Some (us, s') => Some (map ReverseIntStream.unzigzag us, s')
  end.
Proof.
  induction n as [|n IH]; intros x s; [reflexivity|].
  cbn [read_n_int read_n]. unfold ReverseIntStream.Read.
  destruct (ReverseUintStream.Read (x 0%nat) s) as [[u s1]|]; [|reflexivity].
  rewrite IH. destruct (read_n n _ s1) as [[us s2]|]; reflexivity.
Qed.

(** X18: round trip of the signed coder.  For a nonempty sequence of fewer
    than 2^31 [int32_t]s, [IntStream::Write] of each value followed by
    [Flush] gives a code from which as many calls of
    [ReverseIntStream::Read] return the values in order. *)
Theorem signed_roundtrip (vs : list Z) (x_uninit : nat -> Z) :
  vs <> [] -> Forall Int32.is_int vs -> Z.of_nat (length vs) < Int32.half ->
  exists code, encode_int vs = Ok code /\
               decode_int (length vs) x_uninit code = Some vs.
Proof.
  intros Hne Hvs Hlen.
  assert (Hu : Forall Int32.is_uint (map IntStream.zigzag vs)).
  { apply Forall_map. eapply Forall_impl; [|exact Hvs]. apply zigzag_is_uint. }
  assert (Hne' : map IntStream.zigzag vs <> []) by (destruct vs; [congruence|discriminate]).
  destruct (roundtrip_below_int_range (map IntStream.zigzag vs) x_uninit Hne' Hu
              ltac:(now rewrite length_map)) as (code & Henc & Hdec).
  exists code. split.
  - unfold encode_int. rewrite write_all_int_zigzag. exact Henc.
  - unfold decode_int, ReverseIntStream.make. unfold decode, read_all in Hdec.
    rewrite length_map in Hdec.
    destruct (ReverseUintStream.make code) as [|d]; [discriminate|].
    rewrite read_n_int_unzigzag.
    destruct (read_n (length vs) x_uninit d) as [[us d']|]; [|discriminate].
    cbn [option_map fst] in *. injection Hdec as ->. f_equal.
    rewrite map_map. rewrite <- (map_id vs) at 2. apply map_ext_in.
    intros v Hv. apply unzigzag_zigzag. rewrite Forall_forall in Hvs. now apply Hvs.
Qed.

Lemma signed_roundtrip_witness :
  exists code, encode_int [-2147483648; 0; 0; 2147483647; -1; 3] = Ok code /\
    decode_int (length [-2147483648; 0; 0; 2147483647; -1; 3]) (fun _ => 0) code
    = Some [-2147483648; 0; 0; 2147483647; -1; 3].
Proof.
  apply (signed_roundtrip [-2147483648; 0; 0; 2147483647; -1; 3] (fun _ => 0)).
  - discriminate.
  - repeat constructor; vm_compute; congruence.
  - vm_compute. reflexivity.
Defined.

(** X19: the map of [IntStream::Write] onto [uint32_t] is onto, and small
    magnitudes get short codes.  Every [uint32_t] [u] is the image of the
    [int32_t] that [ReverseIntStream::Read] computes from it; and for
    [0 <= n <= 31] the image of [s] has at most [n + 1] bits exactly when
    [-2^n <= s < 2^n]. *)
Theorem zigzag_onto_and_magnitude :
  (forall u, Int32.is_uint u ->
     Int32.is_int (ReverseIntStream.unzigzag u) /\
     IntStream.zigzag (ReverseIntStream.unzigzag u) = u) /\
  (forall s n, Int32.is_int s -> 0 <= n <= 31 ->
     (int_math.num_bits (IntStream.zigzag s) <= n + 1 <-> - 2 ^ n <= s < 2 ^ n)).
Proof.
  split.
  - intros u Hu.
    assert (Hs : Int32.is_int (ReverseIntStream.unzigzag u) /\
                 ReverseIntStream.unzigzag u
                 = if u mod 2 =? 0 then u / 2 else - (u / 2) - 1).
    { unfold ReverseIntStream.unzigzag.
      assert (Hh : Int32.is_int (u / 2)).
      { unfold Int32.is_uint, Int32.is_int in *. rewrite half_eq, modulus_eq in *.
        Z.div_mod_to_equations. lia. }
      assert (H0 : 0 <= u / 2)
        by (unfold Int32.is_uint in Hu; Z.div_mod_to_equations; lia).
      rewrite (to_int_id (u / 2) Hh).
      destruct (u mod 2 =? 0); [split; [exact Hh | reflexivity]|].
      unfold Int32.neg. rewrite (to_int_id (- (u / 2))) by int_range.
      rewrite sub_exact by int_range. split; [int_range | reflexivity]. }
    destruct Hs as [Hi Hv]. split; [exact Hi|].
    rewrite (zigzag_value _ Hi), Hv.
    destruct (Z.eqb_spec (u mod 2) 0) as [E|E].
    + assert (E' : (0 <=? u / 2) = true)
        by (apply Z.leb_le; unfold Int32.is_uint in Hu; Z.div_mod_to_equations; lia).
      rewrite E'. Z.div_mod_to_equations. lia.
    + assert (E' : (0 <=? - (u / 2) - 1) = false)
        by (apply Z.leb_gt; unfold Int32.is_uint in Hu; Z.div_mod_to_equations; lia).
      rewrite E'. Z.div_mod_to_equations. lia.
  - intros s n Hs Hn.
    pose proof (zigzag_is_uint s Hs) as [Hu0 _].
    assert (Hp : 2 ^ (n + 1) = 2 * 2 ^ n) by (rewrite Z.pow_add_r by lia; lia).
    assert (Hb : int_math.num_bits (IntStream.zigzag s) <= n + 1
                 <-> IntStream.zigzag s < 2 ^ (n + 1)).
    { split; [apply pow2_num_bits; exact Hu0 | apply num_bits_le; lia]. }
    rewrite Hb, (zigzag_value s Hs), Hp.
    assert (0 < 2 ^ n) by (apply Z.pow_pos_nonneg; lia).
    destruct (Z.leb_spec 0 s); lia.
Qed.

Lemma zigzag_onto_and_magnitude_witness :
  (Int32.is_int (ReverseIntStream.unzigzag 4294967295) /\
   IntStream.zigzag (ReverseIntStream.unzigzag 4294967295) = 4294967295) /\
  (int_math.num_bits (IntStream.zigzag (-8)) <= 3 + 1 <-> - 2 ^ 3 <= -8 < 2 ^ 3).
Proof.
  split.
  - apply (proj1 zigzag_onto_and_magnitude 4294967295). vm_compute. split; congruence.
  - apply (proj2 zigzag_onto_and_magnitude (-8) 3); [vm_compute; split; congruence | lia].
Defined.

(** X20: codes of equal length tell sequences apart.  Two nonempty
    sequences of the same number of [uint32_t]s, fewer than 2^31, that have
    the same code are equal.  The number of values is not part of the code:
    one value 1 and two values 1 have the same code. *)
Theorem encode_injective_at_equal_length :
  (forall vs1 vs2 code,
     vs1 <> [] -> Forall Int32.is_uint vs1 -> Forall Int32.is_uint vs2 ->
     Z.of_nat (length vs1) < Int32.half -> length vs1 = length vs2 ->
     encode vs1 = Ok code -> encode vs2 = Ok code -> vs1 = vs2) /\
  encode [1] = encode [1; 1].
Proof.
  split; [|vm_compute; reflexivity].
  intros vs1 vs2 code Hne H1 H2 Hlen Heq E1 E2.
  assert (Hne2 : vs2 <> []) by (destruct vs1, vs2; try discriminate; congruence).
  destruct (roundtrip_below_int_range vs1 (fun _ => 0) Hne H1 Hlen) as (c1 & Hc1 & Hd1).
  destruct (roundtrip_below_int_range vs2 (fun _ => 0) Hne2 H2 ltac:(now rewrite <- Heq))
    as (c2 & Hc2 & Hd2).
  rewrite E1 in Hc1. rewrite E2 in Hc2. injection Hc1 as <-. injection Hc2 as <-.
  rewrite Heq in Hd1. rewrite Hd1 in Hd2. now injection Hd2.
Qed.

Lemma encode_injective_at_equal_length_witness :
  [5; 0; 9] = [5; 0; 9].
Proof.
  refine (proj1 encode_injective_at_equal_length [5; 0; 9] [5; 0; 9] [67; 67; 0]
            _ _ _ _ _ _ _).
  - discriminate.
  - apply all_uint_Forall. vm_compute. reflexivity.
  - apply all_uint_Forall. vm_compute. reflexivity.
  - vm_compute. reflexivity.
  - reflexivity.
  - vm_compute. reflexivity.
  - vm_compute. reflexivity.
Defined.

(** ** The planned widths in closed form *)

Lemma plan_lipschitz mr vs : forall d i, (i + d < length vs)%nat ->
  Z.abs (nth (i + d) (plan mr vs) 0 - nth i (plan mr vs) 0) <= Z.of_nat d.
Proof.
  destruct (plan_admissible mr vs) as (_ & _ & Hs & _).
  induction d as [|d IH]; intros i Hi.
  - rewrite Nat.add_0_r. lia.
  - specialize (IH i ltac:(lia)). specialize (Hs (i + d)%nat ltac:(lia)).
    replace (i + S d)%nat with (S (i + d)) by lia. lia.
Qed.

Lemma plan_lower_bounds mr vs i : (i < length vs)%nat ->
  mr - 1 - Z.of_nat i <= nth i (plan mr vs) 0 /\
  forall j, (j < length vs)%nat ->
    int_math.num_bits (nth j vs 0) - Z.abs (Z.of_nat i - Z.of_nat j)
    <= nth i (plan mr vs) 0.
Proof.
  intros Hi. destruct (plan_admissible mr vs) as (_ & Hfit & _ & H0). split.
  - specialize (H0 ltac:(lia)).
    pose proof (plan_lipschitz mr vs i 0 ltac:(lia)) as Hl. cbn [Nat.add] in Hl. lia.
  - intros j Hj. specialize (Hfit j Hj).
    destruct (Nat.le_ge_cases i j) as [Hij|Hji].
    + pose proof (plan_lipschitz mr vs (j - i) i ltac:(lia)) as Hl.
      replace (i + (j - i))%nat with j in Hl by lia. lia.
    + pose proof (plan_lipschitz mr vs (i - j) j ltac:(lia)) as Hl.
      replace (j + (i - j))%nat with i in Hl by lia. lia.
Qed.

(** the forward pass at [k] is the seed or an earlier value, less the
    distance *)
Lemma fwd_attained mr vs : forall k, (k < length vs)%nat ->
  let F := fwd mr (map int_math.num_bits vs) in
  nth k F 0 = mr - 1 - Z.of_nat k \/
  exists j, (j <= k)%nat /\
    nth k F 0 = int_math.num_bits (nth j vs 0) - (Z.of_nat k - Z.of_nat j).
Proof.
  induction k as [|k IH]; intros Hk; cbv zeta.
  - rewrite fwd_nth_0 by (rewrite length_map; lia). rewrite nth_map_num_bits.
    destruct (Z.max_spec (int_math.num_bits (nth 0 vs 0)) (mr - 1)) as [[_ ->]|[_ ->]].
    + left. lia.
    + right. exists 0%nat. split; [lia|]. lia.
  - rewrite fwd_nth_S by (rewrite length_map; lia). rewrite nth_map_num_bits.
    specialize (IH ltac:(lia)). cbv zeta in IH.
    destruct (Z.max_spec (int_math.num_bits (nth (S k) vs 0))
                (nth k (fwd mr (map int_math.num_bits vs)) 0 - 1)) as [[_ ->]|[_ ->]].
    + destruct IH as [->|(j & Hj & ->)]; [left; lia|].
      right. exists j. split; lia.
    + right. exists (S k). split; lia.
Qed.

(** the planned width at [k] is the forward pass at [k] or later, less the
    distance *)
Lemma plan_attained mr vs : forall d k, (k + d + 1 = length vs)%nat ->
  exists m, (k <= m < length vs)%nat /\
    nth k (plan mr vs) 0 =
    nth m (fwd mr (map int_math.num_bits vs)) 0 - (Z.of_nat m - Z.of_nat k).
Proof.
  induction d as [|d IH]; intros k Hk.
  - exists k. split; [lia|]. rewrite plan_nth_last by lia. lia.
  - rewrite plan_nth_step by lia.
    destruct (Z.max_spec (nth k (fwd mr (map int_math.num_bits vs)) 0)
                (nth (S k) (plan mr vs) 0 - 1)) as [[_ ->]|[_ ->]].
    + destruct (IH (S k) ltac:(lia)) as (m & Hm & ->). exists m. split; lia.
    + exists k. split; lia.
Qed.

Lemma plan_closed_form mr vs i : (i < length vs)%nat ->
  nth i (plan mr vs) 0 = mr - 1 - Z.of_nat i \/
  exists j, (j < length vs)%nat /\
    nth i (plan mr vs) 0 =
    int_math.num_bits (nth j vs 0) - Z.abs (Z.of_nat i - Z.of_nat j).
Proof.
  intros Hi. destruct (plan_lower_bounds mr vs i Hi) as [Hseed Hval].
  destruct (plan_attained mr vs (length vs - 1 - i) i ltac:(lia)) as (m & Hm & Hw).
  destruct (fwd_attained mr vs m ltac:(lia)) as [Hf|(j & Hj & Hf)];
    cbv zeta in Hf; rewrite Hf in Hw.
  - left. lia.
  - right. exists j. split; [lia|]. specialize (Hval j ltac:(lia)). lia.
Qed.

(** X21: the widths of [ComputeNumBits] in closed form.  The width planned
    for the value at index [i] of the buffer is the largest of
    [most_recent_num_bits_ - 1 - i] and of the bit lengths of the values of
    the buffer, each less its distance to [i]: it is at least each of these,
    and equal to one of them. *)
Theorem ComputeNumBits_closed_form (s : UintStream.t) (i : nat) :
  Forall Int32.is_uint (UintStream.buffer_ s) ->
  - Int32.half < UintStream.most_recent_num_bits_ s < Int32.half ->
  (i < length (UintStream.buffer_ s))%nat ->
  let w := nth i (UintStream.ComputeNumBits s) 0 in
  let term j := int_math.num_bits (nth j (UintStream.buffer_ s) 0)
                - Z.abs (Z.of_nat i - Z.of_nat j) in
  UintStream.most_recent_num_bits_ s - 1 - Z.of_nat i <= w /\
  (forall j, (j < length (UintStream.buffer_ s))%nat -> term j <= w) /\
  (w = UintStream.most_recent_num_bits_ s - 1 - Z.of_nat i \/
   exists j, (j < length (UintStream.buffer_ s))%nat /\ w = term j).
Proof.
  intros Hb Hmr Hi. cbv zeta. rewrite (ComputeNumBits_plan s Hb Hmr).
  destruct (plan_lower_bounds (UintStream.most_recent_num_bits_ s)
              (UintStream.buffer_ s) i Hi) as [Hseed Hval].
  split; [exact Hseed|]. split; [exact Hval|].
  apply plan_closed_form. exact Hi.
Qed.

Lemma ComputeNumBits_closed_form_witness :
  let s := UintStream.mk [0; 0; 0; 200; 0; 0] 9 BitStream.empty true false 0 in
  UintStream.ComputeNumBits s = [8; 7; 7; 8; 7; 6] /\
  let w := nth 1 (UintStream.ComputeNumBits s) 0 in
  let term j := int_math.num_bits (nth j (UintStream.buffer_ s) 0)
                - Z.abs (Z.of_nat 1 - Z.of_nat j) in
  UintStream.most_recent_num_bits_ s - 1 - Z.of_nat 1 <= w /\
  (forall j, (j < length (UintStream.buffer_ s))%nat -> term j <= w) /\
  (w = UintStream.most_recent_num_bits_ s - 1 - Z.of_nat 1 \/
   exists j, (j < length (UintStream.buffer_ s))%nat /\ w = term j).
Proof.
  intros s. split; [vm_compute; reflexivity|].
  apply (ComputeNumBits_closed_form s 1).
  - apply all_uint_Forall. vm_compute. reflexivity.
  - vm_compute. split; reflexivity.
  - cbn. lia.
Defined.

(** ** Decoding a part of the sequence *)

Lemma read_n_length : forall n x d vs d',
  read_n n x d = Some (vs, d') -> length vs = n.
Proof.
  induction n as [|n IH]; intros x d vs d'.
  - cbn [read_n]. intros H. now injection H as <- _.
  - rewrite read_n_S.
    destruct (ReverseUintStream.Read (x 0%nat) d) as [[v d1]|]; [|discriminate].
    destruct (read_n n _ d1) as [[vs1 d2]|] eqn:E; [|discriminate].
    intros H. injection H as <- _. cbn [length]. f_equal. exact (IH _ _ _ _ E).
Qed.

(** X22: the decoder can stop early.  From the code of a nonempty sequence
    of fewer than 2^31 [uint32_t]s, [m] calls of [Read], for any [m] up to
    the number of values, return the first [m] values. *)
Theorem decode_prefix (vs : list Z) (x_uninit : nat -> Z) (m : nat) :
  vs <> [] -> Forall Int32.is_uint vs -> Z.of_nat (length vs) < Int32.half ->
  (m <= length vs)%nat ->
  exists code, encode vs = Ok code /\ decode m x_uninit code = Some (firstn m vs).
Proof.
  intros Hne Hvs Hlen Hm.
  destruct (roundtrip_below_int_range vs x_uninit Hne Hvs Hlen) as (code & Henc & Hdec).
  exists code. split; [exact Henc|].
  unfold decode, read_all in *.
  destruct (ReverseUintStream.make code) as [|d]; [discriminate|].
  replace (length vs) with (m + (length vs - m))%nat in Hdec by lia.
  rewrite read_n_app in Hdec.
  destruct (read_n m x_uninit d) as [[vs1 d1]|] eqn:E1; [|discriminate].
  destruct (read_n (length vs - m) _ d1) as [[vs2 d2]|]; [|discriminate].
  cbn [option_map fst] in *. injection Hdec as <-.
  apply read_n_length in E1. f_equal.
  rewrite firstn_app, <- E1, Nat.sub_diag, firstn_all. cbn [firstn].
  now rewrite app_nil_r.
Qed.

Lemma decode_prefix_witness :
  exists code, encode [7; 0; 0; 0; 4294967295; 0] = Ok code /\
    decode 4 (fun _ => 0) code = Some (firstn 4 [7; 0; 0; 0; 4294967295; 0]).
Proof.
  apply (decode_prefix [7; 0; 0; 0; 4294967295; 0] (fun _ => 0) 4).
  - discriminate.
  - apply all_uint_Forall. vm_compute. reflexivity.
  - vm_compute. reflexivity.
  - cbn. lia.
Defined.

(** ** The count of pending zeros is a [uint32_t] *)

Lemma emit_zero_calls_wrap zs rest : Forall (fun c => call_cur c = 0) zs ->
  forall pending, 0 <= pending < Int32.modulus ->
  emit pending (zs ++ rest) =
  emit ((pending + Z.of_nat (length zs)) mod Int32.modulus) rest.
Proof.
  induction 1 as [|[[[p c] n] i] zs Hz Hzs IH]; intros pending Hp.
  - cbn [app length]. rewrite Z.add_0_r, Z.mod_small by exact Hp. reflexivity.
  - unfold call_cur in Hz. cbn [fst snd] in Hz. subst c.
    cbn [app emit length]. change (0 =? 0) with true. cbv iota.
    rewrite IH
      by (unfold Int32.uadd, Int32.to_uint; apply Z.mod_pos_bound;
          rewrite modulus_eq; lia).
    f_equal. unfold Int32.uadd, Int32.to_uint.
    rewrite Zplus_mod_idemp_l. f_equal. lia.
Qed.

(** the code of [N] zeros, for any [N >= 1] *)
Lemma encode_zeros_wrap (N : nat) : (0 < N)%nat ->
  encode (repeat 0 N) =
  Ok (BitStream.Code
        (BitStream.Flush
           (prelude_bits 0 ++ pending_bits (Z.of_nat N mod Int32.modulus)))).
Proof.
  intros HN.
  assert (Hne : repeat 0 N <> []) by (destruct N; [lia | discriminate]).
  assert (Hvs : Forall Int32.is_uint (repeat 0 N)).
  { apply Forall_forall. intros v Hv. apply repeat_spec in Hv. subst v. int_range. }
  destruct (encode_state_ok _ Hne Hvs)
    as (s & Henc & Hfl & Hg & Hvals & w0 & c & [Hw0 _] & Hch & Hend & Hbits).
  set (cs := encode_calls (repeat 0 N)) in *.
  assert (Hlen : length cs = N).
  { apply (f_equal (@length Z)) in Hvals. now rewrite repeat_length, length_map in Hvals. }
  assert (Hz : Forall (fun c => call_value c = 0) cs).
  { apply Forall_forall. intros c0 Hc0.
    apply (repeat_spec N 0). rewrite Hvals. now apply in_map. }
  assert (Hcne : cs <> []) by (intros E; rewrite E in Hlen; simpl in Hlen; lia).
  assert (Ew0 : w0 = 0).
  { destruct (Z.eq_dec w0 0) as [|Hw]; [assumption|].
    pose proof (chain_rising cs w0 w0 Hcne Hg Hz Hch ltac:(lia) ltac:(lia)) as Hr.
    rewrite Hend in Hr. cbn [fst snd] in Hr. lia. }
  subst w0.
  assert (Hzw : Forall (fun c => call_cur c = 0) cs).
  { apply (zero_values_zero_width cs 0 Hg Hz Hch). rewrite Hend. cbn [fst snd]. lia. }
  assert (Hemit : emit 0 cs = ([], Z.of_nat N mod Int32.modulus)).
  { rewrite <- (app_nil_r cs).
    rewrite emit_zero_calls_wrap by (try assumption; rewrite modulus_eq; lia).
    cbn [emit Z.add]. now rewrite Hlen. }
  rewrite Hemit in Hbits. cbn [fst snd app] in Hbits.
  unfold encode. rewrite Henc. cbn [bind]. unfold UintStream.Code.
  rewrite Hfl. cbn [assert bind]. now rewrite Hbits.
Qed.

(** X23: the count of pending zeros wraps.  [num_pending_zeros_] is a
    [uint32_t] that [WriteCode] increments, so a sequence of
    [q * 2^32 + k] zeros, with [0 < k < 2^32], gets the code of [k] zeros;
    and a sequence of [q * 2^32] zeros, [q >= 1], gets the one byte that
    holds only the first width. *)
Theorem zero_count_wraps (q k : nat) :
  (0 < k)%nat -> Z.of_nat k < Int32.modulus ->
  encode (repeat 0 (q * Z.to_nat Int32.modulus + k)) = encode (repeat 0 k) /\
  encode (repeat 0 (S q * Z.to_nat Int32.modulus)) = Ok [0].
Proof.
  intros Hk Hlt.
  assert (HM : Z.of_nat (Z.to_nat Int32.modulus) = Int32.modulus)
    by (rewrite modulus_eq; lia).
  assert (HMpos : (0 < Z.to_nat Int32.modulus)%nat) by (rewrite modulus_eq; lia).
  split.
  - rewrite !encode_zeros_wrap by lia.
    rewrite Nat2Z.inj_add, Nat2Z.inj_mul, HM.
    rewrite Z.add_comm, Z.mod_add by (rewrite modulus_eq; lia). reflexivity.
  - rewrite encode_zeros_wrap by (apply Nat.mul_pos_pos; lia).
    rewrite Nat2Z.inj_mul, HM, Z.mod_mul by (rewrite modulus_eq; lia).
    vm_compute. reflexivity.
Qed.

Lemma zero_count_wraps_witness :
  encode (repeat 0 (1 * Z.to_nat Int32.modulus + 5)) = encode (repeat 0 5) /\
  encode (repeat 0 (2 * Z.to_nat Int32.modulus)) = Ok [0].
Proof. apply (zero_count_wraps 1 5); [lia | vm_compute; reflexivity]. Defined.
